(** * Cluster metadata and points writer: a shallow embedding

  The development follows two Go packages of the repository.

  - [Meta] embeds the metadata store ([Data] and its mutators
    [DropShard], [DeleteDataNode], [CreateShardGroup]) and the lease
    table ([Leases.Acquire]).
  - [Coordinator] embeds the write path ([MapShards],
    [sgList.ShardGroupAt], [writeToShardWithContext],
    [WritePointsPrivilegedWithContext]).

  Conventions.
  - A [time.Time] is the integer number of nanoseconds since Go's zero
    time (January 1, year 1, 00:00:00 UTC), so [IsZero] is comparison with
    [0] and [Truncate] rounds down to a multiple of the duration counted
    from that instant, as Go does.
  - A [uint64] is a [Z]; where the code increments a counter the
    wrap-around at [2^64] is written out.
  - [time.Now()], the iteration order of a Go map and the interleaving of
    goroutines are choices of the runtime; they are explicit arguments. *)

From Stdlib Require Import ZArith Lia.
From stdpp Require Import base option list gmap strings.
From Equations Require Import Equations.

Local Open Scope Z_scope.

(** ** Go's [time] package, as far as the code uses it *)

Module GoTime.

Definition Time := Z.
Definition Duration := Z.

Definition IsZero (t : Time) : bool := t =? 0.
Definition Before (t u : Time) : bool := t <? u.
Definition After (t u : Time) : bool := u <? t.
Definition Equal (t u : Time) : bool := t =? u.
Definition Add (t : Time) (d : Duration) : Time := t + d.

(** [t.Truncate(d)]: [t] unchanged when [d <= 0], otherwise [t] rounded
    down to a multiple of [d] since the zero time. *)
Definition Truncate (t : Time) (d : Duration) : Time :=
  if d <=? 0 then t else t - t mod d.

(** [time.Hour]. *)
Definition Hour : Duration := 3600 * 1000000000.

(** Nanoseconds between the zero time and the Unix epoch. *)
Definition unixToInternal : Z := 62135596800 * 1000000000.

(** [time.Unix(0, nsec)]. *)
Definition Unix0 (nsec : Z) : Time := unixToInternal + nsec.

End GoTime.

(** ** Machine integers *)

Module U64.

Definition modulus : Z := 18446744073709551616.     (* 2^64 *)
Definition half : Z := 9223372036854775808.         (* 2^63 *)

(** [x++] on a [uint64]. *)
Definition incr (x : Z) : Z := (x + 1) mod modulus.

(** [int(x)] for a [uint64] [x] on a 64-bit platform. *)
Definition to_int (x : Z) : Z := if x <? half then x else x - modulus.

(** [uint64(i)] for an [int] [i]. *)
Definition of_int (i : Z) : Z := i mod modulus.

End U64.

(** ** Slices *)

(** [append(s[:i], s[i+1:]...)] for an index [i] inside the slice. *)
Definition remove_at {A} (i : nat) (l : list A) : list A :=
  take i l ++ drop (S i) l.

(** ** The runtime

    [now k] is the value of [time.Now()] and [range_order k m] the order
    in which a [range] loop visits the entries of the map [m], when they
    are the [k]-th choice the runtime makes during a call. *)

Record Runtime := mkRuntime {
  now : nat → Z;
  range_order : nat → gmap Z Z → list (Z * Z)
}.

(** ** The metadata store *)

Module Meta.
Import GoTime.

Inductive error : Type :=
| ErrNodeNotFound
| ErrDatabaseNotFound (name : string)
| ErrRetentionPolicyNotFound (name : string)
| ErrCannotReassign (shardID : Z)
    (* fmt.Errorf("cannot reassign shard %d due to lack of data nodes", s.ID) *)
| ErrNew (msg : string).            (* errors.New *)

Record NodeInfo := mkNodeInfo {
  ni_ID : Z;
  ni_Addr : string;
  ni_TCPAddr : string
}.

Record ShardOwner := mkShardOwner { NodeID : Z }.

Record ShardInfo := mkShardInfo {
  si_ID : Z;
  Owners : list ShardOwner
}.

Record ShardGroupInfo := mkShardGroupInfo {
  sgi_ID : Z;
  StartTime : Time;
  EndTime : Time;
  DeletedAt : Time;
  Shards : list ShardInfo;
  TruncatedAt : Time
}.

Record SubscriptionInfo := mkSubscriptionInfo {
  sub_Name : string;
  sub_Mode : string;
  sub_Destinations : list string
}.

Record RetentionPolicyInfo := mkRetentionPolicyInfo {
  rpi_Name : string;
  ReplicaN : Z;                       (* int *)
  Duration : GoTime.Duration;
  ShardGroupDuration : GoTime.Duration;
  ShardGroups : list ShardGroupInfo;
  Subscriptions : list SubscriptionInfo
}.

Record ContinuousQueryInfo := mkContinuousQueryInfo {
  cq_Name : string;
  cq_Query : string
}.

Record DatabaseInfo := mkDatabaseInfo {
  di_Name : string;
  DefaultRetentionPolicy : string;
  RetentionPolicies : list RetentionPolicyInfo;
  ContinuousQueries : list ContinuousQueryInfo
}.

Record UserInfo := mkUserInfo {
  ui_Name : string;
  ui_Hash : string;
  ui_Admin : bool;
  ui_Privileges : list (string * Z)
}.

Record Data := mkData {
  Term : Z;
  Index : Z;
  ClusterID : Z;
  MetaNodes : list NodeInfo;
  DataNodes : list NodeInfo;
  Databases : list DatabaseInfo;
  Users : list UserInfo;
  adminUserExists : bool;
  MaxNodeID : Z;
  MaxShardGroupID : Z;
  MaxShardID : Z
}.

(** Field updates. *)

Definition set_Owners (o : list ShardOwner) (s : ShardInfo) : ShardInfo :=
  mkShardInfo (si_ID s) o.

Definition set_Shards (sh : list ShardInfo) (g : ShardGroupInfo) : ShardGroupInfo :=
  mkShardGroupInfo (sgi_ID g) (StartTime g) (EndTime g) (DeletedAt g) sh (TruncatedAt g).

Definition set_DeletedAt (t : Time) (g : ShardGroupInfo) : ShardGroupInfo :=
  mkShardGroupInfo (sgi_ID g) (StartTime g) (EndTime g) t (Shards g) (TruncatedAt g).

Definition set_ShardGroups (gs : list ShardGroupInfo) (rp : RetentionPolicyInfo)
  : RetentionPolicyInfo :=
  mkRetentionPolicyInfo (rpi_Name rp) (ReplicaN rp) (Duration rp)
    (ShardGroupDuration rp) gs (Subscriptions rp).

Definition set_RetentionPolicies (rps : list RetentionPolicyInfo) (db : DatabaseInfo)
  : DatabaseInfo :=
  mkDatabaseInfo (di_Name db) (DefaultRetentionPolicy db) rps (ContinuousQueries db).

Definition set_Databases (dbs : list DatabaseInfo) (d : Data) : Data :=
  mkData (Term d) (Index d) (ClusterID d) (MetaNodes d) (DataNodes d) dbs
    (Users d) (adminUserExists d) (MaxNodeID d) (MaxShardGroupID d) (MaxShardID d).

Definition set_DataNodes (ns : list NodeInfo) (d : Data) : Data :=
  mkData (Term d) (Index d) (ClusterID d) (MetaNodes d) ns (Databases d)
    (Users d) (adminUserExists d) (MaxNodeID d) (MaxShardGroupID d) (MaxShardID d).

(** All shard groups of the store, in the order the nested loops of the
    mutators visit them. *)
Definition groups_of_db (db : DatabaseInfo) : list ShardGroupInfo :=
  rp ← RetentionPolicies db; ShardGroups rp.

Definition groups_of (d : Data) : list ShardGroupInfo :=
  db ← Databases d; groups_of_db db.

(** *** ShardGroupInfo methods *)

Definition Contains (sgi : ShardGroupInfo) (t : Time) : bool :=
  negb (Before t (StartTime sgi)) && Before t (EndTime sgi).

Definition Deleted (sgi : ShardGroupInfo) : bool := negb (IsZero (DeletedAt sgi)).

Definition Truncated (sgi : ShardGroupInfo) : bool := negb (IsZero (TruncatedAt sgi)).

(** The end time the code orders and shrinks by: [TruncatedAt] for a
    truncated group, [EndTime] otherwise. *)
Definition effective_end (sgi : ShardGroupInfo) : Time :=
  if Truncated sgi then TruncatedAt sgi else EndTime sgi.

(** [ShardGroupInfos.Less]. *)
Definition Less (a b : ShardGroupInfo) : bool :=
  let iEnd := effective_end a in
  let jEnd := effective_end b in
  if Equal iEnd jEnd then Before (StartTime a) (StartTime b)
  else Before iEnd jEnd.

(** *** DropShard *)

(** Index of the first shard of the slice whose ID is [id]. *)
Fixpoint find_shard (id : Z) (shards : list ShardInfo) : option nat :=
  match shards with
  | [] => None
  | s :: rest =>
      if si_ID s =? id then Some 0%nat
      else S <$> find_shard id rest
  end.

(** The body executed for one shard group; [None] when the group does not
    hold the shard and the loops go on. *)
Definition DropShard_group (now : Time) (id : Z) (sg : ShardGroupInfo)
  : option ShardGroupInfo :=
  match find_shard id (Shards sg) with
  | None => None
  | Some found =>
      let shards := Shards sg in
      let sg1 := set_Shards (remove_at found shards) sg in
      Some (if (length shards =? 1)%nat then set_DeletedAt now sg1 else sg1)
  end.

(** The loops stop at the first element on which the body returns. *)
Fixpoint first_update {A} (f : A → option A) (l : list A) : option (list A) :=
  match l with
  | [] => None
  | x :: rest =>
      match f x with
      | Some x' => Some (x' :: rest)
      | None => cons x <$> first_update f rest
      end
  end.

Definition DropShard_rp (now : Time) (id : Z) (rp : RetentionPolicyInfo)
  : option RetentionPolicyInfo :=
  (λ gs, set_ShardGroups gs rp) <$> first_update (DropShard_group now id) (ShardGroups rp).

Definition DropShard_db (now : Time) (id : Z) (db : DatabaseInfo)
  : option DatabaseInfo :=
  (λ rps, set_RetentionPolicies rps db)
    <$> first_update (DropShard_rp now id) (RetentionPolicies db).

(** [Data.DropShard]; [now] is the value of [time.Now()]. *)
Definition DropShard (now : Time) (id : Z) (data : Data) : Data :=
  match first_update (DropShard_db now id) (Databases data) with
  | Some dbs => set_Databases dbs data
  | None => data
  end.

(** A group holds shard [id]. *)
Definition holds (id : Z) (sg : ShardGroupInfo) : Prop :=
  ∃ s, s ∈ Shards sg ∧ si_ID s = id.

(** *** DeleteDataNode *)

(** [m[k]++] on a [map[int]int]. *)
Definition bump (k : Z) (m : gmap Z Z) : gmap Z Z :=
  <[k := default 0 (m !! k) + 1]> m.

(** The loop over the owners of one shard: [nodeIdx] ends as the last index
    whose owner is [id], and every owner is counted. *)
Fixpoint scan_owners (id : Z) (i : nat) (owners : list ShardOwner)
    (nodeIdx : option nat) (freqs : gmap Z Z) : option nat * gmap Z Z :=
  match owners with
  | [] => (nodeIdx, freqs)
  | owner :: rest =>
      scan_owners id (S i) rest
        (if NodeID owner =? id then Some i else nodeIdx)
        (bump (U64.to_int (NodeID owner)) freqs)
  end.

(** The loop over the shards of one group. It returns the shards as they
    are written back, the owner frequencies and the orphaned shards. *)
Fixpoint scan_shards (id : Z) (shards : list ShardInfo) (freqs : gmap Z Z)
    (orphanedShards : list ShardInfo)
  : list ShardInfo * gmap Z Z * list ShardInfo :=
  match shards with
  | [] => ([], freqs, orphanedShards)
  | s :: rest =>
      let '(nodeIdx, freqs1) := scan_owners id 0 (Owners s) None freqs in
      let s1 := match nodeIdx with
                | Some i => set_Owners (remove_at i (Owners s)) s
                | None => s
                end in
      let orphaned1 := if (length (Owners s1) =? 0)%nat
                       then orphanedShards ++ [s1] else orphanedShards in
      let '(rest1, freqs2, orphaned2) := scan_shards id rest freqs1 orphaned1 in
      (s1 :: rest1, freqs2, orphaned2)
  end.

(** The [range] loop of [newShardOwner] over the entries in the order the
    runtime visits them. *)
Fixpoint min_scan (entries : list (Z * Z)) (minId minFreq : Z) : Z * Z :=
  match entries with
  | [] => (minId, minFreq)
  | (id, freq) :: rest =>
      if (minId =? -1) || (freq <? minFreq)
      then min_scan rest id freq
      else min_scan rest minId minFreq
  end.

(** [newShardOwner]; the map is updated in place, so it is returned. *)
Definition newShardOwner (order : list (Z * Z)) (s : ShardInfo)
    (ownerFreqs : gmap Z Z) : (error + Z) * gmap Z Z :=
  let '(minId, _) := min_scan order (-1) 0 in
  if minId <? 0 then (inl (ErrCannotReassign (si_ID s)), ownerFreqs)
  else (inr (U64.of_int minId), bump minId ownerFreqs).

(** The inner loop that hands the new owner to the first shard of the group
    whose ID is the orphan's. *)
Fixpoint add_owner (orphanID newOwnerID : Z) (shards : list ShardInfo)
  : list ShardInfo :=
  match shards with
  | [] => []
  | s :: rest =>
      if si_ID s =? orphanID
      then set_Owners (Owners s ++ [mkShardOwner newOwnerID]) s :: rest
      else s :: add_owner orphanID newOwnerID rest
  end.

(** The loop over the orphaned shards. *)
Fixpoint reassign (rt : Runtime) (k : nat) (orphanedShards : list ShardInfo)
    (freqs : gmap Z Z) (shards : list ShardInfo)
  : list ShardInfo * nat * option error :=
  match orphanedShards with
  | [] => (shards, k, None)
  | orphan :: rest =>
      match newShardOwner (range_order rt k freqs) orphan freqs with
      | (inl err, _) => (shards, S k, Some err)
      | (inr newOwnerID, freqs1) =>
          reassign rt (S k) rest freqs1 (add_owner (si_ID orphan) newOwnerID shards)
      end
  end.

(** The body of the loop over shard groups. *)
Definition DeleteDataNode_group (rt : Runtime) (id : Z) (k : nat)
    (sg : ShardGroupInfo) : ShardGroupInfo * nat * option error :=
  let '(shards1, nodeOwnerFreqs, orphanedShards) :=
    scan_shards id (Shards sg) ∅ [] in
  let sg1 := set_Shards shards1 sg in
  if (length (Shards sg) =? 0)%nat
     || (length orphanedShards =? length (Shards sg))%nat
  then (set_DeletedAt (now rt k) sg1, S k, None)
  else
    let '(shards2, k1, err) :=
      reassign rt k orphanedShards (delete (U64.to_int id) nodeOwnerFreqs) shards1 in
    (set_Shards shards2 sg1, k1, err).

(** A [for ... range] loop whose body may return an error: the elements
    after the failing one are left as they were. *)
Fixpoint for_each {A} (body : nat → A → A * nat * option error) (k : nat)
    (l : list A) : list A * nat * option error :=
  match l with
  | [] => ([], k, None)
  | x :: rest =>
      let '(x1, k1, e) := body k x in
      match e with
      | Some err => (x1 :: rest, k1, Some err)
      | None =>
          let '(rest1, k2, e2) := for_each body k1 rest in
          (x1 :: rest1, k2, e2)
      end
  end.

Definition DeleteDataNode_rp (rt : Runtime) (id : Z) (k : nat)
    (rp : RetentionPolicyInfo) : RetentionPolicyInfo * nat * option error :=
  let '(gs, k1, e) := for_each (DeleteDataNode_group rt id) k (ShardGroups rp) in
  (set_ShardGroups gs rp, k1, e).

Definition DeleteDataNode_db (rt : Runtime) (id : Z) (k : nat)
    (db : DatabaseInfo) : DatabaseInfo * nat * option error :=
  let '(rps, k1, e) := for_each (DeleteDataNode_rp rt id) k (RetentionPolicies db) in
  (set_RetentionPolicies rps db, k1, e).

(** [Data.DeleteDataNode]: the store after the call and the error
    returned. On an error the mutations made so far stay. *)
Definition DeleteDataNode (rt : Runtime) (id : Z) (data : Data)
  : Data * option error :=
  let nodes := filter (λ n, ni_ID n ≠ id) (DataNodes data) in
  if (length nodes =? length (DataNodes data))%nat
  then (data, Some ErrNodeNotFound)
  else
    let data1 := set_DataNodes nodes data in
    let '(dbs, _, e) := for_each (DeleteDataNode_db rt id) 0%nat (Databases data1) in
    (set_Databases dbs data1, e).

(** *** CreateShardGroup *)

(** [RetentionPolicyInfo.ShardGroupByTimestamp]. *)
Definition accepts (timestamp : Time) (sgi : ShardGroupInfo) : bool :=
  Contains sgi timestamp && negb (Deleted sgi)
  && (negb (Truncated sgi) || Before timestamp (TruncatedAt sgi)).

Definition ShardGroupByTimestamp (rpi : RetentionPolicyInfo) (timestamp : Time)
  : option ShardGroupInfo :=
  List.find (accepts timestamp) (ShardGroups rpi).

(** [Data.RetentionPolicy], as the position of the policy: the first
    database with the name, and in it the first policy with the name. *)
Definition RetentionPolicy_at (data : Data) (database name : string)
  : error + option (nat * nat * RetentionPolicyInfo) :=
  match list_find (λ db, di_Name db = database) (Databases data) with
  | None => inl (ErrDatabaseNotFound database)
  | Some (i, di) =>
      match list_find (λ rp, rpi_Name rp = name) (RetentionPolicies di) with
      | None => inr None
      | Some (j, rpi) => inr (Some (i, j, rpi))
      end
  end.

(** The loop [for shardN*replicaN%len(data.DataNodes) != 0 { shardN++ }],
    run for at most [fuel] tests; [None] when the bound is reached. Go's [%]
    is the truncated remainder [Z.rem]. *)
Fixpoint shardN_loop (fuel : nat) (shardN replicaN n : Z) : option Z :=
  match fuel with
  | O => None
  | S fuel' =>
      if Z.rem (shardN * replicaN) n =? 0 then Some shardN
      else shardN_loop fuel' (shardN + 1) replicaN n
  end.

(** One round of the loop that shrinks the window against group [g]. *)
Definition shrink (timestamp : Time) (w : Time * Time) (g : ShardGroupInfo)
  : Time * Time :=
  let '(startTime, endTime) := w in
  if Deleted g then w
  else
    let startI := StartTime g in
    let endI := effective_end g in
    let startTime1 :=
      if negb (Before timestamp endI) && After endI startTime then endI
      else startTime in
    let endTime1 :=
      if After startI timestamp && Before startI endTime then startI
      else endTime in
    (startTime1, endTime1).

(** [ShardInfo]s with fresh IDs, each bumping [MaxShardID]. *)
Fixpoint new_shards (n : nat) (maxShardID : Z) : list ShardInfo * Z :=
  match n with
  | O => ([], maxShardID)
  | S n' =>
      let id := U64.incr maxShardID in
      let '(rest, m) := new_shards n' id in
      (mkShardInfo id [] :: rest, m)
  end.

(** [data.DataNodes[i].ID]; the index is always inside the slice here. *)
Definition node_ID_at (nodes : list NodeInfo) (i : nat) : Z :=
  match nodes !! i with
  | Some n => ni_ID n
  | None => 0
  end.

(** The [j] loop: [count] owners taken round robin from [nodeIndex]. *)
Fixpoint take_owners (nodes : list NodeInfo) (nodeIndex count : nat)
  : list ShardOwner :=
  match count with
  | O => []
  | S c =>
      mkShardOwner (node_ID_at nodes (nodeIndex mod length nodes))
        :: take_owners nodes (S nodeIndex) c
  end.

(** The [i] loop over the new shards. *)
Fixpoint assign_owners (nodes : list NodeInfo) (replicaN : nat)
    (nodeIndex : nat) (shards : list ShardInfo) : list ShardInfo :=
  match shards with
  | [] => []
  | si :: rest =>
      set_Owners (Owners si ++ take_owners nodes nodeIndex replicaN) si
        :: assign_owners nodes replicaN (nodeIndex + replicaN) rest
  end.

(** [sort.Sort(ShardGroupInfos(...))]. The library sort is outside the
    repository; it is embedded as an insertion sort by [Less]. Go promises
    a sorted permutation and no more; the theorems use no more. *)
Fixpoint insert_group (g : ShardGroupInfo) (l : list ShardGroupInfo)
  : list ShardGroupInfo :=
  match l with
  | [] => [g]
  | h :: t => if Less h g then h :: insert_group g t else g :: l
  end.

Definition sort_Sort (l : list ShardGroupInfo) : list ShardGroupInfo :=
  foldr insert_group [] l.

(** The replication factor the shard group is built with. *)
Definition clamp_replicaN (replicaN : Z) (nodes : nat) : Z :=
  if replicaN =? 0 then 1
  else if replicaN >? Z.of_nat nodes then Z.of_nat nodes
  else replicaN.

(** The window [startTime, endTime) of the new group. *)
Definition new_window (MaxNanoTime : Z) (rpi : RetentionPolicyInfo)
    (timestamp : Time) : Time * Time :=
  let startTime := Truncate timestamp (ShardGroupDuration rpi) in
  let endTime := Add startTime (ShardGroupDuration rpi) in
  let endTime :=
    if After endTime (Unix0 MaxNanoTime) then Unix0 (MaxNanoTime + 1)
    else endTime in
  fold_left (shrink timestamp) (ShardGroups rpi) (startTime, endTime).

(** The shard group the call creates. *)
Definition new_group (data : Data) (replicaN shardN : Z) (w : Time * Time)
  : ShardGroupInfo * Z :=
  let '(shards, maxShardID) := new_shards (Z.to_nat shardN) (MaxShardID data) in
  let nodeIndex := Z.to_nat (Index data mod Z.of_nat (length (DataNodes data))) in
  let shards :=
    assign_owners (DataNodes data) (Z.to_nat replicaN) nodeIndex shards in
  (mkShardGroupInfo (U64.incr (MaxShardGroupID data)) (fst w) (snd w) 0 shards 0,
   maxShardID).

(** Writing a policy back at its position. *)
Definition put_policy (i j : nat) (rpi : RetentionPolicyInfo) (data : Data)
  : Data :=
  set_Databases
    (alter (λ di, set_RetentionPolicies (<[j := rpi]> (RetentionPolicies di)) di)
       i (Databases data))
    data.

(** [Data.CreateShardGroup]. [MaxNanoTime] is the constant of the points
    model, declared outside the repository's files at hand. The result is
    [None] only if the shard-count loop did not end within
    [len(data.DataNodes)] tests, which [CreateShardGroup_total] excludes. *)
Definition CreateShardGroup (MaxNanoTime : Z) (database policy : string)
    (timestamp : Time) (data : Data) : option (Data * option error) :=
  if (length (DataNodes data) =? 0)%nat then Some (data, None)
  else
    match RetentionPolicy_at data database policy with
    | inl err => Some (data, Some err)
    | inr None => Some (data, Some (ErrRetentionPolicyNotFound policy))
    | inr (Some (i, j, rpi)) =>
        match ShardGroupByTimestamp rpi timestamp with
        | Some _ => Some (data, None)
        | None =>
            let replicaN := clamp_replicaN (ReplicaN rpi) (length (DataNodes data)) in
            match shardN_loop (length (DataNodes data)) 1 replicaN
                    (Z.of_nat (length (DataNodes data))) with
            | None => None
            | Some shardN =>
                let w := new_window MaxNanoTime rpi timestamp in
                let '(sgi, maxShardID) := new_group data replicaN shardN w in
                let rpi1 :=
                  set_ShardGroups (sort_Sort (ShardGroups rpi ++ [sgi])) rpi in
                let data1 :=
                  mkData (Term data) (Index data) (ClusterID data) (MetaNodes data)
                    (DataNodes data) (Databases data) (Users data)
                    (adminUserExists data) (MaxNodeID data)
                    (U64.incr (MaxShardGroupID data)) maxShardID in
                Some (put_policy i j rpi1 data1, None)
            end
        end
    end.

(** *** Leases *)

Record Lease := mkLease {
  l_Name : string;
  Expiration : Time;
  Owner : Z
}.

Record Leases := mkLeases {
  m : gmap string Lease;
  d : GoTime.Duration
}.

(** [Leases.Acquire]. [now0] and [now1] are the first and the second
    reading of [time.Now()] the call makes; a call that creates the lease
    reads the clock once. The lease returned is the one the table holds
    after the call. *)
Definition Acquire (now0 now1 : Time) (name : string) (nodeID : Z)
    (leases : Leases) : Lease * option error * Leases :=
  match m leases !! name with
  | Some l =>
      if After now0 (Expiration l) || (Owner l =? nodeID)
      then
        let l1 := mkLease (l_Name l) (Add now1 (d leases)) nodeID in
        (l1, None, mkLeases (<[name := l1]> (m leases)) (d leases))
      else (l, Some (ErrNew "another node has the lease"), leases)
  | None =>
      let l := mkLease name (Add now0 (d leases)) nodeID in
      (l, None, mkLeases (<[name := l]> (m leases)) (d leases))
  end.

(** *** CopyShardOwner and RemoveShardOwner *)

(** The loops over databases, policies and shard groups that
    [CopyShardOwner] and [RemoveShardOwner] share with [DropShard]: they
    stop at the first group on which the body [f] returns. *)
Definition first_group (f : ShardGroupInfo → option ShardGroupInfo)
    (data : Data) : Data :=
  match
    first_update
      (λ db, (λ rps, set_RetentionPolicies rps db)
               <$> first_update
                     (λ rp, (λ gs, set_ShardGroups gs rp)
                              <$> first_update f (ShardGroups rp))
                     (RetentionPolicies db))
      (Databases data)
  with
  | Some dbs => set_Databases dbs data
  | None => data
  end.

(** [append(s[:i+1], s[i:]...)] followed by [s[i] = x]. *)
Definition insert_at {A} (i : nat) (x : A) (l : list A) : list A :=
  take i l ++ x :: drop i l.

(** The loop of [CopyShardOwner] over the owners of the shard: [None]
    when the node is an owner already and the method returns, otherwise
    [nodeIdx], the index of the first owner with a larger id, if any. *)
Fixpoint copy_scan (nodeID : Z) (i : nat) (owners : list ShardOwner)
    (nodeIdx : option nat) : option (option nat) :=
  match owners with
  | [] => Some nodeIdx
  | owner :: rest =>
      if NodeID owner =? nodeID then None
      else
        copy_scan nodeID (S i) rest
          (match nodeIdx with
           | None => if nodeID <? NodeID owner then Some i else None
           | Some _ => nodeIdx
           end)
  end.

(** The body of [CopyShardOwner] for one shard group. *)
Definition CopyShardOwner_group (id nodeID : Z) (sg : ShardGroupInfo)
  : option ShardGroupInfo :=
  match find_shard id (Shards sg) with
  | None => None
  | Some found =>
      match Shards sg !! found with
      | None => Some sg               (* [found] is an index of the slice *)
      | Some s =>
          match copy_scan nodeID 0 (Owners s) None with
          | None => Some sg
          | Some nodeIdx =>
              let owners :=
                match nodeIdx with
                | Some i => insert_at i (mkShardOwner nodeID) (Owners s)
                | None => Owners s ++ [mkShardOwner nodeID]
                end in
              Some (set_Shards (<[found := set_Owners owners s]> (Shards sg)) sg)
          end
      end
  end.

(** [Data.CopyShardOwner]. *)
Definition CopyShardOwner (id nodeID : Z) (data : Data) : Data :=
  first_group (CopyShardOwner_group id nodeID) data.

(** Index of the first owner of the slice whose node is [nodeID]. *)
Fixpoint find_owner (nodeID : Z) (owners : list ShardOwner) : option nat :=
  match owners with
  | [] => None
  | owner :: rest =>
      if NodeID owner =? nodeID then Some 0%nat
      else S <$> find_owner nodeID rest
  end.

(** The body of [RemoveShardOwner] for one shard group. The slice
    [shards] shares its array with the group in the store, so it sees the
    owners written back just before; its length is the one of the group. *)
Definition RemoveShardOwner_group (now : Time) (id nodeID : Z)
    (sg : ShardGroupInfo) : option ShardGroupInfo :=
  match find_shard id (Shards sg) with
  | None => None
  | Some found =>
      match Shards sg !! found with
      | None => Some sg               (* [found] is an index of the slice *)
      | Some s =>
          let '(owners, sg1) :=
            match find_owner nodeID (Owners s) with
            | Some nodeIdx =>
                let owners := remove_at nodeIdx (Owners s) in
                (owners,
                 set_Shards (<[found := set_Owners owners s]> (Shards sg)) sg)
            | None => (Owners s, sg)
            end in
          if (length owners =? 0)%nat then
            let shards := Shards sg1 in
            let sg2 := set_Shards (remove_at found shards) sg1 in
            Some (if (length shards =? 1)%nat then set_DeletedAt now sg2 else sg2)
          else Some sg1
      end
  end.

(** [Data.RemoveShardOwner]; [now] is the value of [time.Now()]. *)
Definition RemoveShardOwner (now : Time) (id nodeID : Z) (data : Data) : Data :=
  first_group (RemoveShardOwner_group now id nodeID) data.

(** *** TruncateShardGroups, PruneShardGroups, DeleteShardGroup *)

Definition set_TruncatedAt (t : Time) (g : ShardGroupInfo) : ShardGroupInfo :=
  mkShardGroupInfo (sgi_ID g) (StartTime g) (EndTime g) (DeletedAt g) (Shards g) t.

(** The loops over the databases and their policies, with the shard
    groups of every policy rewritten by [f]. *)
Definition each_policy (f : list ShardGroupInfo → list ShardGroupInfo)
    (data : Data) : Data :=
  set_Databases
    ((λ db, set_RetentionPolicies
              ((λ rp, set_ShardGroups (f (ShardGroups rp)) rp)
                 <$> RetentionPolicies db) db)
       <$> Databases data)
    data.

(** The body of [TruncateShardGroups] for one shard group. *)
Definition truncate_group (t : Time) (sgi : ShardGroupInfo) : ShardGroupInfo :=
  if negb (Before t (EndTime sgi)) || Deleted sgi
     || (Truncated sgi && Before (TruncatedAt sgi) t)
  then sgi
  else if negb (After t (StartTime sgi))
       then set_TruncatedAt (StartTime sgi) sgi
       else set_TruncatedAt t sgi.

(** [Data.TruncateShardGroups]. *)
Definition TruncateShardGroups (t : Time) (data : Data) : Data :=
  each_policy (fmap (truncate_group t)) data.

(** The test of [PruneShardGroups] under which a group remains. *)
Definition remains (expiration : Time) (sgi : ShardGroupInfo) : bool :=
  IsZero (DeletedAt sgi) || negb (After expiration (DeletedAt sgi)).

(** [Data.PruneShardGroups]; [now] is the value of [time.Now()]. The
    constant [ShardGroupDeletedExpiration] is declared in a file of the
    package that is not at hand; it is an argument. A policy that loses no
    group keeps its slice, which holds the same groups as the filtered
    one. *)
Definition PruneShardGroups (ShardGroupDeletedExpiration : GoTime.Duration)
    (now : Time) (data : Data) : Data :=
  let expiration := Add now ShardGroupDeletedExpiration in
  each_policy (List.filter (remains expiration)) data.

(** The error variables of the package that the methods below return. *)
Inductive sentinel : Type :=
| ErrShardGroupNotFound
| ErrRetentionPolicyRequired
| ErrRetentionPolicyNameRequired
| ErrNameTooLong
| ErrReplicationFactorTooLow
| ErrIncompatibleDurations
| ErrRetentionPolicyExists
| ErrRetentionPolicyConflict
| ErrRetentionPolicyNameExists
| ErrRetentionPolicyDurationTooLow.

(** [Data.DeleteShardGroup]; [now] is the value of [time.Now().UTC()]. *)
Definition DeleteShardGroup (now : Time) (database policy : string) (id : Z)
    (data : Data) : Data * option (error + sentinel) :=
  match RetentionPolicy_at data database policy with
  | inl err => (data, Some (inl err))
  | inr None => (data, Some (inl (ErrRetentionPolicyNotFound policy)))
  | inr (Some (i, j, rpi)) =>
      match list_find (λ g, sgi_ID g = id) (ShardGroups rpi) with
      | Some (k, g) =>
          (put_policy i j
             (set_ShardGroups (<[k := set_DeletedAt now g]> (ShardGroups rpi)) rpi)
             data,
           None)
      | None => (data, Some (inr ErrShardGroupNotFound))
      end
  end.

(** *** Retention policies *)

Definition MinRetentionPolicyDuration : GoTime.Duration := Hour.

Definition MaxNameLen : nat := 255.

(** [shardGroupDuration]. *)
Definition shardGroupDuration (d : GoTime.Duration) : GoTime.Duration :=
  if (d >=? 180 * 24 * Hour) || (d =? 0) then 7 * 24 * Hour
  else if d >=? 2 * 24 * Hour then 1 * 24 * Hour
  else 1 * Hour.

(** [normalisedShardDuration]. *)
Definition normalisedShardDuration (sgd d : GoTime.Duration) : GoTime.Duration :=
  if sgd =? 0 then shardGroupDuration d
  else if sgd <? MinRetentionPolicyDuration
       then shardGroupDuration MinRetentionPolicyDuration
       else sgd.

(** [Data.Database], with the index of the database. *)
Definition Database_at (data : Data) (name : string)
  : option (nat * DatabaseInfo) :=
  list_find (λ db, di_Name db = name) (Databases data).

(** [DatabaseInfo.RetentionPolicy], with the index of the policy. *)
Definition di_RetentionPolicy (di : DatabaseInfo) (name : string)
  : option (nat * RetentionPolicyInfo) :=
  if bool_decide (name = "") then
    if bool_decide (DefaultRetentionPolicy di = "") then None
    else list_find (λ rp, rpi_Name rp = DefaultRetentionPolicy di)
           (RetentionPolicies di)
  else list_find (λ rp, rpi_Name rp = name) (RetentionPolicies di).

Definition set_ShardGroupDuration (d : GoTime.Duration) (rp : RetentionPolicyInfo)
  : RetentionPolicyInfo :=
  mkRetentionPolicyInfo (rpi_Name rp) (ReplicaN rp) (Duration rp) d
    (ShardGroups rp) (Subscriptions rp).

(** [Data.CreateRetentionPolicy]; [rpi] is [None] for a nil pointer. The
    call also writes the normalised shard group duration into the
    caller's [rpi], which is not part of the store. *)
Definition CreateRetentionPolicy (database : string)
    (rpi : option RetentionPolicyInfo) (makeDefault : bool) (data : Data)
  : Data * option (error + sentinel) :=
  match rpi with
  | None => (data, Some (inr ErrRetentionPolicyRequired))
  | Some rpi =>
      if bool_decide (rpi_Name rpi = "")
      then (data, Some (inr ErrRetentionPolicyNameRequired))
      else if (MaxNameLen <? String.length (rpi_Name rpi))%nat
      then (data, Some (inr ErrNameTooLong))
      else if ReplicaN rpi <? 1
      then (data, Some (inr ErrReplicationFactorTooLow))
      else
        let rpi :=
          set_ShardGroupDuration
            (normalisedShardDuration (ShardGroupDuration rpi) (Duration rpi)) rpi in
        if (Duration rpi >? 0) && (Duration rpi <? ShardGroupDuration rpi)
        then (data, Some (inr ErrIncompatibleDurations))
        else
          match Database_at data database with
          | None => (data, Some (inl (ErrDatabaseNotFound database)))
          | Some (i, di) =>
              match di_RetentionPolicy di (rpi_Name rpi) with
              | Some (_, rp) =>
                  if negb (ReplicaN rp =? ReplicaN rpi)
                     || negb (Duration rp =? Duration rpi)
                     || negb (ShardGroupDuration rp =? ShardGroupDuration rpi)
                  then (data, Some (inr ErrRetentionPolicyExists))
                  else if makeDefault
                          && negb (bool_decide
                                     (DefaultRetentionPolicy di = rpi_Name rpi))
                  then (data, Some (inr ErrRetentionPolicyConflict))
                  else (data, None)
              | None =>
                  let di1 :=
                    mkDatabaseInfo (di_Name di)
                      (if makeDefault then rpi_Name rpi
                       else DefaultRetentionPolicy di)
                      (RetentionPolicies di ++ [rpi]) (ContinuousQueries di) in
                  (set_Databases (<[i := di1]> (Databases data)) data, None)
              end
          end
  end.

(** [RetentionPolicyUpdate]: a field is [None] for a nil pointer. *)
Record RetentionPolicyUpdate := mkRetentionPolicyUpdate {
  rpu_Name : option string;
  rpu_Duration : option GoTime.Duration;
  rpu_ReplicaN : option Z;
  rpu_ShardGroupDuration : option GoTime.Duration
}.

(** [Data.UpdateRetentionPolicy]. *)
Definition UpdateRetentionPolicy (database name : string)
    (rpu : RetentionPolicyUpdate) (makeDefault : bool) (data : Data)
  : Data * option (error + sentinel) :=
  match Database_at data database with
  | None => (data, Some (inl (ErrDatabaseNotFound database)))
  | Some (i, di) =>
      match di_RetentionPolicy di name with
      | None => (data, Some (inl (ErrRetentionPolicyNotFound name)))
      | Some (j, rpi) =>
          if match rpu_Name rpu with
             | Some n =>
                 negb (bool_decide (n = name))
                 && bool_decide (is_Some (di_RetentionPolicy di n))
             | None => false
             end
          then (data, Some (inr ErrRetentionPolicyNameExists))
          else if match rpu_Duration rpu with
                  | Some d => (d <? MinRetentionPolicyDuration) && negb (d =? 0)
                  | None => false
                  end
          then (data, Some (inr ErrRetentionPolicyDurationTooLow))
          else if match rpu_Duration rpu with
                  | Some d =>
                      (d >? 0)
                      && match rpu_ShardGroupDuration rpu with
                         | Some sgd => d <? sgd
                         | None => d <? ShardGroupDuration rpi
                         end
                  | None =>
                      (Duration rpi >? 0)
                      && match rpu_ShardGroupDuration rpu with
                         | Some sgd => Duration rpi <? sgd
                         | None => false
                         end
                  end
          then (data, Some (inr ErrIncompatibleDurations))
          else
            let name1 := default (rpi_Name rpi) (rpu_Name rpu) in
            let duration1 := default (Duration rpi) (rpu_Duration rpu) in
            let replicaN1 := default (ReplicaN rpi) (rpu_ReplicaN rpu) in
            let sgd1 :=
              match rpu_ShardGroupDuration rpu with
              | Some sgd => normalisedShardDuration sgd duration1
              | None => ShardGroupDuration rpi
              end in
            let rpi1 :=
              mkRetentionPolicyInfo name1 replicaN1 duration1 sgd1
                (ShardGroups rpi) (Subscriptions rpi) in
            let default1 :=
              if negb (bool_decide (DefaultRetentionPolicy di = name1)) && makeDefault
              then name1 else DefaultRetentionPolicy di in
            let di1 :=
              mkDatabaseInfo (di_Name di) default1
                (<[j := rpi1]> (RetentionPolicies di)) (ContinuousQueries di) in
            (set_Databases (<[i := di1]> (Databases data)) data, None)
      end
  end.

End Meta.

(** ** Go's [sort.Search] *)

Lemma mid_bounds (i j : nat) : (i < j)%nat → (i ≤ Nat.div2 (i + j) < j)%nat.
Proof.
  intros H. rewrite Nat.div2_div. split.
  - apply Nat.div_le_lower_bound; lia.
  - apply Nat.Div0.div_lt_upper_bound; lia.
Qed.

(** The loop of [sort.Search]: [h := int(uint(i+j) >> 1)], then [i = h + 1]
    when [f(h)] is false and [j = h] otherwise, while [i < j]. *)
Equations Search_loop (f : nat → bool) (i j : nat) : nat by wf (j - i)%nat lt :=
Search_loop f i j with decide (i < j)%nat := {
  | left _ =>
      if f (Nat.div2 (i + j)) then Search_loop f i (Nat.div2 (i + j))
      else Search_loop f (S (Nat.div2 (i + j))) j
  | right _ => i }.
Next Obligation. intros. pose proof (mid_bounds i j l). lia. Qed.
Next Obligation. intros. pose proof (mid_bounds i j l). lia. Qed.

Definition Search (n : nat) (f : nat → bool) : nat := Search_loop f 0 n.

(** ** The points writer *)

Module Coordinator.
Import GoTime.

Inductive ConsistencyLevel : Type :=
| ConsistencyLevelAny
| ConsistencyLevelOne
| ConsistencyLevelQuorum
| ConsistencyLevelAll.

(** The reason carried by a [tsdb.PartialWriteError]. *)
Inductive reason : Type :=
| ReasonShardPendingDeletion (shardID : Z)   (* "shard %d is pending deletion" *)
| ReasonBeyondRetentionPolicy.               (* "points beyond retention policy" *)

(** The error values the write path handles. The first five are made by
    this package; the others are declared by the packages [influxdb],
    [tsdb] and [hh] or come from a collaborator. *)
Inductive error : Type :=
| ErrTimeout
| ErrPartialWrite
| ErrWriteFailed
| ErrNilShardGroup                        (* errors.New("nil shard group") *)
| ErrorfWriteFailed (e : error)           (* fmt.Errorf("write failed: %v", e) *)
| ErrDatabaseNotFound (name : string)
| ErrRetentionPolicyNotFound (name : string)
| ErrShardNotFound
| ErrShardDeletion
| PartialWriteError (Reason : reason) (Dropped : nat)
| ErrQueueBlocked
| ErrHintedHandoffQueueNotEmpty
| ErrOther (msg : string).

(** [err.Error()]. The texts of the errors declared outside this package
    are given by [foreign]. *)
Fixpoint Error (foreign : error → string) (e : error) : string :=
  match e with
  | ErrTimeout => "timeout"
  | ErrPartialWrite => "partial write"
  | ErrWriteFailed => "write failed"
  | ErrNilShardGroup => "nil shard group"
  | ErrorfWriteFailed e' => "write failed: " +:+ Error foreign e'
  | ErrOther msg => msg
  | _ => foreign e
  end.

Record Point := mkPoint {
  p_Time : Time;
  p_HashID : Z
}.

Record WritePointsRequest := mkWritePointsRequest {
  wp_Database : string;
  wp_RetentionPolicy : string;
  wp_Points : list Point
}.

Record WriteStatistics := mkWriteStatistics {
  WriteReq : Z;
  PointWriteReq : Z;
  PointWriteReqLocal : Z;
  PointWriteReqRemote : Z;
  PointWriteReqHH : Z;
  WriteOK : Z;
  WritePartial : Z;
  WriteDropped : Z;
  WriteTimeout : Z;
  WriteErr : Z;
  SubWriteOK : Z;
  SubWriteDrop : Z
}.

(** [atomic.AddInt64] on each counter. *)
Definition add_WriteReq (n : Z) (s : WriteStatistics) : WriteStatistics :=
  mkWriteStatistics (WriteReq s + n) (PointWriteReq s) (PointWriteReqLocal s)
    (PointWriteReqRemote s) (PointWriteReqHH s) (WriteOK s) (WritePartial s)
    (WriteDropped s) (WriteTimeout s) (WriteErr s) (SubWriteOK s) (SubWriteDrop s).
Definition add_PointWriteReq (n : Z) (s : WriteStatistics) : WriteStatistics :=
  mkWriteStatistics (WriteReq s) (PointWriteReq s + n) (PointWriteReqLocal s)
    (PointWriteReqRemote s) (PointWriteReqHH s) (WriteOK s) (WritePartial s)
    (WriteDropped s) (WriteTimeout s) (WriteErr s) (SubWriteOK s) (SubWriteDrop s).
Definition add_PointWriteReqLocal (n : Z) (s : WriteStatistics) : WriteStatistics :=
  mkWriteStatistics (WriteReq s) (PointWriteReq s) (PointWriteReqLocal s + n)
    (PointWriteReqRemote s) (PointWriteReqHH s) (WriteOK s) (WritePartial s)
    (WriteDropped s) (WriteTimeout s) (WriteErr s) (SubWriteOK s) (SubWriteDrop s).
Definition add_PointWriteReqRemote (n : Z) (s : WriteStatistics) : WriteStatistics :=
  mkWriteStatistics (WriteReq s) (PointWriteReq s) (PointWriteReqLocal s)
    (PointWriteReqRemote s + n) (PointWriteReqHH s) (WriteOK s) (WritePartial s)
    (WriteDropped s) (WriteTimeout s) (WriteErr s) (SubWriteOK s) (SubWriteDrop s).
Definition add_PointWriteReqHH (n : Z) (s : WriteStatistics) : WriteStatistics :=
  mkWriteStatistics (WriteReq s) (PointWriteReq s) (PointWriteReqLocal s)
    (PointWriteReqRemote s) (PointWriteReqHH s + n) (WriteOK s) (WritePartial s)
    (WriteDropped s) (WriteTimeout s) (WriteErr s) (SubWriteOK s) (SubWriteDrop s).
Definition add_WriteOK (n : Z) (s : WriteStatistics) : WriteStatistics :=
  mkWriteStatistics (WriteReq s) (PointWriteReq s) (PointWriteReqLocal s)
    (PointWriteReqRemote s) (PointWriteReqHH s) (WriteOK s + n) (WritePartial s)
    (WriteDropped s) (WriteTimeout s) (WriteErr s) (SubWriteOK s) (SubWriteDrop s).
Definition add_WritePartial (n : Z) (s : WriteStatistics) : WriteStatistics :=
  mkWriteStatistics (WriteReq s) (PointWriteReq s) (PointWriteReqLocal s)
    (PointWriteReqRemote s) (PointWriteReqHH s) (WriteOK s) (WritePartial s + n)
    (WriteDropped s) (WriteTimeout s) (WriteErr s) (SubWriteOK s) (SubWriteDrop s).
Definition add_WriteDropped (n : Z) (s : WriteStatistics) : WriteStatistics :=
  mkWriteStatistics (WriteReq s) (PointWriteReq s) (PointWriteReqLocal s)
    (PointWriteReqRemote s) (PointWriteReqHH s) (WriteOK s) (WritePartial s)
    (WriteDropped s + n) (WriteTimeout s) (WriteErr s) (SubWriteOK s) (SubWriteDrop s).
Definition add_WriteTimeout (n : Z) (s : WriteStatistics) : WriteStatistics :=
  mkWriteStatistics (WriteReq s) (PointWriteReq s) (PointWriteReqLocal s)
    (PointWriteReqRemote s) (PointWriteReqHH s) (WriteOK s) (WritePartial s)
    (WriteDropped s) (WriteTimeout s + n) (WriteErr s) (SubWriteOK s) (SubWriteDrop s).
Definition add_WriteErr (n : Z) (s : WriteStatistics) : WriteStatistics :=
  mkWriteStatistics (WriteReq s) (PointWriteReq s) (PointWriteReqLocal s)
    (PointWriteReqRemote s) (PointWriteReqHH s) (WriteOK s) (WritePartial s)
    (WriteDropped s) (WriteTimeout s) (WriteErr s + n) (SubWriteOK s) (SubWriteDrop s).
Definition add_SubWriteOK (n : Z) (s : WriteStatistics) : WriteStatistics :=
  mkWriteStatistics (WriteReq s) (PointWriteReq s) (PointWriteReqLocal s)
    (PointWriteReqRemote s) (PointWriteReqHH s) (WriteOK s) (WritePartial s)
    (WriteDropped s) (WriteTimeout s) (WriteErr s) (SubWriteOK s + n) (SubWriteDrop s).
Definition add_SubWriteDrop (n : Z) (s : WriteStatistics) : WriteStatistics :=
  mkWriteStatistics (WriteReq s) (PointWriteReq s) (PointWriteReqLocal s)
    (PointWriteReqRemote s) (PointWriteReqHH s) (WriteOK s) (WritePartial s)
    (WriteDropped s) (WriteTimeout s) (WriteErr s) (SubWriteOK s) (SubWriteDrop s + n).

(** *** Collaborators

    The interfaces the writer consumes, over a state [W] of everything
    outside the writer. A call returns its result and the state it leaves. *)
Record Collaborators (W : Type) := mkCollaborators {
  mc_NodeID : W → Z;
  mc_Database : string → W → option Meta.DatabaseInfo;
  mc_RetentionPolicy :
    string → string → W → error + option Meta.RetentionPolicyInfo;
  mc_CreateShardGroup :
    string → string → Time → W → (error + option Meta.ShardGroupInfo) * W;
  tsdb_CreateShard : string → string → Z → bool → W → option error * W;
  tsdb_WriteToShard : Z → list Point → W → option error * W;
  sw_WriteShard : Z → Z → list Point → W → option error * W;
  hh_WriteShard : Z → Z → list Point → W → option error * W;
  hh_Empty : Z → Z → W → bool;
  hh_IsRetryable : error → bool
}.
Arguments mc_NodeID {W}.
Arguments mc_Database {W}.
Arguments mc_RetentionPolicy {W}.
Arguments mc_CreateShardGroup {W}.
Arguments tsdb_CreateShard {W}.
Arguments tsdb_WriteToShard {W}.
Arguments sw_WriteShard {W}.
Arguments hh_WriteShard {W}.
Arguments hh_Empty {W}.
Arguments hh_IsRetryable {W}.

(** *** sgList *)

Record sgList := mksgList {
  items : list Meta.ShardGroupInfo;
  needsSort : bool;
  earliest : Time;
  latest : Time
}.

(** The linear search of the fallback. *)
Definition linear_search (its : list Meta.ShardGroupInfo) (t : Time)
  : option Meta.ShardGroupInfo :=
  List.find (λ g, Meta.Contains g t) its.

(** The fallback taken when the binary search did not settle on a group. *)
Definition fallback (l : sgList) (its : list Meta.ShardGroupInfo) (t : Time)
  : option Meta.ShardGroupInfo :=
  if Before t (earliest l) || After t (latest l) then None
  else linear_search its t.

(** The slice after the sort [ShardGroupAt] runs when the list is dirty. *)
Definition sorted_items (l : sgList) : list Meta.ShardGroupInfo :=
  if needsSort l then Meta.sort_Sort (items l) else items l.

(** The closure handed to [sort.Search]. *)
Definition end_after (its : list Meta.ShardGroupInfo) (t : Time) (i : nat) : bool :=
  match its !! i with
  | Some g => After (Meta.EndTime g) t
  | None => false
  end.

(** [sgList.ShardGroupAt]. The method has a value receiver: the sort
    reorders the slice the caller shares, the flag is reset in the copy
    only. The second component is the caller's list after the call. *)
Definition ShardGroupAt (l : sgList) (t : Time)
  : option Meta.ShardGroupInfo * sgList :=
  if (length (items l) =? 0)%nat then (None, l)
  else
    let its := sorted_items l in
    let l1 := mksgList its (needsSort l) (earliest l) (latest l) in
    let idx := Search (length its) (end_after its t) in
    match its !! idx with
    | None => (fallback l its t, l1)
    | Some g =>
        if Before t (Meta.StartTime g) then (fallback l its t, l1)
        else (Some g, l1)
    end.

(** [sgList.Covers]. *)
Definition Covers (l : sgList) (t : Time) : bool * sgList :=
  if (length (items l) =? 0)%nat then (false, l)
  else let '(sg, l1) := ShardGroupAt l t in (bool_decide (sg ≠ None), l1).

(** [sgList.Add]. *)
Definition Add_group (l : sgList) (sgi : Meta.ShardGroupInfo) : sgList :=
  let earliest1 :=
    if IsZero (earliest l) || After (earliest l) (Meta.StartTime sgi)
    then Meta.StartTime sgi else earliest l in
  let latest1 :=
    if IsZero (latest l) || Before (latest l) (Meta.EndTime sgi)
    then Meta.EndTime sgi else latest l in
  mksgList (items l ++ [sgi]) true earliest1 latest1.

(** *** ShardMapping *)

Record ShardMapping := mkShardMapping {
  sm_n : nat;
  sm_Points : gmap Z (list Point);
  sm_Shards : gmap Z Meta.ShardInfo;
  sm_Dropped : list Point
}.

Definition NewShardMapping (n : nat) : ShardMapping := mkShardMapping n ∅ ∅ [].

(** [ShardMapping.MapPoint]. *)
Definition MapPoint (shardInfo : Meta.ShardInfo) (p : Point) (s : ShardMapping)
  : ShardMapping :=
  mkShardMapping (sm_n s)
    (<[Meta.si_ID shardInfo := default [] (sm_Points s !! Meta.si_ID shardInfo) ++ [p]]>
       (sm_Points s))
    (<[Meta.si_ID shardInfo := shardInfo]> (sm_Shards s))
    (sm_Dropped s).

(** [ShardGroupInfo.ShardFor]; [None] is the run-time panic of indexing a
    group without shards. *)
Definition ShardFor (sgi : Meta.ShardGroupInfo) (p : Point) : option Meta.ShardInfo :=
  if (length (Meta.Shards sgi) =? 1)%nat then Meta.Shards sgi !! 0%nat
  else if (length (Meta.Shards sgi) =? 0)%nat then None
  else Meta.Shards sgi !! Z.to_nat (p_HashID p mod Z.of_nat (length (Meta.Shards sgi))).

(** What a call leaves: a value, an error, or a run-time panic. *)
Inductive outcome (A : Type) : Type :=
| Returns (a : A)
| Fails (e : error)
| Panics.
Arguments Returns {A}.
Arguments Fails {A}.
Arguments Panics {A}.

(** The result an owner goroutine sends on the channel. *)
Record AsyncWriteResult := mkAsyncWriteResult {
  Owner : Meta.ShardOwner;
  Err : option error
}.

(** What a [select] of the collecting loops receives. *)
Inductive select_event (A : Type) : Type :=
| EvClosing
| EvTimeout
| EvResult (r : A).
Arguments EvClosing {A}.
Arguments EvTimeout {A}.
Arguments EvResult {A}.

(** The state of a subscriber channel when the writer tries to send. *)
Inductive chan_state : Type :=
| ChanReady                 (* the send goes through *)
| ChanFull                  (* the send would block *)
| ChanNil.                  (* a nil channel: the send blocks for ever *)

Section Writer.
Context {W : Type}.
Variable c : Collaborators W.
Variable foreign : error → string.
Variable MinNanoTime : Z.
Variable AllowOutOfOrderWrites : bool.

(** *** MapShards *)

(** The first loop: a shard group is created for every point inside the
    retention period that the list does not cover yet. *)
Fixpoint create_groups (database retentionPolicy : string) (min : Time)
    (points : list Point) (list : sgList) (w : W) : outcome sgList * W :=
  match points with
  | [] => (Returns list, w)
  | p :: rest =>
      if Before (p_Time p) min
      then create_groups database retentionPolicy min rest list w
      else
        let '(covered, list1) := Covers list (p_Time p) in
        if covered
        then create_groups database retentionPolicy min rest list1 w
        else
          match mc_CreateShardGroup c database retentionPolicy (p_Time p) w with
          | (inl err, w1) => (Fails err, w1)
          | (inr None, w1) => (Fails ErrNilShardGroup, w1)
          | (inr (Some sg), w1) =>
              create_groups database retentionPolicy min rest (Add_group list1 sg) w1
          end
  end.

(** The second loop: every point goes to the shard of its group, or to
    [Dropped] when the list has no group for it. *)
Fixpoint map_points (points : list Point) (list : sgList)
    (mapping : ShardMapping) (stats : WriteStatistics)
  : outcome ShardMapping * WriteStatistics :=
  match points with
  | [] => (Returns mapping, stats)
  | p :: rest =>
      match ShardGroupAt list (p_Time p) with
      | (None, list1) =>
          map_points rest list1
            (mkShardMapping (sm_n mapping) (sm_Points mapping) (sm_Shards mapping)
               (sm_Dropped mapping ++ [p]))
            (add_WriteDropped 1 stats)
      | (Some sg, list1) =>
          match ShardFor sg p with
          | None => (Panics, stats)
          | Some sh => map_points rest list1 (MapPoint sh p mapping) stats
          end
      end
  end.

(** The lower bound of the retention period. *)
Definition retention_min (now : Time) (rp : Meta.RetentionPolicyInfo) : Time :=
  if Meta.Duration rp >? 0 then Add now (- Meta.Duration rp)
  else Unix0 MinNanoTime.

(** [PointsWriter.MapShards]; [now] is the value of [time.Now()]. *)
Definition MapShards (now : Time) (wp : WritePointsRequest)
    (st : WriteStatistics * W) : outcome ShardMapping * (WriteStatistics * W) :=
  let '(stats, w) := st in
  match mc_RetentionPolicy c (wp_Database wp) (wp_RetentionPolicy wp) w with
  | inl err => (Fails err, st)
  | inr None => (Fails (ErrRetentionPolicyNotFound (wp_RetentionPolicy wp)), st)
  | inr (Some rp) =>
      let min := retention_min now rp in
      match create_groups (wp_Database wp) (wp_RetentionPolicy wp) min
              (wp_Points wp) (mksgList [] false 0 0) w with
      | (Returns list, w1) =>
          let '(r, stats1) :=
            map_points (wp_Points wp) list
              (NewShardMapping (length (wp_Points wp))) stats in
          (r, (stats1, w1))
      | (Fails err, w1) => (Fails err, (stats, w1))
      | (Panics, w1) => (Panics, (stats, w1))
      end
  end.

(** *** writeToShard *)

(** The goroutine started for one owner of the shard. *)
Definition owner_write (database retentionPolicy : string)
    (consistency : ConsistencyLevel) (shardID : Z) (owner : Meta.ShardOwner)
    (points : list Point) (st : WriteStatistics * W)
  : AsyncWriteResult * (WriteStatistics * W) :=
  let '(stats, w) := st in
  let n := Z.of_nat (length points) in
  if mc_NodeID c w =? Meta.NodeID owner then
    let stats := add_PointWriteReqLocal n stats in
    let '(err, w) := tsdb_WriteToShard c shardID points w in
    match err with
    | Some ErrShardNotFound =>
        let '(err, w) := tsdb_CreateShard c database retentionPolicy shardID true w in
        match err with
        | Some e => (mkAsyncWriteResult owner (Some e), (stats, w))
        | None =>
            let '(err, w) := tsdb_WriteToShard c shardID points w in
            (mkAsyncWriteResult owner err, (stats, w))
        end
    | _ => (mkAsyncWriteResult owner err, (stats, w))
    end
  else if negb AllowOutOfOrderWrites && negb (hh_Empty c shardID (Meta.NodeID owner) w) then
    let stats := add_PointWriteReqHH n stats in
    let '(hherr, w) := hh_WriteShard c shardID (Meta.NodeID owner) points w in
    match hherr with
    | Some e => (mkAsyncWriteResult owner (Some e), (stats, w))
    | None => (mkAsyncWriteResult owner (Some ErrHintedHandoffQueueNotEmpty), (stats, w))
    end
  else
    let stats := add_PointWriteReqRemote n stats in
    let '(err, w) := sw_WriteShard c shardID (Meta.NodeID owner) points w in
    match err with
    | Some e =>
        if hh_IsRetryable c e then
          let stats := add_PointWriteReqHH n stats in
          let '(hherr, w) := hh_WriteShard c shardID (Meta.NodeID owner) points w in
          match hherr with
          | Some he => (mkAsyncWriteResult owner (Some he), (stats, w))
          | None =>
              match consistency with
              | ConsistencyLevelAny => (mkAsyncWriteResult owner None, (stats, w))
              | _ => (mkAsyncWriteResult owner (Some e), (stats, w))
              end
          end
        else (mkAsyncWriteResult owner (Some e), (stats, w))
    | None => (mkAsyncWriteResult owner None, (stats, w))
    end.

(** The number of acknowledgments the consistency level asks for. *)
Definition required_acks (consistency : ConsistencyLevel) (owners : nat) : Z :=
  match consistency with
  | ConsistencyLevelAny | ConsistencyLevelOne => 1
  | ConsistencyLevelQuorum => Z.quot (Z.of_nat owners) 2 + 1
  | ConsistencyLevelAll => Z.of_nat owners
  end.

(** [result.Err.Error() == hh.ErrQueueBlocked.Error()]. *)
Definition is_queue_blocked (e : error) : bool :=
  bool_decide (Error foreign e = Error foreign ErrQueueBlocked).

(** What follows the loop over the owners. *)
Definition after_owners (wrote : Z) (writeError : option error)
    (stats : WriteStatistics) : option error * WriteStatistics :=
  if wrote >? 0 then (Some ErrPartialWrite, add_WritePartial 1 stats)
  else
    match writeError with
    | Some e => (Some (ErrorfWriteFailed e), stats)
    | None => (Some ErrWriteFailed, stats)
    end.

(** The loop [for range shard.Owners] with its [select]: [n] iterations are
    left, [events i] is what the [i]-th [select] of the call receives. *)
Fixpoint collect (events : nat → select_event AsyncWriteResult) (required : Z)
    (n i : nat) (wrote : Z) (writeError : option error)
    (stats : WriteStatistics) : option error * WriteStatistics :=
  match n with
  | O => after_owners wrote writeError stats
  | S n' =>
      match events i with
      | EvClosing => (Some ErrWriteFailed, stats)
      | EvTimeout => (Some ErrTimeout, add_WriteTimeout 1 stats)
      | EvResult result =>
          match Err result with
          | Some e =>
              let stats := add_WriteErr 1 stats in
              if is_queue_blocked e
              then collect events required n' (S i) wrote writeError stats
              else
                collect events required n' (S i) wrote
                  (match writeError with None => Some e | Some _ => writeError end)
                  stats
          | None =>
              let wrote := wrote + 1 in
              if wrote >=? required then (None, add_WriteOK 1 stats)
              else collect events required n' (S i) wrote writeError stats
          end
      end
  end.

(** The owner goroutines, run one after the other in the order of the
    owners; each returns the result it sends on the channel. *)
Fixpoint run_owners (database retentionPolicy : string)
    (consistency : ConsistencyLevel) (shardID : Z) (owners : list Meta.ShardOwner)
    (points : list Point) (st : WriteStatistics * W)
  : list AsyncWriteResult * (WriteStatistics * W) :=
  match owners with
  | [] => ([], st)
  | owner :: rest =>
      let '(r, st1) :=
        owner_write database retentionPolicy consistency shardID owner points st in
      let '(rs, st2) :=
        run_owners database retentionPolicy consistency shardID rest points st1 in
      (r :: rs, st2)
  end.

(** [PointsWriter.writeToShardWithContext]. [sched] is the scheduler: from
    the results the owner goroutines send it gives what each [select]
    receives (a result, the closing signal or the timer). *)
Definition writeToShardWithContext
    (sched : list AsyncWriteResult → nat → select_event AsyncWriteResult)
    (shard : Meta.ShardInfo) (database retentionPolicy : string)
    (consistency : ConsistencyLevel) (points : list Point)
    (st : WriteStatistics * W) : option error * (WriteStatistics * W) :=
  let required := required_acks consistency (length (Meta.Owners shard)) in
  let '(results, (stats, w)) :=
    run_owners database retentionPolicy consistency (Meta.si_ID shard)
      (Meta.Owners shard) points st in
  let '(err, stats) :=
    collect (sched results) required (length (Meta.Owners shard)) 0%nat 0 None stats in
  (err, (stats, w)).

(** *** WritePoints *)

(** The loop over [w.subPoints]: the counts [ok] and [dropped]. *)
Fixpoint send_to_subscribers (subPoints : list chan_state) (ok dropped : Z) : Z * Z :=
  match subPoints with
  | [] => (ok, dropped)
  | ChanReady :: rest => send_to_subscribers rest (ok + 1) dropped
  | _ :: rest => send_to_subscribers rest ok (dropped + 1)
  end.

Definition publish (subPoints : list chan_state) (stats : WriteStatistics)
  : WriteStatistics :=
  let '(ok, dropped) := send_to_subscribers subPoints 0 0 in
  let stats := if ok >? 0 then add_SubWriteOK ok stats else stats in
  if dropped >? 0 then add_SubWriteDrop dropped stats else stats.

(** The goroutine started for one shard. *)
Definition shard_write
    (sched : list AsyncWriteResult → nat → select_event AsyncWriteResult)
    (shard : Meta.ShardInfo) (database retentionPolicy : string)
    (consistency : ConsistencyLevel) (points : list Point)
    (st : WriteStatistics * W) : option error * (WriteStatistics * W) :=
  let '(err, st1) :=
    writeToShardWithContext sched shard database retentionPolicy consistency points st in
  match err with
  | Some ErrShardDeletion =>
      (Some (PartialWriteError (ReasonShardPendingDeletion (Meta.si_ID shard))
               (length points)), st1)
  | _ => (err, st1)
  end.

(** The loop [for range shardMappings.Points] with its [select]. *)
Fixpoint await_shards (events : nat → select_event (option error)) (n i : nat)
    (err : option error) (stats : WriteStatistics)
  : option error * WriteStatistics :=
  match n with
  | O => (err, stats)
  | S n' =>
      match events i with
      | EvClosing => (Some ErrWriteFailed, stats)
      | EvTimeout => (Some ErrTimeout, add_WriteTimeout 1 stats)
      | EvResult (Some e) => (Some e, stats)
      | EvResult None => await_shards events n' (S i) err stats
      end
  end.

(** The shard goroutines, run one after the other in the order [shards]
    of the [range] over [Points]. The goroutine of a shard ID that has no
    entry in [Shards] is started with a nil [*ShardInfo]; its call of
    [writeToShardWithContext] dereferences it and panics. *)
Fixpoint run_shards
    (sched : list AsyncWriteResult → nat → select_event AsyncWriteResult)
    (database retentionPolicy : string) (consistency : ConsistencyLevel)
    (mapping : ShardMapping) (shards : list (Z * list Point))
    (st : WriteStatistics * W)
  : outcome (list (option error)) * (WriteStatistics * W) :=
  match shards with
  | [] => (Returns [], st)
  | (shardID, points) :: rest =>
      match sm_Shards mapping !! shardID with
      | None => (Panics, st)
      | Some shard =>
          let '(r, st1) :=
            shard_write sched shard database retentionPolicy consistency points st in
          match run_shards sched database retentionPolicy consistency mapping rest st1 with
          | (Returns rs, st2) => (Returns (r :: rs), st2)
          | (Fails e, st2) => (Fails e, st2)
          | (Panics, st2) => (Panics, st2)
          end
      end
  end.

(** The part of [WritePointsPrivilegedWithContext] after the shard
    goroutines are started: the subscribers, the partial-write error for
    the dropped points, and the wait for the shards. *)
Definition finish_write (subPoints : list chan_state)
    (events : nat → select_event (option error)) (mapping : ShardMapping)
    (stats : WriteStatistics) : option error * WriteStatistics :=
  let stats := publish subPoints stats in
  let err :=
    if (0 <? length (sm_Dropped mapping))%nat
    then Some (PartialWriteError ReasonBeyondRetentionPolicy (length (sm_Dropped mapping)))
    else None in
  await_shards events (size (sm_Points mapping)) 0%nat err stats.

(** [PointsWriter.WritePointsPrivilegedWithContext]. [order] is the order
    in which the [range] over the mapped shards visits them, [sched]
    schedules the owner results of a shard and [sched_shards] the shard
    results. *)
Definition WritePointsPrivilegedWithContext (now : Time)
    (order : gmap Z (list Point) → list (Z * list Point))
    (sched : list AsyncWriteResult → nat → select_event AsyncWriteResult)
    (sched_shards : list (option error) → nat → select_event (option error))
    (subPoints : list chan_state)
    (database retentionPolicy : string) (consistencyLevel : ConsistencyLevel)
    (points : list Point) (st : WriteStatistics * W)
  : outcome unit * (WriteStatistics * W) :=
  let '(stats, w) := st in
  let stats := add_WriteReq 1 stats in
  let stats := add_PointWriteReq (Z.of_nat (length points)) stats in
  let policy :=
    if bool_decide (retentionPolicy = "") then
      match mc_Database c database w with
      | None => inl (ErrDatabaseNotFound database)
      | Some db => inr (Meta.DefaultRetentionPolicy db)
      end
    else inr retentionPolicy in
  match policy with
  | inl err => (Fails err, (stats, w))
  | inr retentionPolicy =>
      match MapShards now (mkWritePointsRequest database retentionPolicy points)
              (stats, w) with
      | (Fails err, st1) => (Fails err, st1)
      | (Panics, st1) => (Panics, st1)
      | (Returns shardMappings, st1) =>
          match
            run_shards sched database retentionPolicy consistencyLevel shardMappings
              (order (sm_Points shardMappings)) st1
          with
          | (Returns results, (stats, w)) =>
              let '(err, stats) :=
                finish_write subPoints (sched_shards results) shardMappings stats in
              (match err with Some e => Fails e | None => Returns () end, (stats, w))
          | (Fails err, st2) => (Fails err, st2)
          | (Panics, st2) => (Panics, st2)
          end
      end
  end.

End Writer.

End Coordinator.

(** ** Vocabulary of the statements on the metadata store *)

Module MetaSpec.
Import GoTime Meta.

(** The condition under which [Acquire] grants the lease. *)
Definition grantable (now0 : Time) (name : string) (nodeID : Z)
    (leases : Leases) : Prop :=
  match m leases !! name with
  | None => True
  | Some l => Expiration l < now0 ∨ Owner l = nodeID
  end.


(** The owner entries node [n] has in a slice of shards. *)
Definition owner_slots (n : Z) (shards : list ShardInfo) : nat :=
  length (filter (λ o, NodeID o = n) (shards ≫= Owners)).

(** [c] more occurrences counted on an entry of a frequency map. *)
Definition add_count (c : nat) (v : option Z) : option Z :=
  match c with
  | O => v
  | S _ => Some (default 0 v + Z.of_nat c)
  end.

(** The shard has no owner other than node [id]. *)
Definition orphaned_by (id : Z) (s : ShardInfo) : Prop :=
  Forall (λ o, NodeID o = id) (Owners s).

(** The runtime visits the entries of a map in some order, each once. *)
Definition fair_range (rt : Runtime) : Prop :=
  ∀ k (m : gmap Z Z), range_order rt k m ≡ₚ map_to_list m.

(** The shape [DeleteDataNode] relies on: shard IDs are unique in a group,
    a shard lists a node once, node ids are [uint64] values. *)
Definition well_owned (g : ShardGroupInfo) : Prop :=
  NoDup (si_ID <$> Shards g)
  ∧ Forall (λ s, NoDup (NodeID <$> Owners s)
                 ∧ Forall (λ o, 0 ≤ NodeID o < U64.modulus) (Owners s))
      (Shards g).

(** The shard with every owner entry of node [id] taken out. *)
Definition without_owner (id : Z) (s : ShardInfo) : ShardInfo :=
  set_Owners (filter (λ o, NodeID o ≠ id) (Owners s)) s.

(** The keys of the frequency map while orphans are handed out: node ids
    in the range of [int], none of them the node being deleted. *)
Definition candidate_keys (id : Z) (freqs : gmap Z Z) : Prop :=
  ∀ key, is_Some (freqs !! key) →
         - U64.half ≤ key < U64.half ∧ key ≠ U64.to_int id.

(** What [DeleteDataNode] makes of a group [g]: the node is no owner any
    more; if no shard of [g] had another owner (or [g] had no shard) the
    group is marked deleted at a clock reading and its shards are left
    without owners; otherwise [DeletedAt] stays and every shard keeps its
    other owners, in their order, followed by the owners handed to it, and
    has at least one owner. *)
Definition group_after_delete (rt : Runtime) (id : Z) (g g1 : ShardGroupInfo)
  : Prop :=
  sgi_ID g1 = sgi_ID g ∧ StartTime g1 = StartTime g ∧ EndTime g1 = EndTime g
  ∧ TruncatedAt g1 = TruncatedAt g
  ∧ si_ID <$> Shards g1 = si_ID <$> Shards g
  ∧ Forall (λ s1, Forall (λ o, NodeID o ≠ id) (Owners s1)) (Shards g1)
  ∧ (Forall (orphaned_by id) (Shards g) →
       (∃ k, DeletedAt g1 = now rt k)
       ∧ Forall (λ s1, Owners s1 = []) (Shards g1))
  ∧ (¬ Forall (orphaned_by id) (Shards g) →
       DeletedAt g1 = DeletedAt g
       ∧ Forall (λ s1, Owners s1 ≠ []) (Shards g1)
       ∧ Forall2 (λ s s1, ∃ extra,
                    Owners s1 = filter (λ o, NodeID o ≠ id) (Owners s) ++ extra)
           (Shards g) (Shards g1)).

(** The retention policies of the store. *)
Definition policies_of (d : Data) : list RetentionPolicyInfo :=
  db ← Databases d; RetentionPolicies db.

(** The times a group takes points for: from its start to its effective
    end. *)
Definition covers (g : ShardGroupInfo) (t : Time) : Prop :=
  StartTime g ≤ t < effective_end g.

(** Two groups that are not deleted share no time, for a given reading
    [cov] of the times a group holds. *)
Definition separate (cov : ShardGroupInfo → Time → Prop)
    (g h : ShardGroupInfo) : Prop :=
  Deleted g = false → Deleted h = false → ∀ t, ¬ (cov g t ∧ cov h t).

(** A relation holds between any two elements at different positions. *)
Fixpoint pairwise {A} (R : A → A → Prop) (l : list A) : Prop :=
  match l with
  | [] => True
  | x :: rest => Forall (R x) rest ∧ pairwise R rest
  end.

(** No time lies in the effective intervals of two groups of the slice
    that are not deleted. *)
Definition disjoint_effective (gs : list ShardGroupInfo) : Prop :=
  pairwise (separate covers) gs.

(** The same with the intervals [StartTime, EndTime) of [Contains]. *)
Definition disjoint_raw (gs : list ShardGroupInfo) : Prop :=
  pairwise (separate (λ g t, Contains g t = true)) gs.

(** A truncated group is truncated at or before its end time, as
    [TruncateShardGroups] leaves it. *)
Definition truncation_inside (gs : list ShardGroupInfo) : Prop :=
  Forall (λ g, Deleted g = false → Truncated g = true →
               TruncatedAt g ≤ EndTime g) gs.

(** The shards of the store, in the order the nested loops of the
    mutators visit them. *)
Definition shards_of (data : Data) : list ShardInfo :=
  groups_of data ≫= Shards.

(** The shard a mutator given a shard ID works on: the first one with the
    ID in that order. *)
Definition located (id : Z) (data : Data) : option ShardInfo :=
  head (filter (λ s, si_ID s = id) (shards_of data)).

(** The node ids of the owners grow strictly along the slice. *)
Definition owners_ascending (owners : list ShardOwner) : Prop :=
  pairwise (λ a b, NodeID a < NodeID b) owners.

(** The place of a shard group in the store: what comes before and after
    it among the databases, the policies of its database and the groups
    of its policy. *)
Record place := mkPlace {
  dbs_before : list DatabaseInfo;
  the_db : DatabaseInfo;
  dbs_after : list DatabaseInfo;
  rps_before : list RetentionPolicyInfo;
  the_rp : RetentionPolicyInfo;
  rps_after : list RetentionPolicyInfo;
  sgs_before : list ShardGroupInfo;
  sgs_after : list ShardGroupInfo
}.

(** The store with the group [sg] at the place [c]. *)
Definition plug (c : place) (sg : ShardGroupInfo) (data : Data) : Data :=
  set_Databases
    (dbs_before c ++
     set_RetentionPolicies
       (rps_before c ++
        set_ShardGroups (sgs_before c ++ sg :: sgs_after c) (the_rp c)
        :: rps_after c) (the_db c)
     :: dbs_after c) data.

(** The groups the loops visit before and after the place. *)
Definition groups_before (c : place) : list ShardGroupInfo :=
  (dbs_before c ≫= groups_of_db) ++ (rps_before c ≫= ShardGroups) ++ sgs_before c.

Definition groups_after (c : place) : list ShardGroupInfo :=
  sgs_after c ++ (rps_after c ≫= ShardGroups) ++ (dbs_after c ≫= groups_of_db).

(** The durations of a policy fit: the shard group duration is at least
    an hour and, when the policy does not keep data for ever, no longer
    than the retention duration. *)
Definition durations_fit (rp : RetentionPolicyInfo) : Prop :=
  Hour ≤ ShardGroupDuration rp
  ∧ (Duration rp ≤ 0 ∨ ShardGroupDuration rp ≤ Duration rp).

End MetaSpec.

(** ** Concrete stores for the examples *)

Module MetaExamples.
Import GoTime Meta.

(** [models.MaxNanoTime]. *)
Definition MaxNanoTime : Z := 9223372036854775806.

Definition minute : Z := 60 * 1000000000.
Definition hour : Z := 60 * minute.

(** 2025-01-01 00:00:00 UTC. *)
Definition new_year : Time := Unix0 (1735689600 * 1000000000).

Definition node (id : Z) : NodeInfo := mkNodeInfo id "" "".

(** A retention policy "autogen" with hourly shard groups. *)
Definition autogen (replicaN : Z) (duration : Z) (groups : list ShardGroupInfo)
  : RetentionPolicyInfo :=
  mkRetentionPolicyInfo "autogen" replicaN duration hour groups [].

(** A store with one database "db" holding the policy. *)
Definition cluster (nodes : list NodeInfo) (rp : RetentionPolicyInfo) : Data :=
  mkData 1 5 1 [] nodes [mkDatabaseInfo "db" "autogen" [rp] []] [] false 4 10 10.

Definition four_nodes : list NodeInfo := [node 1; node 2; node 3; node 4].

(** The group of the first hour of the year, truncated at half past. *)
Definition truncated_group : ShardGroupInfo :=
  mkShardGroupInfo 1 new_year (new_year + hour) 0
    [mkShardInfo 1 [mkShardOwner 1]] (new_year + 30 * minute).

(** Three shards over the nodes 1, 2 and 3, two owners each. *)
Definition three_shards : list ShardInfo :=
  [mkShardInfo 1 [mkShardOwner 1; mkShardOwner 2];
   mkShardInfo 2 [mkShardOwner 2; mkShardOwner 3];
   mkShardInfo 3 [mkShardOwner 1; mkShardOwner 3]].

(** A group holding them. *)
Definition three_shard_group : ShardGroupInfo :=
  mkShardGroupInfo 1 new_year (new_year + hour) 0 three_shards 0.

(** A runtime whose clock stands at the new year and whose map iteration
    follows the order of [map_to_list]. *)
Definition steady : Runtime := mkRuntime (λ _, new_year) (λ _ m, map_to_list m).

End MetaExamples.

(** ** Vocabulary of the statements on the write path *)

Module WriteSpec.
Import GoTime Coordinator.

(** A scheduler under which the [i]-th [select] receives the [i]-th result
    of the list; once every result is taken only the timer is left. *)
Definition in_order {A} (rs : list A) (i : nat) : select_event A :=
  match rs !! i with
  | Some r => EvResult r
  | None => EvTimeout
  end.

(** The number of successful owner writes among the results. *)
Fixpoint count_ok (rs : list AsyncWriteResult) : Z :=
  match rs with
  | [] => 0
  | r :: rest => (if Err r is None then 1 else 0) + count_ok rest
  end.

(** The first error among the results that is not the queue-blocked
    sentinel. *)
Fixpoint first_saved (foreign : error → string) (rs : list AsyncWriteResult)
  : option error :=
  match rs with
  | [] => None
  | r :: rest =>
      match Err r with
      | Some e =>
          if is_queue_blocked foreign e then first_saved foreign rest else Some e
      | None => first_saved foreign rest
      end
  end.

(** The list [MapShards] holds after adding the groups [gs] in turn. *)
Definition built (gs : list Meta.ShardGroupInfo) : sgList :=
  fold_left Add_group gs (mksgList [] false 0 0).

(** The order [sort.Sort] leaves by [Less]: the effective end ascending,
    then the start ascending. *)
Definition by_end_then_start (a b : Meta.ShardGroupInfo) : Prop :=
  Meta.effective_end a < Meta.effective_end b
  ∨ (Meta.effective_end a = Meta.effective_end b
     ∧ Meta.StartTime a ≤ Meta.StartTime b).

Definition ordered (its : list Meta.ShardGroupInfo) : Prop :=
  MetaSpec.pairwise by_end_then_start its.

(** The group the search settles on in the slice [its]: the first whose
    end, read by [end_of], is after [t]; the fallback when there is none
    or it starts after [t]. *)
Definition first_ending_after (end_of : Meta.ShardGroupInfo → Time)
    (l : sgList) (its : list Meta.ShardGroupInfo) (t : Time)
  : option Meta.ShardGroupInfo :=
  match list_find (λ g, t < end_of g) its with
  | Some (_, g) => if Before t (Meta.StartTime g) then fallback l its t else Some g
  | None => fallback l its t
  end.


(** The points a mapping sends to shards. *)
Definition mapped (mapping : ShardMapping) : list Point :=
  map_to_list (sm_Points mapping) ≫= snd.

(** The first error among the shard results. *)
Fixpoint first_error (rs : list (option error)) : option error :=
  match rs with
  | [] => None
  | Some e :: _ => Some e
  | None :: rest => first_error rest
  end.

(** The subscriber channels that take the send, and those that do not. *)
Definition takes_send (ch : chan_state) : bool :=
  match ch with
  | ChanReady => true
  | ChanFull | ChanNil => false
  end.

Definition count_ready (subPoints : list chan_state) : Z :=
  Z.of_nat (length (List.filter takes_send subPoints)).

Definition count_not_ready (subPoints : list chan_state) : Z :=
  Z.of_nat (length (List.filter (λ ch, negb (takes_send ch)) subPoints)).

(** The error prepared for the points the mapping dropped. *)
Definition dropped_error (mapping : ShardMapping) : option error :=
  match sm_Dropped mapping with
  | [] => None
  | _ :: _ =>
      Some (PartialWriteError ReasonBeyondRetentionPolicy
              (length (sm_Dropped mapping)))
  end.

End WriteSpec.

(** ** Concrete collaborators for the examples *)

Module Examples.
Import GoTime Coordinator.

(** Texts for the errors declared outside the coordinator package. The
    two hinted-handoff sentinels are different errors with different
    texts. *)
Definition foreign_texts (e : error) : string :=
  match e with
  | ErrDatabaseNotFound name => "database not found: " +:+ name
  | ErrRetentionPolicyNotFound name => "retention policy not found: " +:+ name
  | ErrShardNotFound => "shard not found"
  | ErrShardDeletion => "shard is being deleted"
  | PartialWriteError _ _ => "partial write"
  | ErrQueueBlocked => "queue is blocked"
  | ErrHintedHandoffQueueNotEmpty => "hinted handoff queue not empty"
  | _ => ""
  end.

(** A writer on node 1. Every store and remote write succeeds; the
    hinted-handoff queue of every owner holds earlier writes and accepts
    new ones. The state counts the remote writes made. *)
Definition backlog : Collaborators nat :=
  mkCollaborators nat
    (λ _, 1)
    (λ _ _, None)
    (λ _ _ _, inr None)
    (λ _ _ _ w, (inr None, w))
    (λ _ _ _ _ w, (None, w))
    (λ _ _ w, (None, w))
    (λ _ _ _ w, (None, S w))
    (λ _ _ _ w, (None, w))
    (λ _ _ _, false)
    (λ _, false).

Definition zero_stats : WriteStatistics :=
  mkWriteStatistics 0 0 0 0 0 0 0 0 0 0 0 0.

Definition a_point : Point := mkPoint 1000 42.

(** Shard 7, owned by node 2 alone. *)
Definition remote_shard : Meta.ShardInfo :=
  Meta.mkShardInfo 7 [Meta.mkShardOwner 2].

(** A mapping with two shards and one dropped point. *)
Definition two_shards : ShardMapping :=
  mkShardMapping 3
    (<[7 := [a_point]]> (<[8 := [a_point]]> ∅))
    (<[7 := remote_shard]> (<[8 := Meta.mkShardInfo 8 [Meta.mkShardOwner 1]]> ∅))
    [a_point].

(** [models.MinNanoTime]. *)
Definition MinNanoTime : Z := -9223372036854775806.

(** A point of the first hour of 2025; [a_point] lies before the lowest
    time of a policy that keeps data for ever. *)
Definition recent_point : Point := mkPoint (MetaExamples.new_year + 1000) 42.

(** The group every [CreateShardGroup] of [serving] answers with: the
    first hour of 2025, with shard 7 on node 1. *)
Definition a_group : Meta.ShardGroupInfo :=
  Meta.mkShardGroupInfo 1 MetaExamples.new_year
    (MetaExamples.new_year + MetaExamples.hour) 0
    [Meta.mkShardInfo 7 [Meta.mkShardOwner 1]] 0.

(** A writer on node 1 whose meta client knows the policy "autogen" of
    unlimited duration and whose store takes every write. The state counts
    the writes to the local store. *)
Definition serving : Collaborators nat :=
  mkCollaborators nat
    (λ _, 1)
    (λ _ _, Some (Meta.mkDatabaseInfo "db" "autogen" [] []))
    (λ _ _ _, inr (Some (MetaExamples.autogen 1 0 [])))
    (λ _ _ _ w, (inr (Some a_group), w))
    (λ _ _ _ _ w, (None, w))
    (λ _ _ w, (None, S w))
    (λ _ _ _ w, (None, w))
    (λ _ _ _ w, (None, w))
    (λ _ _ _, true)
    (λ _, false).

(** The mapping of [recent_point] and [a_point] by [serving]. *)
Definition one_shard : ShardMapping :=
  mkShardMapping 2 {[7 := [recent_point]]}
    {[7 := Meta.mkShardInfo 7 [Meta.mkShardOwner 1]]} [a_point].

(** Two points of the first hour of 2025, forty and ten minutes in. *)
Definition late_point : Point :=
  mkPoint (MetaExamples.new_year + 40 * MetaExamples.minute) 42.

Definition stale_point : Point :=
  mkPoint (MetaExamples.new_year + 10 * MetaExamples.minute) 43.

(** The writer [serving] with a policy that keeps data for one hour. *)
Definition short_lived : Collaborators nat :=
  mkCollaborators nat
    (λ _, 1)
    (λ _ _, Some (Meta.mkDatabaseInfo "db" "autogen" [] []))
    (λ _ _ _, inr (Some (MetaExamples.autogen 1 MetaExamples.hour [])))
    (λ _ _ _ w, (inr (Some a_group), w))
    (λ _ _ _ _ w, (None, w))
    (λ _ _ w, (None, S w))
    (λ _ _ _ w, (None, w))
    (λ _ _ _ w, (None, w))
    (λ _ _ _, true)
    (λ _, false).

(** The group [CreateShardGroup] makes after [MetaExamples.truncated_group]
    for a time past the truncation: the second half of the hour. *)
Definition second_half : Meta.ShardGroupInfo :=
  Meta.mkShardGroupInfo 2 (MetaExamples.new_year + 30 * MetaExamples.minute)
    (MetaExamples.new_year + MetaExamples.hour) 0
    [Meta.mkShardInfo 2 [Meta.mkShardOwner 1]] 0.

End Examples.

(** * Proofs *)

Section MetaFacts.
Import GoTime Meta MetaSpec.

(** ** Facts on the slice helpers *)

Lemma remove_at_length {A} (i : nat) (l : list A) :
  (i < length l)%nat → length (remove_at i l) = pred (length l).
Proof.
  intros Hi. unfold remove_at.
  rewrite length_app, length_take, length_drop. lia.
Qed.

(** ** DropShard *)

Lemma find_shard_None id shards :
  find_shard id shards = None ↔ Forall (λ s, si_ID s ≠ id) shards.
Proof.
  induction shards as [|s rest IH]; simpl.
  - split; [constructor | done].
  - destruct (Z.eqb_spec (si_ID s) id) as [He|Hne].
    + split; [done|]. inversion 1; subst. contradiction.
    + destruct (find_shard id rest) eqn:Hf; simpl.
      * split; [done|]. inversion 1; subst.
        destruct IH as [_ IH]. by specialize (IH ltac:(assumption)).
      * split; [|done]. intros _. constructor; [done|]. by apply IH.
Qed.

Lemma find_shard_Some id shards found :
  find_shard id shards = Some found →
  ∃ s, shards !! found = Some s ∧ si_ID s = id
       ∧ Forall (λ s', si_ID s' ≠ id) (take found shards).
Proof.
  revert found. induction shards as [|s rest IH]; simpl; intros found; [done|].
  destruct (Z.eqb_spec (si_ID s) id) as [He|Hne].
  - intros [= <-]. exists s. simpl. split; [done|]. split; [done|constructor].
  - destruct (find_shard id rest) as [k|] eqn:Hf; simpl; [|done].
    intros [= <-]. destruct (IH k eq_refl) as (s' & Hl & Hid & Hall).
    exists s'. simpl. split; [done|]. split; [done|]. by constructor.
Qed.

Lemma holds_iff id sg : holds id sg ↔ ¬ Forall (λ s, si_ID s ≠ id) (Shards sg).
Proof.
  unfold holds. rewrite Forall_forall. split.
  - intros (s & Hin & Hid) Hall. by apply (Hall s).
  - intros Hn. destruct (decide (Exists (λ s, si_ID s = id) (Shards sg))) as [He|He].
    + apply Exists_exists in He. done.
    + exfalso. apply Hn. intros s Hin Hid. apply He, Exists_exists. eauto.
Qed.

Lemma DropShard_group_None now id sg :
  DropShard_group now id sg = None ↔ ¬ holds id sg.
Proof.
  unfold DropShard_group. rewrite holds_iff.
  destruct (find_shard id (Shards sg)) eqn:Hf.
  - split; [done|]. intros Hn. exfalso. apply Hn. intros Hall.
    apply find_shard_None in Hall. congruence.
  - apply find_shard_None in Hf. split; [|done]. intros _ Hn. by apply Hn.
Qed.

Lemma first_update_None {A} (f : A → option A) l :
  first_update f l = None ↔ Forall (λ x, f x = None) l.
Proof.
  induction l as [|x rest IH]; simpl.
  - split; [constructor|done].
  - destruct (f x) eqn:Hx.
    + split; [done|]. inversion 1; congruence.
    + destruct (first_update f rest); simpl.
      * split; [done|]. inversion 1; subst. destruct IH as [_ IH].
        by specialize (IH ltac:(assumption)).
      * split; [|done]. intros _. constructor; [done|]. by apply IH.
Qed.

Lemma first_update_Some {A} (f : A → option A) l l' :
  first_update f l = Some l' →
  ∃ l1 x x' l2, l = l1 ++ x :: l2 ∧ Forall (λ y, f y = None) l1
                ∧ f x = Some x' ∧ l' = l1 ++ x' :: l2.
Proof.
  revert l'. induction l as [|x rest IH]; simpl; intros l'; [done|].
  destruct (f x) as [x'|] eqn:Hx.
  - intros [= <-]. exists [], x, x', rest. by repeat split.
  - destruct (first_update f rest) as [r'|] eqn:Hr; simpl; [|done].
    intros [= <-]. destruct (IH r' eq_refl) as (l1 & y & y' & l2 & -> & Hall & Hy & ->).
    exists (x :: l1), y, y', l2. repeat split; [|done]. by constructor.
Qed.

Lemma DropShard_rp_None now id rp :
  DropShard_rp now id rp = None ↔ Forall (λ g, ¬ holds id g) (ShardGroups rp).
Proof.
  unfold DropShard_rp. rewrite fmap_None, first_update_None.
  apply Forall_iff. intros g. apply DropShard_group_None.
Qed.

Lemma DropShard_db_None now id db :
  DropShard_db now id db = None ↔ Forall (λ g, ¬ holds id g) (groups_of_db db).
Proof.
  unfold DropShard_db, groups_of_db. rewrite fmap_None, first_update_None.
  rewrite Forall_bind. apply Forall_iff. intros rp. apply DropShard_rp_None.
Qed.

Lemma DropShard_dbs_None now id dbs :
  first_update (DropShard_db now id) dbs = None
  ↔ Forall (λ g, ¬ holds id g) (dbs ≫= groups_of_db).
Proof.
  rewrite first_update_None, Forall_bind. apply Forall_iff. intros db.
  apply DropShard_db_None.
Qed.

(** C10. [DropShard] has no error result. When no shard group holds the
    shard the store is left as it is. Otherwise the shard is taken out of
    the first group that holds it, in the order databases, policies,
    groups: that group loses the first shard with the ID, gets [DeletedAt]
    set to the current time if and only if it had that one shard only, and
    nothing else in the store changes. *)
Theorem DropShard_spec (now : Time) (id : Z) (data : Data) :
  (Forall (λ g, ¬ holds id g) (groups_of data) → DropShard now id data = data)
  ∧ (Exists (holds id) (groups_of data) →
     ∃ dbs1 db dbs2 rps1 rp rps2 sgs1 sg sgs2 found s,
       Databases data = dbs1 ++ db :: dbs2
       ∧ RetentionPolicies db = rps1 ++ rp :: rps2
       ∧ ShardGroups rp = sgs1 ++ sg :: sgs2
       ∧ Forall (λ g, ¬ holds id g)
           ((dbs1 ≫= groups_of_db) ++ (rps1 ≫= ShardGroups) ++ sgs1)
       ∧ Shards sg !! found = Some s ∧ si_ID s = id
       ∧ Forall (λ s', si_ID s' ≠ id) (take found (Shards sg))
       ∧ DropShard now id data =
           set_Databases
             (dbs1 ++
              set_RetentionPolicies
                (rps1 ++
                 set_ShardGroups
                   (sgs1 ++
                    mkShardGroupInfo (sgi_ID sg) (StartTime sg) (EndTime sg)
                      (if decide (length (Shards sg) = 1%nat) then now
                       else DeletedAt sg)
                      (remove_at found (Shards sg)) (TruncatedAt sg)
                    :: sgs2) rp
                 :: rps2) db
              :: dbs2) data).
Proof.
  split.
  - intros Hall. unfold DropShard.
    apply DropShard_dbs_None with (now := now) in Hall. by rewrite Hall.
  - intros Hex. unfold DropShard.
    destruct (first_update (DropShard_db now id) (Databases data)) as [dbs'|] eqn:Hdbs.
    2:{ apply DropShard_dbs_None in Hdbs. exfalso.
        apply Exists_exists in Hex as (g & Hin & Hg).
        rewrite Forall_forall in Hdbs. by apply (Hdbs g). }
    apply first_update_Some in Hdbs
      as (dbs1 & db & db' & dbs2 & Hd & Hdbs1 & Hdb & ->).
    unfold DropShard_db in Hdb. apply fmap_Some in Hdb as (rps' & Hrps & ->).
    apply first_update_Some in Hrps
      as (rps1 & rp & rp' & rps2 & Hr & Hrps1 & Hrp & ->).
    unfold DropShard_rp in Hrp. apply fmap_Some in Hrp as (sgs' & Hsgs & ->).
    apply first_update_Some in Hsgs
      as (sgs1 & sg & sg' & sgs2 & Hs & Hsgs1 & Hsg & ->).
    unfold DropShard_group in Hsg.
    destruct (find_shard id (Shards sg)) as [found|] eqn:Hfound; [|done].
    apply find_shard_Some in Hfound as (s & Hlook & Hid & Hbefore).
    exists dbs1, db, dbs2, rps1, rp, rps2, sgs1, sg, sgs2, found, s.
    repeat split; try done.
    + rewrite !Forall_app. repeat split.
      * rewrite Forall_bind. eapply Forall_impl; [exact Hdbs1|].
        intros x Hx. by apply DropShard_db_None in Hx.
      * rewrite Forall_bind. eapply Forall_impl; [exact Hrps1|].
        intros x Hx. by apply DropShard_rp_None in Hx.
      * eapply Forall_impl; [exact Hsgs1|].
        intros x Hx. by apply DropShard_group_None in Hx.
    + injection Hsg as <-. do 6 f_equal.
      destruct (Nat.eqb_spec (length (Shards sg)) 1); case_decide; done.
Qed.

(** ** Leases *)

(** C9. [Acquire] returns no error exactly when the lease is absent,
    expired at the first clock reading, or owned by the caller. A lease
    that is granted is stored under its name with the caller as owner and
    an expiration one TTL after the clock reading taken for it; a lease
    that is refused is returned as it is stored, with the error, and the
    table does not change. *)
Theorem Acquire_spec (now0 now1 : Time) (name : string) (nodeID : Z)
    (leases : Leases) :
  let '(l, err, leases1) := Acquire now0 now1 name nodeID leases in
  (err = None ↔ grantable now0 name nodeID leases)
  ∧ (err = None →
       Owner l = nodeID
       ∧ Expiration l =
           (if m leases !! name is Some _ then now1 else now0) + d leases
       ∧ l_Name l = default name (l_Name <$> m leases !! name)
       ∧ m leases1 = <[name := l]> (m leases)
       ∧ d leases1 = d leases)
  ∧ (err ≠ None →
       err = Some (ErrNew "another node has the lease")
       ∧ m leases !! name = Some l
       ∧ leases1 = leases).
Proof.
  unfold Acquire, grantable.
  destruct (m leases !! name) as [l0|] eqn:Hl.
  - unfold After. destruct (Z.ltb_spec (Expiration l0) now0) as [Hexp|Hexp]; simpl.
    + repeat split; try done. by left.
    + destruct (Z.eqb_spec (Owner l0) nodeID) as [Hown|Hown]; simpl.
      * repeat split; try done. by right.
      * repeat split; try done. intros [?|?]; [lia|done].
  - repeat split; done.
Qed.


(** ** CreateShardGroup: the steps of the call *)

Lemma insert_group_perm g l : insert_group g l ≡ₚ g :: l.
Proof.
  induction l as [|h t IH]; simpl; [done|].
  destruct (Less h g); [|done]. rewrite IH. apply Permutation_swap.
Qed.

(** The sort returns a permutation of the slice. *)
Lemma sort_Sort_perm l : sort_Sort l ≡ₚ l.
Proof.
  unfold sort_Sort. induction l as [|g t IH]; simpl; [done|].
  by rewrite insert_group_perm, IH.
Qed.

(** The shard-count loop stops at the first count from [shardN] on which
    the test succeeds, if the fuel reaches it. *)
Lemma shardN_loop_first fuel shardN replicaN n k :
  n ≠ 0 → shardN ≤ k < shardN + Z.of_nat fuel →
  (n | k * replicaN) →
  ∃ r, shardN_loop fuel shardN replicaN n = Some r
       ∧ shardN ≤ r ≤ k ∧ (n | r * replicaN)
       ∧ ∀ k', shardN ≤ k' → (n | k' * replicaN) → r ≤ k'.
Proof.
  intros Hn. revert shardN.
  induction fuel as [|fuel IH]; intros shardN Hk Hdiv; [lia|].
  cbn [shardN_loop].
  destruct (Z.eqb_spec (Z.rem (shardN * replicaN) n) 0) as [Hz|Hz].
  - apply Z.rem_divide in Hz; [|done]. exists shardN. repeat split; try done; lia.
  - assert (¬ (n | shardN * replicaN)) as Hnd.
    { intros Hd. apply Hz. by apply Z.rem_divide. }
    assert (shardN ≠ k) by (intros ->; done).
    destruct (IH (shardN + 1)) as (r & Hr & Hle & Hrd & Hmin); [lia|done|].
    exists r. repeat split; try done; try lia.
    intros k' Hk' Hd'. assert (shardN ≠ k') by (intros ->; done).
    apply Hmin; [lia|done].
Qed.

Lemma shardN_loop_total replicaN n :
  (0 < n)%nat →
  ∃ r, shardN_loop n 1 replicaN (Z.of_nat n) = Some r
       ∧ 0 < r ∧ (Z.of_nat n | r * replicaN)
       ∧ ∀ k', 0 < k' → (Z.of_nat n | k' * replicaN) → r ≤ k'.
Proof.
  intros Hn.
  destruct (shardN_loop_first n 1 replicaN (Z.of_nat n) (Z.of_nat n))
    as (r & Hr & Hle & Hd & Hmin); [lia|lia|apply Z.divide_factor_l|].
  exists r. repeat split; try done; [lia|]. intros k' Hk'. apply Hmin. lia.
Qed.







(** The policy written back is found again at its position. *)
Lemma RetentionPolicy_at_put data database policy i j rpi rpi1 data1 :
  RetentionPolicy_at data database policy = inr (Some (i, j, rpi)) →
  rpi_Name rpi1 = rpi_Name rpi →
  Databases data1 = Databases data →
  RetentionPolicy_at (put_policy i j rpi1 data1) database policy =
    inr (Some (i, j, rpi1)).
Proof.
  unfold RetentionPolicy_at. intros Hat Hname Hdbs.
  destruct (list_find _ (Databases data)) as [[i' di]|] eqn:Hdb; [|done].
  destruct (list_find _ (RetentionPolicies di)) as [[j' rp]|] eqn:Hrp; [|done].
  injection Hat as -> -> ->.
  apply list_find_Some in Hdb as (Hdi & Hdn & Hdfirst).
  apply list_find_Some in Hrp as (Hrj & Hrn & Hrfirst).
  unfold put_policy. simpl. rewrite Hdbs.
  set (f := λ di0, set_RetentionPolicies (<[j:=rpi1]> (RetentionPolicies di0)) di0).
  assert (list_find (λ db, di_Name db = database) (alter f i (Databases data))
          = Some (i, f di)) as ->.
  { apply list_find_Some. split; [|split].
    - by rewrite list_lookup_alter_eq, Hdi.
    - done.
    - intros k y Hk Hlt. rewrite list_lookup_alter_ne in Hk by lia.
      by apply (Hdfirst k). }
  assert (list_find (λ rp, rpi_Name rp = policy) (RetentionPolicies (f di))
          = Some (j, rpi1)) as ->.
  { apply list_find_Some. simpl. split; [|split].
    - apply list_lookup_insert_eq. by eapply lookup_lt_Some.
    - congruence.
    - intros k y Hk Hlt. rewrite list_lookup_insert_ne in Hk by lia.
      by apply (Hrfirst k). }
  done.
Qed.

(** What the call does when it creates a group. *)
Lemma CreateShardGroup_creates MaxNanoTime database policy timestamp data i j rpi :
  DataNodes data ≠ [] →
  RetentionPolicy_at data database policy = inr (Some (i, j, rpi)) →
  ShardGroupByTimestamp rpi timestamp = None →
  ∃ shardN,
    let n := length (DataNodes data) in
    let replicaN := clamp_replicaN (ReplicaN rpi) n in
    let sgi := (new_group data replicaN shardN
                  (new_window MaxNanoTime rpi timestamp)).1 in
    let rpi1 := set_ShardGroups (sort_Sort (ShardGroups rpi ++ [sgi])) rpi in
    shardN_loop n 1 replicaN (Z.of_nat n) = Some shardN
    ∧ ∃ data1,
        CreateShardGroup MaxNanoTime database policy timestamp data =
          Some (put_policy i j rpi1 data1, None)
        ∧ Databases data1 = Databases data
        ∧ DataNodes data1 = DataNodes data.
Proof.
  intros Hnodes Hat Hnone.
  assert (0 < length (DataNodes data))%nat as Hn.
  { destruct (DataNodes data); [done|simpl; lia]. }
  destruct (shardN_loop_total
              (clamp_replicaN (ReplicaN rpi) (length (DataNodes data)))
              (length (DataNodes data)) Hn) as (shardN & Hloop & _).
  exists shardN. cbn zeta. split; [done|].
  unfold CreateShardGroup.
  destruct (Nat.eqb_spec (length (DataNodes data)) 0); [lia|].
  rewrite Hat, Hnone, Hloop.
  destruct (new_group data _ shardN _) as [sgi maxShardID] eqn:Hg. simpl.
  eexists. split; [reflexivity|]. done.
Qed.

(** The call always returns: the shard-count loop ends within the bound. *)
Lemma CreateShardGroup_total MaxNanoTime database policy timestamp data :
  is_Some (CreateShardGroup MaxNanoTime database policy timestamp data).
Proof.
  unfold CreateShardGroup.
  destruct (Nat.eqb_spec (length (DataNodes data)) 0) as [Hz|Hz]; [done|].
  destruct (RetentionPolicy_at data database policy) as [err|[[[i j] rpi]|]];
    try done.
  destruct (ShardGroupByTimestamp rpi timestamp); [done|].
  destruct (shardN_loop_total
              (clamp_replicaN (ReplicaN rpi) (length (DataNodes data)))
              (length (DataNodes data)) ltac:(lia)) as (shardN & -> & _).
  by destruct (new_group _ _ _ _).
Qed.

(** ** CreateShardGroup: replication factor and shard count *)






(** ** CreateShardGroup: the window of the new group *)

Lemma separate_sym cov g h : separate cov g h → separate cov h g.
Proof. unfold separate. intros H Hh Hg t [? ?]. by apply (H Hg Hh t). Qed.

Lemma pairwise_app {A} (R : A → A → Prop) l1 l2 :
  pairwise R (l1 ++ l2)
  ↔ pairwise R l1 ∧ pairwise R l2 ∧ Forall (λ x, Forall (R x) l2) l1.
Proof.
  induction l1 as [|x l1 IH]; simpl.
  - split; [intros ?; repeat split; done || constructor|]. by intros (_ & ? & _).
  - rewrite Forall_app, Forall_cons, IH. tauto.
Qed.

(** For a symmetric relation the order of the slice does not matter. *)
Lemma pairwise_perm {A} (R : A → A → Prop) l1 l2 :
  (∀ x y, R x y → R y x) → l1 ≡ₚ l2 → pairwise R l1 → pairwise R l2.
Proof.
  intros Hsym Hperm. induction Hperm as [|x l l' Hp IH|x y l|l l' l'' _ IH1 _ IH2].
  - done.
  - simpl. intros [Hx Hl]. split; [by rewrite <- Hp|by apply IH].
  - simpl. intros [Hy [Hx Hl]]. apply Forall_cons in Hy as [Hyx Hy].
    repeat split; try done. constructor; [by apply Hsym|done].
  - intros H. by apply IH2, IH1.
Qed.

(** One round of the shrinking loop: the window stays around the
    timestamp, only shrinks, and is clear of the group when the timestamp
    is outside the group's effective interval. *)
Lemma shrink_step timestamp s e g s1 e1 :
  shrink timestamp (s, e) g = (s1, e1) →
  s ≤ s1 ∧ e1 ≤ e
  ∧ (s ≤ timestamp < e → s1 ≤ timestamp < e1)
  ∧ (Deleted g = false →
     timestamp < StartTime g ∨ effective_end g ≤ timestamp →
     effective_end g ≤ s1 ∨ e1 ≤ StartTime g).
Proof.
  unfold shrink, Before, After. destruct (Deleted g).
  - intros [= <- <-]. repeat split; try lia; done.
  - intros [= <- <-].
    destruct (Z.ltb_spec timestamp (effective_end g));
      destruct (Z.ltb_spec s (effective_end g));
      destruct (Z.ltb_spec timestamp (StartTime g));
      destruct (Z.ltb_spec (StartTime g) e); simpl; repeat split; lia.
Qed.

Lemma shrink_loop timestamp gs s e s1 e1 :
  fold_left (shrink timestamp) gs (s, e) = (s1, e1) →
  s ≤ s1 ∧ e1 ≤ e
  ∧ (s ≤ timestamp < e → s1 ≤ timestamp < e1)
  ∧ Forall (λ g, Deleted g = false →
                 timestamp < StartTime g ∨ effective_end g ≤ timestamp →
                 effective_end g ≤ s1 ∨ e1 ≤ StartTime g) gs.
Proof.
  revert s e. induction gs as [|g gs IH]; intros s e; cbn [fold_left].
  - intros [= <- <-]. repeat split; try lia; done.
  - destruct (shrink timestamp (s, e) g) as [s2 e2] eqn:Hstep.
    apply shrink_step in Hstep as (Hs & He & Hts & Hg).
    intros Hfold. apply IH in Hfold as (Hs' & He' & Hts' & Hall).
    split; [lia|]. split; [lia|]. split.
    + intros H. apply Hts', Hts, H.
    + constructor; [|done]. intros Hd Hout. destruct (Hg Hd Hout); lia.
Qed.

(** A group that does not accept the timestamp has it outside its
    effective interval, when its truncation lies inside it. *)
Lemma not_accepted_outside timestamp g :
  accepts timestamp g = false → Deleted g = false →
  (Truncated g = true → TruncatedAt g ≤ EndTime g) →
  timestamp < StartTime g ∨ effective_end g ≤ timestamp.
Proof.
  unfold accepts, Contains, effective_end, Before. intros Hacc Hd Htr.
  rewrite Hd in Hacc.
  destruct (Truncated g); simpl in Hacc.
  - specialize (Htr eq_refl).
    destruct (Z.ltb_spec timestamp (StartTime g));
      destruct (Z.ltb_spec timestamp (EndTime g));
      destruct (Z.ltb_spec timestamp (TruncatedAt g)); simpl in Hacc; try done; lia.
  - destruct (Z.ltb_spec timestamp (StartTime g));
      destruct (Z.ltb_spec timestamp (EndTime g)); simpl in Hacc; try done; lia.
Qed.

(** The first window holds the timestamp up to [MaxNanoTime]. *)
Lemma first_window MaxNanoTime sgd timestamp :
  0 < sgd → timestamp ≤ Unix0 MaxNanoTime →
  let startTime := Truncate timestamp sgd in
  let endTime := Add startTime sgd in
  startTime ≤ timestamp
  < (if After endTime (Unix0 MaxNanoTime) then Unix0 (MaxNanoTime + 1) else endTime).
Proof.
  intros Hd Hmax. cbn zeta. unfold Truncate, Add, After, Unix0 in *.
  destruct (Z.leb_spec sgd 0); [lia|].
  pose proof (Z.mod_pos_bound timestamp sgd Hd).
  destruct (Z.ltb_spec (unixToInternal + MaxNanoTime) (timestamp - timestamp mod sgd + sgd));
    lia.
Qed.

(** The new group against the groups the policy has. *)
Lemma new_window_clear MaxNanoTime rpi timestamp :
  ShardGroupByTimestamp rpi timestamp = None →
  truncation_inside (ShardGroups rpi) →
  let w := new_window MaxNanoTime rpi timestamp in
  Forall (λ g, Deleted g = false →
               effective_end g ≤ w.1 ∨ w.2 ≤ StartTime g) (ShardGroups rpi)
  ∧ (0 < ShardGroupDuration rpi → timestamp ≤ Unix0 MaxNanoTime →
     w.1 ≤ timestamp < w.2).
Proof.
  intros Hnone Htrunc. cbn zeta. unfold new_window.
  destruct (fold_left _ _ _) as [s1 e1] eqn:Hfold.
  apply shrink_loop in Hfold as (_ & _ & Hts & Hall). simpl. split.
  - unfold ShardGroupByTimestamp in Hnone.
    unfold truncation_inside in Htrunc.
    rewrite Forall_forall in Hall. rewrite Forall_forall in Htrunc.
    apply Forall_forall. intros g Hin Hd.
    apply Hall; [done|done|]. apply not_accepted_outside; [|done|by apply Htrunc].
    apply list_elem_of_In in Hin.
    by apply (find_none _ _ Hnone).
  - intros Hd Hmax. apply Hts. by apply first_window.
Qed.

Lemma new_group_fields data replicaN shardN w :
  let sgi := (new_group data replicaN shardN w).1 in
  StartTime sgi = w.1 ∧ EndTime sgi = w.2
  ∧ DeletedAt sgi = 0 ∧ TruncatedAt sgi = 0.
Proof. unfold new_group. by destruct (new_shards _ _). Qed.

Lemma policies_of_put i j rpi1 data rp :
  rp ∈ policies_of (put_policy i j rpi1 data) →
  rp = rpi1 ∨ rp ∈ policies_of data.
Proof.
  unfold policies_of, put_policy. simpl.
  rewrite !list_elem_of_bind. intros (db & Hrp & Hdb).
  apply list_elem_of_lookup in Hdb as [k Hk].
  rewrite list_lookup_alter in Hk. case_decide as Hik.
  - subst k. destruct (Databases data !! i) as [di|] eqn:Hdi; [|done].
    injection Hk as <-. simpl in Hrp.
    apply list_elem_of_lookup in Hrp as [k Hk].
    destruct (decide (k = j)) as [->|Hne].
    + destruct (decide (j < length (RetentionPolicies di))%nat).
      * rewrite list_lookup_insert_eq in Hk by done. left. congruence.
      * rewrite list_insert_ge in Hk by lia. right. exists di.
        split; [by eapply list_elem_of_lookup_2|by eapply list_elem_of_lookup_2].
    + rewrite list_lookup_insert_ne in Hk by done. right. exists di.
      split; by eapply list_elem_of_lookup_2.
  - right. exists db. split; [done|]. by eapply list_elem_of_lookup_2.
Qed.

Lemma RetentionPolicy_at_elem data database policy i j rpi :
  RetentionPolicy_at data database policy = inr (Some (i, j, rpi)) →
  rpi ∈ policies_of data.
Proof.
  unfold RetentionPolicy_at, policies_of. intros Hat.
  destruct (list_find _ (Databases data)) as [[i' di]|] eqn:Hdb; [|done].
  destruct (list_find _ (RetentionPolicies di)) as [[j' rp]|] eqn:Hrp; [|done].
  injection Hat as -> -> ->.
  apply list_find_Some in Hdb as (Hdi & _). apply list_find_Some in Hrp as (Hrj & _).
  apply list_elem_of_bind. exists di.
  split; by eapply list_elem_of_lookup_2.
Qed.

(** The call returns the store unchanged unless it creates a group. *)
Lemma CreateShardGroup_cases MaxNanoTime database policy timestamp data :
  (∃ err, CreateShardGroup MaxNanoTime database policy timestamp data =
            Some (data, err))
  ∨ (∃ i j rpi,
       DataNodes data ≠ []
       ∧ RetentionPolicy_at data database policy = inr (Some (i, j, rpi))
       ∧ ShardGroupByTimestamp rpi timestamp = None).
Proof.
  unfold CreateShardGroup.
  destruct (Nat.eqb_spec (length (DataNodes data)) 0) as [Hz|Hz]; [left; eauto|].
  destruct (RetentionPolicy_at data database policy) as [err|[[[i j] rpi]|]] eqn:Hat;
    [left; eauto| |left; eauto].
  destruct (ShardGroupByTimestamp rpi timestamp) eqn:Hnone; [left; eauto|].
  right. exists i, j, rpi. repeat split; try done.
  intros Hnil. by rewrite Hnil in Hz.
Qed.

(** C1, as the code has it. Take a store in which, for every policy, no
    time lies in the effective intervals (start to [TruncatedAt] for a
    truncated group, start to end otherwise) of two groups that are not
    deleted, and every truncated group is truncated inside its interval.
    The call returns, and the store it leaves has the same two properties.
    When the call creates a group, the group is added to the policy, is
    neither deleted nor truncated, and its interval holds the timestamp
    if the shard group duration is positive and the timestamp is not
    beyond the greatest point time. *)
Theorem CreateShardGroup_disjoint (MaxNanoTime : Z) (database policy : string)
    (timestamp : Time) (data : Data) :
  (∀ rp, rp ∈ policies_of data →
         truncation_inside (ShardGroups rp) ∧ disjoint_effective (ShardGroups rp)) →
  ∃ data1 err,
    CreateShardGroup MaxNanoTime database policy timestamp data = Some (data1, err)
    ∧ (∀ rp, rp ∈ policies_of data1 →
             truncation_inside (ShardGroups rp)
             ∧ disjoint_effective (ShardGroups rp))
    ∧ (∀ i j rpi,
         DataNodes data ≠ [] →
         RetentionPolicy_at data database policy = inr (Some (i, j, rpi)) →
         ShardGroupByTimestamp rpi timestamp = None →
         ∃ rpi1 sgi,
           RetentionPolicy_at data1 database policy = inr (Some (i, j, rpi1))
           ∧ ShardGroups rpi1 ≡ₚ ShardGroups rpi ++ [sgi]
           ∧ Deleted sgi = false ∧ Truncated sgi = false
           ∧ (0 < ShardGroupDuration rpi → timestamp ≤ Unix0 MaxNanoTime →
              Contains sgi timestamp = true)).
Proof.
  intros Hinv.
  destruct (CreateShardGroup_cases MaxNanoTime database policy timestamp data)
    as [[err Hsame]|(i & j & rpi & Hnodes & Hat & Hnone)].
  - exists data, err. split; [done|]. split; [done|].
    intros i j rpi Hnodes Hat Hnone.
    destruct (CreateShardGroup_creates MaxNanoTime database policy timestamp data
                i j rpi Hnodes Hat Hnone) as (shardN & _ & data1 & Hcall & Hdbs & _).
    cbn zeta in Hcall. rewrite Hcall in Hsame. injection Hsame as Hput _.
    (* the store changed: the policy has one more group *)
    exfalso. apply (f_equal (λ d, RetentionPolicy_at d database policy)) in Hput.
    rewrite (RetentionPolicy_at_put data _ _ _ _ rpi) in Hput by done.
    rewrite Hat in Hput. injection Hput as Hput.
    apply (f_equal (λ r, length (ShardGroups r))) in Hput. simpl in Hput.
    rewrite sort_Sort_perm, length_app in Hput. simpl in Hput. lia.
  - destruct (CreateShardGroup_creates MaxNanoTime database policy timestamp data
                i j rpi Hnodes Hat Hnone) as (shardN & _ & data1 & Hcall & Hdbs & _).
    cbn zeta in Hcall.
    set (w := new_window MaxNanoTime rpi timestamp) in *.
    set (sgi := (new_group data _ shardN w).1) in *.
    destruct (new_group_fields data
                (clamp_replicaN (ReplicaN rpi) (length (DataNodes data))) shardN w)
      as (Hstart & Hend & Hdel & Htr). fold sgi in Hstart, Hend, Hdel, Htr.
    assert (Deleted sgi = false) as Hnd by (unfold Deleted, IsZero; by rewrite Hdel).
    assert (Truncated sgi = false) as Hnt by (unfold Truncated, IsZero; by rewrite Htr).
    destruct (Hinv rpi (RetentionPolicy_at_elem _ _ _ _ _ _ Hat)) as [Htrunc Hdisj].
    destruct (new_window_clear MaxNanoTime rpi timestamp Hnone Htrunc)
      as [Hclear Hts]. fold w in Hclear, Hts.
    eexists _, None. split; [exact Hcall|]. split.
    + intros rp Hrp. apply policies_of_put in Hrp as [->|Hrp].
      * simpl. split.
        -- unfold truncation_inside. rewrite sort_Sort_perm.
           apply Forall_app. split; [done|]. constructor; [|constructor].
           intros _ Ht. congruence.
        -- unfold disjoint_effective.
           eapply pairwise_perm;
             [apply separate_sym|symmetry; apply sort_Sort_perm|].
           apply pairwise_app. split; [done|]. split; [simpl; done|].
           eapply Forall_impl; [exact Hclear|]. intros g Hg.
           constructor; [|constructor]. intros Hgd _ t [Hc1 Hc2].
           unfold covers, effective_end in Hc1, Hc2. rewrite Hnt in Hc2.
           fold (effective_end g) in Hc1. destruct (Hg Hgd); lia.
      * apply Hinv. unfold policies_of in *. by rewrite <- Hdbs.
    + intros i' j' rpi' _ Hat' _. rewrite Hat in Hat'. injection Hat' as <- <- <-.
      exists (set_ShardGroups (sort_Sort (ShardGroups rpi ++ [sgi])) rpi), sgi.
      split; [by apply (RetentionPolicy_at_put data _ _ _ _ rpi)|].
      split; [apply sort_Sort_perm|]. split; [done|]. split; [done|].
      intros Hd Hmax. destruct (Hts Hd Hmax) as [H1 H2].
      unfold Contains, Before. rewrite Hstart, Hend.
      destruct (Z.ltb_spec timestamp w.1); destruct (Z.ltb_spec timestamp w.2);
        simpl; try done; lia.
Qed.

(** The theorem at a store whose policy holds a group truncated half way,
    for a timestamp after the truncation. *)
Lemma CreateShardGroup_disjoint_witness :
  let data := MetaExamples.cluster [MetaExamples.node 1]
                (MetaExamples.autogen 1 0 [MetaExamples.truncated_group]) in
  let timestamp := MetaExamples.new_year + 45 * MetaExamples.minute in
  (∀ rp, rp ∈ policies_of data →
         truncation_inside (ShardGroups rp) ∧ disjoint_effective (ShardGroups rp))
  ∧ ∃ data1 err,
      CreateShardGroup MetaExamples.MaxNanoTime "db" "autogen" timestamp data =
        Some (data1, err)
      ∧ (∀ rp, rp ∈ policies_of data1 →
               truncation_inside (ShardGroups rp)
               ∧ disjoint_effective (ShardGroups rp)).
Proof.
  cbn zeta.
  assert (∀ rp,
            rp ∈ policies_of
                   (MetaExamples.cluster [MetaExamples.node 1]
                      (MetaExamples.autogen 1 0 [MetaExamples.truncated_group])) →
            truncation_inside (ShardGroups rp)
            ∧ disjoint_effective (ShardGroups rp)) as Hinv.
  { intros rp Hrp. apply list_elem_of_singleton in Hrp as ->. split.
    - constructor; [|constructor]. intros _ _. vm_compute. discriminate.
    - split; [constructor|exact I]. }
  split; [exact Hinv|].
  destruct (CreateShardGroup_disjoint MetaExamples.MaxNanoTime "db" "autogen"
              (MetaExamples.new_year + 45 * MetaExamples.minute) _ Hinv)
    as (data1 & err & Hcall & Hpost & _).
  exists data1, err. split; [exact Hcall|exact Hpost].
Defined.

(** The claim as written, with the intervals [StartTime, EndTime) of
    [Contains], fails: the store below has a single group, truncated half
    way through its hour; the call for a time after the truncation creates a
    group that starts at the truncation, and that time is contained in
    both groups. *)
Lemma truncated_group_overlaps :
  let data := MetaExamples.cluster [MetaExamples.node 1]
                (MetaExamples.autogen 1 0 [MetaExamples.truncated_group]) in
  let timestamp := MetaExamples.new_year + 45 * MetaExamples.minute in
  DataNodes data ≠ []
  ∧ (∀ rp, rp ∈ policies_of data → disjoint_raw (ShardGroups rp))
  ∧ ∃ data1 g,
      CreateShardGroup MetaExamples.MaxNanoTime "db" "autogen" timestamp data =
        Some (data1, None)
      ∧ policies_of data1 =
          [MetaExamples.autogen 1 0 [MetaExamples.truncated_group; g]]
      ∧ StartTime g = MetaExamples.new_year + 30 * MetaExamples.minute
      ∧ EndTime g = MetaExamples.new_year + MetaExamples.hour
      ∧ Deleted MetaExamples.truncated_group = false ∧ Deleted g = false
      ∧ Contains MetaExamples.truncated_group timestamp = true
      ∧ Contains g timestamp = true
      ∧ ¬ disjoint_raw [MetaExamples.truncated_group; g].
Proof.
  cbn zeta. split; [discriminate|]. split.
  { intros rp Hrp. apply list_elem_of_singleton in Hrp as ->.
    split; [constructor|exact I]. }
  eexists _, _. split; [vm_compute; reflexivity|].
  split; [vm_compute; reflexivity|].
  do 6 (split; [vm_compute; reflexivity|]).
  intros [Hsep _]. apply Forall_cons in Hsep as [Hsep _].
  apply (Hsep eq_refl eq_refl (MetaExamples.new_year + 45 * MetaExamples.minute)).
  split; vm_compute; reflexivity.
Defined.

(** ** DeleteDataNode *)

Lemma filter_length_eq {A} (P : A → Prop) `{∀ x, Decision (P x)} (l : list A) :
  length (filter P l) = length l → Forall P l.
Proof.
  induction l as [|x l IH]; [constructor|].
  rewrite filter_cons. destruct (decide (P x)) as [Hx|Hx]; simpl; intros Hlen.
  - constructor; [done|]. apply IH. lia.
  - pose proof (length_filter P l). lia.
Qed.

Lemma filter_all {A} (P : A → Prop) `{∀ x, Decision (P x)} (l : list A) :
  Forall P l → filter P l = l.
Proof.
  induction 1 as [|x l Hx Hl IH]; [done|].
  rewrite filter_cons. destruct (decide (P x)); [|done]. by rewrite IH.
Qed.

(** A loop with a fallible body fails only with an error of its body. *)
Lemma for_each_error {A} (body : nat → A → A * nat * option error)
    (P : error → Prop) k l l1 k1 e :
  (∀ k x x1 k1 e, body k x = (x1, k1, Some e) → P e) →
  for_each body k l = (l1, k1, Some e) → P e.
Proof.
  intros Hbody. revert k l1 k1. induction l as [|x l IH]; intros k l1 k1; [done|].
  simpl. destruct (body k x) as [[x1 k2] [err|]] eqn:Hx.
  - intros [= <- <- <-]. by eapply Hbody.
  - destruct (for_each body k2 l) as [[l2 k3] e2] eqn:Hl.
    intros [= <- <- ->]. by eapply IH.
Qed.

(** When the loop ends without error, the body ran on every element. *)
Lemma for_each_ok {A} (body : nat → A → A * nat * option error)
    (R : A → A → Prop) k l l1 k1 :
  (∀ k x x1 k1, body k x = (x1, k1, None) → R x x1) →
  for_each body k l = (l1, k1, None) → Forall2 R l l1.
Proof.
  intros Hbody. revert k l1 k1. induction l as [|x l IH]; intros k l1 k1.
  - intros [= <- <-]. constructor.
  - simpl. destruct (body k x) as [[x1 k2] [err|]] eqn:Hx; [done|].
    destruct (for_each body k2 l) as [[l2 k3] e2] eqn:Hl.
    intros [= <- <- ->]. constructor; [by eapply Hbody|by eapply IH].
Qed.

Lemma reassign_error rt k orphans freqs shards shards1 k1 e :
  reassign rt k orphans freqs shards = (shards1, k1, Some e) →
  ∃ shardID, e = ErrCannotReassign shardID.
Proof.
  revert k freqs shards. induction orphans as [|o rest IH]; intros k freqs shards;
    [done|].
  simpl. unfold newShardOwner.
  destruct (min_scan _ _ _) as [minId minFreq].
  destruct (minId <? 0).
  - intros [= <- <- <-]. eauto.
  - apply IH.
Qed.

Lemma DeleteDataNode_group_error rt id k sg sg1 k1 e :
  DeleteDataNode_group rt id k sg = (sg1, k1, Some e) →
  ∃ shardID, e = ErrCannotReassign shardID.
Proof.
  unfold DeleteDataNode_group.
  destruct (scan_shards _ _ _ _) as [[shards1 freqs] orphans].
  destruct (_ || _); [done|].
  destruct (reassign _ _ _ _ _) as [[shards2 k2] err] eqn:Hre.
  intros [= <- <- ->]. by eapply reassign_error.
Qed.

Lemma DeleteDataNode_db_error rt id k db db1 k1 e :
  DeleteDataNode_db rt id k db = (db1, k1, Some e) →
  ∃ shardID, e = ErrCannotReassign shardID.
Proof.
  unfold DeleteDataNode_db.
  destruct (for_each _ _ _) as [[rps k2] err] eqn:Hrps. intros [= <- <- ->].
  eapply (for_each_error _ (λ e, ∃ shardID, e = ErrCannotReassign shardID));
    [|exact Hrps].
  clear. intros k rp rp1 k1 e. unfold DeleteDataNode_rp.
  destruct (for_each _ _ _) as [[gs k2] err] eqn:Hgs. intros [= <- <- ->].
  eapply (for_each_error _ (λ e, ∃ shardID, e = ErrCannotReassign shardID));
    [|exact Hgs].
  intros ? ? ? ? ?. apply DeleteDataNode_group_error.
Qed.

(** An unknown node id gives [ErrNodeNotFound] and leaves the store as it
    is. For a known id the node list loses the nodes with that id and
    keeps the others in their order, also when the reassignment of an
    orphaned shard fails afterwards; the only error is then the one of
    [newShardOwner]. *)
Theorem DeleteDataNode_nodes (rt : Runtime) (id : Z) (data : Data) :
  (Forall (λ n, ni_ID n ≠ id) (DataNodes data) →
     DeleteDataNode rt id data = (data, Some ErrNodeNotFound))
  ∧ (Exists (λ n, ni_ID n = id) (DataNodes data) →
     DataNodes (DeleteDataNode rt id data).1 =
       filter (λ n, ni_ID n ≠ id) (DataNodes data)
     ∧ Forall (λ n, ni_ID n ≠ id) (DataNodes (DeleteDataNode rt id data).1)
     ∧ MetaNodes (DeleteDataNode rt id data).1 = MetaNodes data
     ∧ ∀ e, (DeleteDataNode rt id data).2 = Some e →
            ∃ shardID, e = ErrCannotReassign shardID).
Proof.
  unfold DeleteDataNode. split.
  - intros Hall. rewrite (filter_all _ _ Hall). by rewrite Nat.eqb_refl.
  - intros Hex.
    destruct (Nat.eqb_spec (length (filter (λ n, ni_ID n ≠ id) (DataNodes data)))
                (length (DataNodes data))) as [Hlen|Hlen].
    + apply filter_length_eq in Hlen. apply Exists_exists in Hex as (n & Hin & Hn).
      rewrite Forall_forall in Hlen. by destruct (Hlen n Hin).
    + destruct (for_each _ _ _) as [[dbs k] e] eqn:Hloop. simpl.
      repeat split; try done.
      * apply Forall_forall. intros n Hin. by apply list_elem_of_filter in Hin as [? _].
      * intros e' ->.
        eapply (for_each_error _ (λ e, ∃ shardID, e = ErrCannotReassign shardID));
          [|exact Hloop].
        intros ? ? ? ? ?. apply DeleteDataNode_db_error.
Qed.

(** *** newShardOwner *)

(** Once a key is held, the scan over entries whose keys are not [-1] ends
    on the first entry with the least count among the held one and the
    entries left. *)
Lemma min_scan_held entries minId minFreq :
  minId ≠ -1 → Forall (λ e, e.1 ≠ -1) entries →
  ∃ l1 l2,
    (minId, minFreq) :: entries = l1 ++ min_scan entries minId minFreq :: l2
    ∧ Forall (λ e, (min_scan entries minId minFreq).2 < e.2) l1
    ∧ Forall (λ e, (min_scan entries minId minFreq).2 ≤ e.2) l2.
Proof.
  intros Hne Hkeys. revert minId minFreq Hne.
  induction Hkeys as [|[id freq] rest Hid Hrest IH]; intros minId minFreq Hne.
  - exists [], []. simpl. repeat split; constructor.
  - cbn [min_scan]. destruct (Z.eqb_spec minId (-1)) as [|_]; [done|]. simpl.
    simpl in Hid.
    destruct (Z.ltb_spec freq minFreq) as [Hlt|Hge].
    + destruct (IH id freq Hid) as (l1 & l2 & Heq & H1 & H2).
      exists ((minId, minFreq) :: l1), l2. rewrite Heq. split; [done|].
      split; [|done]. constructor; [|done]. simpl.
      destruct l1 as [|e l1]; simpl in Heq.
      * injection Heq as Heq _. rewrite <- Heq. simpl. lia.
      * injection Heq as <- _. apply Forall_cons in H1 as [H1 _]. simpl in H1. lia.
    + destruct (IH minId minFreq Hne) as (l1 & l2 & Heq & H1 & H2).
      destruct l1 as [|e l1]; simpl in Heq.
      * injection Heq as Heq <-. exists [], ((id, freq) :: rest).
        rewrite <- Heq. simpl. split; [done|]. split; [constructor|].
        constructor; [simpl; lia|]. by rewrite <- Heq in H2.
      * injection Heq as <- Hrest1. exists ((minId, minFreq) :: (id, freq) :: l1), l2.
        simpl. split; [by do 2 f_equal|]. split; [|done].
        apply Forall_cons in H1 as [Hh H1]. simpl in Hh.
        constructor; [done|]. constructor; [simpl; lia|done].
Qed.

(** [newShardOwner] over entries whose keys are node ids below [2^63]: it
    fails exactly when there is no entry; otherwise it returns the key of
    the first entry, in the order of the iteration, whose count is the
    least, and adds one to the count of that key in the map. *)
Theorem newShardOwner_least (order : list (Z * Z)) (s : ShardInfo)
    (ownerFreqs : gmap Z Z) :
  Forall (λ e, 0 ≤ e.1 < U64.half) order →
  (order = [] →
     newShardOwner order s ownerFreqs =
       (inl (ErrCannotReassign (si_ID s)), ownerFreqs))
  ∧ (order ≠ [] →
     ∃ l1 id freq l2,
       order = l1 ++ (id, freq) :: l2
       ∧ Forall (λ e, freq < e.2) l1
       ∧ Forall (λ e, freq ≤ e.2) l2
       ∧ newShardOwner order s ownerFreqs =
           (inr id, <[id := default 0 (ownerFreqs !! id) + 1]> ownerFreqs)).
Proof.
  intros Hkeys. split; [by intros ->|].
  destruct order as [|[id0 f0] rest]; [done|]. intros _.
  apply Forall_cons in Hkeys as Hk. destruct Hk as [Hk0 Hkrest]. simpl in Hk0.
  destruct (min_scan_held rest id0 f0) as (l1 & l2 & Heq & H1 & H2); [lia| |].
  { eapply Forall_impl; [exact Hkrest|]. simpl. intros e He. lia. }
  unfold newShardOwner. cbn [min_scan]. simpl.
  destruct (min_scan rest id0 f0) as [id freq] eqn:Hscan. simpl in *.
  assert (0 ≤ id < U64.half) as Hid.
  { rewrite Forall_forall in Hkeys. apply (Hkeys (id, freq)).
    rewrite Heq. apply elem_of_app. right. left. }
  exists l1, id, freq, l2. split; [done|]. split; [done|]. split; [done|].
  destruct (Z.ltb_spec id 0); [lia|].
  unfold U64.of_int, bump. rewrite Z.mod_small; [done|].
  unfold U64.half, U64.modulus in *. lia.
Qed.

(** The theorem at two entries with the same count. *)
Lemma newShardOwner_least_witness :
  Forall (λ e : Z * Z, 0 ≤ e.1 < U64.half) [(3, 1); (2, 1)]
  ∧ ([(3, 1); (2, 1)] ≠ [] →
     ∃ l1 id freq l2,
       [(3, 1); (2, 1)] = l1 ++ (id, freq) :: l2
       ∧ Forall (λ e, freq < e.2) l1
       ∧ Forall (λ e, freq ≤ e.2) l2
       ∧ newShardOwner [(3, 1); (2, 1)] (mkShardInfo 7 []) {[3 := 1; 2 := 1]} =
           (inr id,
            <[id := default 0 (({[3 := 1; 2 := 1]} : gmap Z Z) !! id) + 1]>
              {[3 := 1; 2 := 1]})).
Proof.
  assert (Forall (λ e : Z * Z, 0 ≤ e.1 < U64.half) [(3, 1); (2, 1)]) as Hk.
  { repeat constructor; simpl; unfold U64.half; lia. }
  split; [exact Hk|].
  exact (proj2 (newShardOwner_least [(3, 1); (2, 1)] (mkShardInfo 7 [])
                  {[3 := 1; 2 := 1]} Hk)).
Defined.

(** *** The loop over the shards of a group *)

Lemma bump_lookup k m k1 :
  bump k m !! k1 = if decide (k = k1) then Some (default 0 (m !! k) + 1) else m !! k1.
Proof. unfold bump. apply lookup_insert. Qed.

Lemma to_int_inj x y :
  0 ≤ x < U64.modulus → 0 ≤ y < U64.modulus → U64.to_int x = U64.to_int y → x = y.
Proof.
  unfold U64.to_int, U64.half, U64.modulus. intros Hx Hy.
  destruct (Z.ltb_spec x 9223372036854775808);
    destruct (Z.ltb_spec y 9223372036854775808); lia.
Qed.

Lemma to_int_range x :
  0 ≤ x < U64.modulus → - U64.half ≤ U64.to_int x < U64.half.
Proof.
  unfold U64.to_int, U64.half, U64.modulus. intros Hx.
  destruct (Z.ltb_spec x 9223372036854775808); lia.
Qed.

Lemma add_count_S c v : add_count c (Some (default 0 v + 1)) = add_count (S c) v.
Proof. destruct c; simpl; [f_equal; lia|f_equal; lia]. Qed.

Lemma scan_owners_freqs id i owners acc f key :
  (scan_owners id i owners acc f).2 !! key =
    add_count (length (filter (λ o, U64.to_int (NodeID o) = key) owners)) (f !! key).
Proof.
  revert i acc f. induction owners as [|o rest IH]; intros i acc f; [done|].
  cbn [scan_owners]. rewrite IH, bump_lookup, filter_cons.
  destruct (decide (U64.to_int (NodeID o) = key)) as [->|Hne]; [|done].
  simpl length. apply add_count_S.
Qed.

Lemma add_count_add c1 c2 v : add_count c2 (add_count c1 v) = add_count (c1 + c2) v.
Proof.
  destruct c1, c2; simpl; try done; [by rewrite Nat.add_0_r|f_equal; lia].
Qed.

Lemma scan_shards_freqs id shards f orph key :
  (scan_shards id shards f orph).1.2 !! key =
    add_count (length (filter (λ o, U64.to_int (NodeID o) = key) (shards ≫= Owners)))
      (f !! key).
Proof.
  revert f orph. induction shards as [|s rest IH]; intros f orph; [done|].
  cbn [scan_shards].
  destruct (scan_owners id 0 (Owners s) None f) as [nodeIdx f1] eqn:Hs.
  match goal with |- context [scan_shards id rest f1 ?o] =>
    specialize (IH f1 o); destruct (scan_shards id rest f1 o) as [[r1 f2] o2] end.
  simpl in *. rewrite IH.
  pose proof (scan_owners_freqs id 0 (Owners s) None f key) as Hf.
  rewrite Hs in Hf. simpl in Hf. rewrite Hf, add_count_add.
  by rewrite filter_app, length_app.
Qed.

(** The frequency map of a group: for every node, the number of owner
    entries it has in the group, and no entry for a node that has none. *)
Theorem scan_shards_frequencies (id : Z) (shards : list ShardInfo) (n : Z) :
  Forall (λ o, 0 ≤ NodeID o < U64.modulus) (shards ≫= Owners) →
  0 ≤ n < U64.modulus →
  (scan_shards id shards ∅ []).1.2 !! U64.to_int n =
    match owner_slots n shards with
    | O => None
    | S c => Some (Z.of_nat (S c))
    end.
Proof.
  intros Hrange Hn. rewrite scan_shards_freqs, lookup_empty. unfold owner_slots.
  assert (filter (λ o, U64.to_int (NodeID o) = U64.to_int n) (shards ≫= Owners)
          = filter (λ o, NodeID o = n) (shards ≫= Owners)) as ->.
  { induction Hrange as [|o l Ho Hl IH]; [done|].
    rewrite !filter_cons, IH.
    destruct (decide (U64.to_int (NodeID o) = U64.to_int n)) as [He|He];
      destruct (decide (NodeID o = n)) as [He1|He1]; try done.
    - by apply to_int_inj in He.
    - by rewrite He1 in He. }
  destruct (length _); simpl; [done|]. f_equal.
Qed.

(** The theorem at three shards over three nodes, for node 2. *)
Lemma scan_shards_frequencies_witness :
  Forall (λ o, 0 ≤ NodeID o < U64.modulus) (MetaExamples.three_shards ≫= Owners)
  ∧ 0 ≤ 2 < U64.modulus
  ∧ (scan_shards 2 MetaExamples.three_shards ∅ []).1.2 !! U64.to_int 2 =
      match owner_slots 2 MetaExamples.three_shards with
      | O => None
      | S c => Some (Z.of_nat (S c))
      end.
Proof.
  assert (Forall (λ o, 0 ≤ NodeID o < U64.modulus)
            (MetaExamples.three_shards ≫= Owners)) as Hr.
  { repeat constructor; simpl; unfold U64.modulus; lia. }
  assert (0 ≤ 2 < U64.modulus) as Hn by (unfold U64.modulus; lia).
  split; [exact Hr|]. split; [exact Hn|].
  exact (scan_shards_frequencies 2 MetaExamples.three_shards 2 Hr Hn).
Defined.

(** *** Taking the node out of a shard *)

Lemma scan_owners_absent id i owners acc f :
  Forall (λ o, NodeID o ≠ id) owners →
  (scan_owners id i owners acc f).1 = acc.
Proof.
  intros Hall. revert i acc f.
  induction Hall as [|o rest Ho Hrest IH]; intros i acc f; [done|].
  cbn [scan_owners]. destruct (Z.eqb_spec (NodeID o) id); [done|]. apply IH.
Qed.

(** With the node listed once at most, the owners written back are the
    owners other than the node. *)
Lemma scan_owners_strip id owners f :
  NoDup (NodeID <$> owners) →
  match (scan_owners id 0 owners None f).1 with
  | Some i => remove_at i owners
  | None => owners
  end = filter (λ o, NodeID o ≠ id) owners.
Proof.
  intros Hnd.
  assert (∀ i acc f,
            (scan_owners id i owners acc f).1 =
              match list_find (λ o, NodeID o = id) owners with
              | Some (j, _) => Some (i + j)%nat
              | None => acc
              end) as Hidx.
  { clear f. induction owners as [|o rest IH]; intros i acc f; [done|].
    cbn [scan_owners list_find]. apply NoDup_cons in Hnd as [Hin Hnd].
    destruct (Z.eqb_spec (NodeID o) id) as [He|He].
    - destruct (decide (NodeID o = id)); [|done]. simpl.
      rewrite scan_owners_absent; [by rewrite Nat.add_0_r|].
      apply Forall_forall. intros o1 Ho1 Hid. apply Hin.
      rewrite He, <- Hid. apply list_elem_of_fmap. eauto.
    - destruct (decide (NodeID o = id)); [done|]. rewrite IH by done.
      destruct (list_find _ rest) as [[j o1]|]; simpl; [f_equal; lia|done]. }
  rewrite Hidx. clear Hidx f.
  induction owners as [|o rest IH]; [done|].
  apply NoDup_cons in Hnd as [Hin Hnd]. cbn [list_find]. rewrite filter_cons.
  destruct (decide (NodeID o = id)) as [He|He]; simpl.
  - destruct (decide (NodeID o ≠ id)); [done|].
    unfold remove_at. simpl. rewrite drop_0. symmetry. apply filter_all.
    apply Forall_forall. intros o1 Ho1 Hid. apply Hin.
    rewrite He, <- Hid. apply list_elem_of_fmap. eauto.
  - destruct (decide (NodeID o ≠ id)); [|done]. specialize (IH Hnd).
    destruct (list_find _ rest) as [[j o1]|]; simpl in *.
    + unfold remove_at in *. simpl. by rewrite IH.
    + by f_equal.
Qed.

Lemma scan_shards_shards id shards f orph :
  Forall (λ s, NoDup (NodeID <$> Owners s)) shards →
  (scan_shards id shards f orph).1.1 = without_owner id <$> shards
  ∧ (scan_shards id shards f orph).2 =
      orph ++ filter (λ s, Owners s = []) (without_owner id <$> shards).
Proof.
  intros Hall. revert f orph.
  induction Hall as [|s rest Hs Hrest IH]; intros f orph.
  - simpl. by rewrite app_nil_r.
  - cbn [scan_shards].
    pose proof (scan_owners_strip id (Owners s) f Hs) as Hstrip.
    destruct (scan_owners id 0 (Owners s) None f) as [nodeIdx f1] eqn:Hscan.
    simpl in Hstrip.
    assert (match nodeIdx with
            | Some i => set_Owners (remove_at i (Owners s)) s
            | None => s
            end = without_owner id s) as ->.
    { unfold without_owner. rewrite <- Hstrip. destruct nodeIdx; [done|].
      by destruct s. }
    match goal with |- context [scan_shards id rest f1 ?o] =>
      destruct (IH f1 o) as [IH1 IH2];
      destruct (scan_shards id rest f1 o) as [[r1 f2] o2] end.
    simpl in *. rewrite IH1, IH2. split; [done|].
    rewrite filter_cons. unfold without_owner at 2. simpl.
    change (list_fmap ShardInfo ShardInfo (without_owner id) rest)
      with (without_owner id <$> rest).
    destruct (filter (λ o, NodeID o ≠ id) (Owners s)) as [|o os]; simpl.
    + destruct (decide (@nil ShardOwner = [])); [|done]. by rewrite <- app_assoc.
    + destruct (decide (o :: os = [])); done.
Qed.

(** *** Handing orphaned shards to new owners *)

Lemma Forall2_compose {A B C} (R1 : A → B → Prop) (R2 : B → C → Prop)
    (R : A → C → Prop) l1 l2 l3 :
  (∀ x y z, R1 x y → R2 y z → R x z) →
  Forall2 R1 l1 l2 → Forall2 R2 l2 l3 → Forall2 R l1 l3.
Proof.
  intros Hcomp H12. revert l3. induction H12 as [|x y l1 l2 Hxy H12 IH]; intros l3 H23.
  - inversion H23. constructor.
  - inversion H23 as [|? z ? l3' Hyz H23']; subst. constructor; eauto.
Qed.

Lemma Forall2_guard {A B} (P : A → Prop) (R : A → B → Prop) l l1 :
  Forall P l → Forall2 (λ x y, P x → R x y) l l1 → Forall2 R l l1.
Proof.
  intros HP H2. induction H2 as [|x y l l1 Hxy H2 IH]; [constructor|].
  apply Forall_cons in HP as [Hx HP]. constructor; auto.
Qed.

Lemma Forall2_same {A} (R : A → A → Prop) l :
  (∀ x, R x x) → Forall2 R l l.
Proof. intros HR. induction l; constructor; auto. Qed.

Lemma min_scan_in entries minId minFreq :
  min_scan entries minId minFreq ∈ (minId, minFreq) :: entries.
Proof.
  revert minId minFreq. induction entries as [|[id freq] rest IH];
    intros minId minFreq; [left|].
  cbn [min_scan]. destruct (_ || _).
  - right. apply IH.
  - specialize (IH minId minFreq). apply elem_of_cons in IH as [->|IH];
      [left|right; right; done].
Qed.

(** A new owner is a key of the frequency map, and its count alone grows. *)
Lemma newShardOwner_key rt k orphan (freqs : gmap Z Z) v freqs1 :
  fair_range rt →
  newShardOwner (range_order rt k freqs) orphan freqs = (inr v, freqs1) →
  ∃ key, is_Some (freqs !! key) ∧ 0 ≤ key
         ∧ v = U64.of_int key ∧ freqs1 = bump key freqs.
Proof.
  intros Hfair. unfold newShardOwner.
  pose proof (min_scan_in (range_order rt k freqs) (-1) 0) as Hin.
  destruct (min_scan _ _ _) as [minId minFreq].
  destruct (Z.ltb_spec minId 0) as [|Hpos]; [done|]. intros [= <- <-].
  exists minId. repeat split; try done.
  apply elem_of_cons in Hin as [[= -> _]|Hin]; [lia|].
  rewrite (Hfair k freqs) in Hin. apply elem_of_map_to_list in Hin. eauto.
Qed.

Lemma add_owner_rel orphanID v shards :
  Forall2 (λ s s1, si_ID s1 = si_ID s
                   ∧ (Owners s1 = Owners s
                      ∨ Owners s1 = Owners s ++ [mkShardOwner v]))
    shards (add_owner orphanID v shards).
Proof.
  induction shards as [|s rest IH]; simpl; [constructor|].
  destruct (si_ID s =? orphanID).
  - constructor; [simpl; auto|]. apply Forall2_same. auto.
  - constructor; [auto|done].
Qed.

Lemma add_owner_fills orphanID v shards :
  NoDup (si_ID <$> shards) →
  Forall (λ s1, si_ID s1 = orphanID → Owners s1 ≠ []) (add_owner orphanID v shards).
Proof.
  induction shards as [|s rest IH]; simpl; intros Hnd; [constructor|].
  apply NoDup_cons in Hnd as [Hin Hnd].
  destruct (Z.eqb_spec (si_ID s) orphanID) as [He|He].
  - constructor.
    + simpl. intros _. by destruct (Owners s).
    + apply Forall_forall. intros s1 Hs1 Hid. exfalso. apply Hin.
      rewrite He, <- Hid. apply list_elem_of_fmap. eauto.
  - constructor; [done|]. by apply IH.
Qed.

Lemma reassign_ok rt id k orphans freqs shards shards1 k1 :
  fair_range rt → 0 ≤ id < U64.modulus → candidate_keys id freqs →
  NoDup (si_ID <$> shards) →
  reassign rt k orphans freqs shards = (shards1, k1, None) →
  Forall2 (λ s s1,
             si_ID s1 = si_ID s
             ∧ (∃ extra, Owners s1 = Owners s ++ extra
                         ∧ Forall (λ o, NodeID o ≠ id) extra)
             ∧ (si_ID s ∈ si_ID <$> orphans → Owners s1 ≠ []))
    shards shards1.
Proof.
  intros Hfair Hid. revert k freqs shards.
  induction orphans as [|o rest IH]; intros k freqs shards Hkeys Hnd.
  - intros [= <- <-]. apply Forall2_same_length_lookup. split; [done|].
    intros i s s1 Hs Hs1. rewrite Hs in Hs1. injection Hs1 as <-.
    split; [done|]. split; [exists []; by rewrite app_nil_r|].
    simpl. by intros ?%elem_of_nil.
  - cbn [reassign].
    destruct (newShardOwner _ o freqs) as [[err|v] freqs1] eqn:Hnew; [done|].
    apply newShardOwner_key in Hnew as (key & Hsome & Hpos & -> & ->); [|done].
    destruct (Hkeys key Hsome) as [Hrange Hne].
    assert (U64.of_int key = key) as Hof.
    { unfold U64.of_int. apply Z.mod_small. unfold U64.half, U64.modulus in *. lia. }
    assert (key ≠ id) as Hkid.
    { intros ->. apply Hne. unfold U64.to_int.
      destruct (Z.ltb_spec id U64.half); [done|lia]. }
    rewrite Hof. intros Hre.
    pose proof (add_owner_rel (si_ID o) key shards) as Hrel.
    pose proof (add_owner_fills (si_ID o) key shards Hnd) as Hfill.
    assert (si_ID <$> add_owner (si_ID o) key shards = si_ID <$> shards) as Hids.
    { clear -Hrel. induction Hrel as [|s s1 l l1 [He _] _ IH]; [done|].
      rewrite !fmap_cons. by f_equal. }
    apply IH in Hre; [| |by rewrite Hids].
    2:{ intros key1 Hk1. apply Hkeys. rewrite bump_lookup in Hk1.
        destruct (decide (key = key1)) as [<-|]; done. }
    assert (Forall2 (λ s s1, (si_ID s1 = si_ID s
                              ∧ (Owners s1 = Owners s
                                 ∨ Owners s1 = Owners s ++ [mkShardOwner key]))
                             ∧ (si_ID s1 = si_ID o → Owners s1 ≠ []))
              shards (add_owner (si_ID o) key shards)) as Hstep.
    { apply Forall2_same_length_lookup. split; [by eapply Forall2_length|].
      intros i s s1 Hs Hs1. split.
      - by eapply (Forall2_lookup_lr _ _ _ _ _ _ Hrel).
      - rewrite Forall_forall in Hfill. apply Hfill.
        by eapply list_elem_of_lookup_2. }
    eapply Forall2_compose; [|exact Hstep|exact Hre].
    intros s s1 s2 [[He1 Ho1] Hf1] (He2 & (extra & Ho2 & Hex) & Hf2).
    split; [congruence|]. split.
    + destruct Ho1 as [Ho1|Ho1]; rewrite Ho2, Ho1.
      * eauto.
      * exists (mkShardOwner key :: extra). rewrite <- app_assoc. split; [done|].
        constructor; [done|done].
    + intros Hin. simpl in Hin. apply elem_of_cons in Hin as [Hin|Hin].
      * rewrite Ho2. specialize (Hf1 ltac:(congruence)).
        destruct (Owners s1); [done|]. done.
      * apply Hf2. by rewrite He1.
Qed.

(** *** The groups after the call *)

Lemma filter_nil_not {A} (P : A → Prop) `{∀ x, Decision (P x)} (l : list A) :
  filter P l = [] ↔ Forall (λ x, ¬ P x) l.
Proof.
  induction l as [|x l IH]; [split; [constructor|done]|].
  rewrite filter_cons. destruct (decide (P x)) as [Hx|Hx].
  - split; [done|]. intros Hall. apply Forall_cons in Hall as [? _]. done.
  - rewrite IH. split; [by constructor|]. intros Hall.
    by apply Forall_cons in Hall as [_ ?].
Qed.

Lemma without_owner_orphaned id s :
  Owners (without_owner id s) = [] ↔ orphaned_by id s.
Proof.
  unfold without_owner, orphaned_by. simpl. rewrite filter_nil_not.
  apply Forall_iff. intros o. split; [|by intros ? ?].
  intros Hn. destruct (decide (NodeID o = id)); [done|contradiction].
Qed.

(** The test that marks a group deleted. *)
Lemma tombstone_test id shards :
  (length shards =? 0)%nat
  || (length (filter (λ s, Owners s = []) (without_owner id <$> shards))
      =? length shards)%nat = true
  ↔ Forall (orphaned_by id) shards.
Proof.
  rewrite orb_true_iff, !Nat.eqb_eq. split.
  - intros [Hz|Hlen].
    + destruct shards; [constructor|done].
    + assert (length shards = length (without_owner id <$> shards)) as Hl
        by (by rewrite length_fmap).
      rewrite Hl in Hlen.
      apply filter_length_eq in Hlen. rewrite Forall_fmap in Hlen.
      eapply Forall_impl; [exact Hlen|]. intros s Hs.
      by apply without_owner_orphaned.
  - intros Hall. right. rewrite filter_all; [by rewrite length_fmap|].
    rewrite Forall_fmap. eapply Forall_impl; [exact Hall|]. intros s Hs.
    by apply without_owner_orphaned.
Qed.

Lemma add_count_None_is_Some c : is_Some (add_count c None) → c ≠ O.
Proof. destruct c; [by intros [? ?]|done]. Qed.

Lemma scan_shards_candidate_keys id shards :
  Forall (λ o, 0 ≤ NodeID o < U64.modulus) (shards ≫= Owners) →
  candidate_keys id (delete (U64.to_int id) (scan_shards id shards ∅ []).1.2).
Proof.
  intros Hrange key Hsome. rewrite lookup_delete in Hsome.
  case_decide as Hk; [by destruct Hsome|]. split; [|done].
  rewrite scan_shards_freqs, lookup_empty in Hsome.
  apply add_count_None_is_Some in Hsome.
  destruct (filter _ _) as [|o l] eqn:Hf; [done|].
  assert (o ∈ filter (λ o, U64.to_int (NodeID o) = key) (shards ≫= Owners)) as Hin
    by (rewrite Hf; left).
  apply list_elem_of_filter in Hin as [<- Hin].
  rewrite Forall_forall in Hrange. apply to_int_range. by apply Hrange.
Qed.

Lemma DeleteDataNode_group_ok rt id k g g1 k1 :
  fair_range rt → 0 ≤ id < U64.modulus → well_owned g →
  DeleteDataNode_group rt id k g = (g1, k1, None) →
  group_after_delete rt id g g1.
Proof.
  intros Hfair Hid [Hnd Hshards]. unfold DeleteDataNode_group.
  assert (Forall (λ s, NoDup (NodeID <$> Owners s)) (Shards g)) as Hnds.
  { eapply Forall_impl; [exact Hshards|]. by intros s [? _]. }
  assert (Forall (λ o, 0 ≤ NodeID o < U64.modulus) (Shards g ≫= Owners)) as Hrange.
  { apply Forall_bind. eapply Forall_impl; [exact Hshards|]. by intros s [_ ?]. }
  pose proof (scan_shards_shards id (Shards g) ∅ [] Hnds) as [Hs1 Horph].
  pose proof (scan_shards_candidate_keys id (Shards g) Hrange) as Hkeys.
  destruct (scan_shards id (Shards g) ∅ []) as [[shards1 freqs] orph].
  simpl in Hs1, Horph, Hkeys. subst shards1 orph.
  assert (si_ID <$> (without_owner id <$> Shards g) = si_ID <$> Shards g) as Hids.
  { rewrite <- list_fmap_compose. by apply list_fmap_ext. }
  assert (Forall (λ s1, Forall (λ o, NodeID o ≠ id) (Owners s1))
            (without_owner id <$> Shards g)) as Hclean.
  { rewrite Forall_fmap. apply Forall_forall. intros s _. simpl.
    apply Forall_forall. intros o Ho. by apply list_elem_of_filter in Ho as [? _]. }
  pose proof (tombstone_test id (Shards g)) as Htest.
  destruct (_ || _) eqn:Hcond.
  - intros [= <- <-]. unfold group_after_delete. simpl.
    do 4 (split; [done|]). split; [done|]. split; [done|]. split.
    + intros _. split; [eauto|]. rewrite Forall_fmap. destruct Htest as [Htest _].
      eapply Forall_impl; [exact (Htest eq_refl)|]. intros s Hs.
      by apply without_owner_orphaned.
    + intros Hn. destruct Hn. by apply Htest.
  - destruct (reassign _ _ _ _ _) as [[shards2 k2] err] eqn:Hre.
    intros [= <- <- ->].
    apply (reassign_ok rt id) in Hre; [|done|done|done|by rewrite Hids].
    apply Forall2_fmap_l in Hre.
    assert (¬ Forall (orphaned_by id) (Shards g)) as Hnot.
    { intros Hall. apply Htest in Hall. congruence. }
    unfold group_after_delete. simpl. do 4 (split; [done|]).
    split; [|split; [|split; [done|]]].
    + clear -Hre. induction Hre as [|s s1 l l1 (He & _) _ IH]; [done|].
      rewrite !fmap_cons. f_equal; [done|exact IH].
    + clear -Hre. induction Hre as [|s s1 l l1 (_ & (extra & Ho & Hex) & _) _ IH];
        constructor; [|done].
      rewrite Ho. apply Forall_app. split; [|done]. simpl.
      apply Forall_forall. intros o Hin. by apply list_elem_of_filter in Hin as [? _].
    + intros _. split; [done|]. split.
      * apply Forall_forall. intros s1 Hs1.
        apply list_elem_of_lookup in Hs1 as [i Hi].
        destruct (Forall2_lookup_r _ _ _ _ _ Hre Hi)
          as (s & Hs & He & (extra & Ho & Hex) & Hfill).
        destruct (Owners (without_owner id s)) as [|o os] eqn:Hos.
        -- apply Hfill. apply list_elem_of_fmap. exists (without_owner id s).
           split; [done|]. apply list_elem_of_filter. split; [done|].
           apply list_elem_of_fmap. exists s. split; [done|].
           by eapply list_elem_of_lookup_2.
        -- rewrite Ho. done.
      * clear -Hre.
        induction Hre as [|s s1 l l1 (_ & (extra & Ho & _) & _) _ IH];
          constructor; [|done]. eauto.
Qed.

(** After a successful [DeleteDataNode], in a store whose groups have
    unique shard IDs and whose shards list a node once: the node owns no
    shard; a group is marked deleted by the call exactly when it had no
    shard or none of its shards had another owner; in every other group
    [DeletedAt] is untouched, each shard keeps its other owners and every
    shard has at least one owner. *)
Theorem DeleteDataNode_groups (rt : Runtime) (id : Z) (data data1 : Data) :
  fair_range rt → 0 ≤ id < U64.modulus →
  Forall well_owned (groups_of data) →
  DeleteDataNode rt id data = (data1, None) →
  Forall2 (group_after_delete rt id) (groups_of data) (groups_of data1).
Proof.
  intros Hfair Hid Hwf. unfold DeleteDataNode.
  destruct (_ =? _)%nat; [done|].
  destruct (for_each _ _ _) as [[dbs k] e] eqn:Hloop. intros [= <- ->].
  apply Forall2_guard with (P := well_owned); [done|].
  unfold groups_of. simpl. apply Forall2_bind.
  eapply for_each_ok; [|exact Hloop]. clear -Hfair Hid. intros k db db1 k1.
  unfold DeleteDataNode_db.
  destruct (for_each _ _ _) as [[rps k2] e] eqn:Hrps. intros [= <- <- ->].
  unfold groups_of_db. simpl. apply Forall2_bind.
  eapply for_each_ok; [|exact Hrps]. clear -Hfair Hid. intros k rp rp1 k1.
  unfold DeleteDataNode_rp.
  destruct (for_each _ _ _) as [[gs k2] e] eqn:Hgs. intros [= <- <- ->]. simpl.
  eapply for_each_ok; [|exact Hgs]. clear -Hfair Hid. intros k g g1 k1 Hg Hwf.
  by eapply DeleteDataNode_group_ok.
Qed.

(** The theorem at a store of three nodes whose group has three shards
    with two owners each, for node 2. *)
Lemma DeleteDataNode_groups_witness :
  let data := MetaExamples.cluster [MetaExamples.node 1; MetaExamples.node 2;
                                    MetaExamples.node 3]
                (MetaExamples.autogen 2 0 [MetaExamples.three_shard_group]) in
  fair_range MetaExamples.steady
  ∧ 0 ≤ 2 < U64.modulus
  ∧ Forall well_owned (groups_of data)
  ∧ ∃ data1,
      DeleteDataNode MetaExamples.steady 2 data = (data1, None)
      ∧ Forall2 (group_after_delete MetaExamples.steady 2)
          (groups_of data) (groups_of data1).
Proof.
  cbn zeta.
  assert (fair_range MetaExamples.steady) as Hfair by (intros k m; reflexivity).
  assert (0 ≤ 2 < U64.modulus) as Hid by (unfold U64.modulus; lia).
  assert (Forall well_owned
            (groups_of
               (MetaExamples.cluster
                  [MetaExamples.node 1; MetaExamples.node 2; MetaExamples.node 3]
                  (MetaExamples.autogen 2 0 [MetaExamples.three_shard_group]))))
    as Hwf.
  { constructor; [|constructor]. split.
    - simpl. repeat constructor; rewrite ?not_elem_of_cons; simpl;
        repeat split; try lia; apply not_elem_of_nil.
    - repeat constructor; simpl; rewrite ?not_elem_of_cons;
        repeat split; try (unfold U64.modulus; lia); try apply not_elem_of_nil. }
  split; [exact Hfair|]. split; [exact Hid|]. split; [exact Hwf|].
  eexists. split; [vm_compute; reflexivity|].
  refine (DeleteDataNode_groups MetaExamples.steady 2 _ _ Hfair Hid Hwf _).
  vm_compute. reflexivity.
Defined.


(** C4, at an input where the code does not do what the claim says. Of
    the data nodes 1, 2 and 3, node 1 owns the first shard of the group,
    node 2 the second, and node 3 none. When node 1 is deleted the first
    shard is orphaned. Node 3 survives and owns the fewest shards of the
    group, none; but the candidates are the keys of the frequency map,
    the nodes that own a shard of the group, so the shard goes to node 2,
    which then owns both. *)
Theorem idle_node_is_passed_over :
  let group :=
    mkShardGroupInfo 1 MetaExamples.new_year
      (MetaExamples.new_year + MetaExamples.hour) 0
      [mkShardInfo 1 [mkShardOwner 1]; mkShardInfo 2 [mkShardOwner 2]] 0 in
  let data :=
    MetaExamples.cluster
      [MetaExamples.node 1; MetaExamples.node 2; MetaExamples.node 3]
      (MetaExamples.autogen 1 0 [group]) in
  owner_slots 3 (Shards group) = 0%nat
  ∧ owner_slots 2 (Shards group) = 1%nat
  ∧ ∃ data1 group1,
      DeleteDataNode MetaExamples.steady 1 data = (data1, None)
      ∧ DataNodes data1 = [MetaExamples.node 2; MetaExamples.node 3]
      ∧ groups_of data1 = [group1]
      ∧ DeletedAt group1 = 0
      ∧ Shards group1 =
          [mkShardInfo 1 [mkShardOwner 2]; mkShardInfo 2 [mkShardOwner 2]].
Proof.
  cbn zeta. split; [reflexivity|]. split; [reflexivity|].
  eexists _, _. split; [vm_compute; reflexivity|].
  split; [reflexivity|]. split; [reflexivity|]. split; reflexivity.
Qed.
(** ** CopyShardOwner and RemoveShardOwner *)

Lemma set_Owners_eta s : set_Owners (Owners s) s = s.
Proof. by destruct s. Qed.

Lemma set_Shards_eta g : set_Shards (Shards g) g = g.
Proof. by destruct g. Qed.

Lemma set_ShardGroups_eta rp : set_ShardGroups (ShardGroups rp) rp = rp.
Proof. by destruct rp. Qed.

Lemma set_RetentionPolicies_eta db :
  set_RetentionPolicies (RetentionPolicies db) db = db.
Proof. by destruct db. Qed.

Lemma set_Databases_eta data : set_Databases (Databases data) data = data.
Proof. by destruct data. Qed.

Lemma first_update_at {A} (f : A → option A) l1 x x' l2 :
  Forall (λ y, f y = None) l1 → f x = Some x' →
  first_update f (l1 ++ x :: l2) = Some (l1 ++ x' :: l2).
Proof.
  intros Hall Hx. induction Hall as [|y l1 Hy _ IH]; simpl.
  - by rewrite Hx.
  - by rewrite Hy, IH.
Qed.

Lemma groups_of_plug c sg data :
  groups_of (plug c sg data) = groups_before c ++ sg :: groups_after c.
Proof.
  unfold groups_of, plug, groups_before, groups_after. simpl.
  rewrite bind_app, bind_cons. unfold groups_of_db at 2. simpl.
  rewrite bind_app, bind_cons. simpl.
  rewrite <- ?app_assoc. simpl. by rewrite <- ?app_assoc.
Qed.

Lemma plug_plug c sg sg' data : plug c sg (plug c sg' data) = plug c sg data.
Proof. done. Qed.

(** The loops skip the groups that do not hold the shard and run the body
    on the first that does. *)
Lemma first_group_plug f id c sg sg' data :
  (∀ g, ¬ holds id g → f g = None) →
  Forall (λ g, ¬ holds id g) (groups_before c) →
  f sg = Some sg' →
  first_group f (plug c sg data) = plug c sg' data.
Proof.
  intros Hf Hbefore Hsg. unfold groups_before in Hbefore.
  rewrite !Forall_app, !Forall_bind in Hbefore.
  destruct Hbefore as (Hdbs & Hrps & Hsgs).
  unfold first_group, plug. simpl.
  erewrite first_update_at; [done| |].
  - eapply Forall_impl; [exact Hdbs|]. intros db Hdb. simpl.
    apply fmap_None, first_update_None.
    unfold compose, groups_of_db in Hdb. rewrite Forall_bind in Hdb.
    eapply Forall_impl; [exact Hdb|]. intros rp Hrp. unfold compose in Hrp. simpl.
    apply fmap_None, first_update_None.
    eapply Forall_impl; [exact Hrp|]. intros g Hg. by apply Hf.
  - simpl. erewrite first_update_at; [done| |].
    + eapply Forall_impl; [exact Hrps|]. intros rp Hrp. unfold compose in Hrp. simpl.
      apply fmap_None, first_update_None.
      eapply Forall_impl; [exact Hrp|]. intros g Hg. by apply Hf.
    + simpl. erewrite first_update_at; [done| |exact Hsg].
      eapply Forall_impl; [exact Hsgs|]. intros g Hg. by apply Hf.
Qed.

Lemma first_group_clear f id data :
  (∀ g, ¬ holds id g → f g = None) →
  Forall (λ g, ¬ holds id g) (groups_of data) →
  first_group f data = data.
Proof.
  intros Hf Hall. unfold first_group.
  replace (first_update _ (Databases data)) with (@None (list DatabaseInfo)); [done|].
  symmetry. apply first_update_None.
  unfold groups_of in Hall. rewrite Forall_bind in Hall.
  eapply Forall_impl; [exact Hall|]. intros db Hdb. simpl.
  apply fmap_None, first_update_None.
  unfold compose, groups_of_db in Hdb. rewrite Forall_bind in Hdb.
  eapply Forall_impl; [exact Hdb|]. intros rp Hrp. unfold compose in Hrp. simpl.
  apply fmap_None, first_update_None.
  eapply Forall_impl; [exact Hrp|]. intros g Hg. by apply Hf.
Qed.

Lemma filter_id_clear id (gs : list ShardGroupInfo) :
  Forall (λ g, ¬ holds id g) gs →
  filter (λ s, si_ID s = id) (gs ≫= Shards) = [].
Proof.
  intros Hall. apply filter_nil_not, Forall_bind.
  eapply Forall_impl; [exact Hall|]. intros g Hg. simpl.
  apply Forall_forall. intros s Hin Hid. apply Hg. by exists s.
Qed.

Lemma located_plug id c sg data found s :
  Forall (λ g, ¬ holds id g) (groups_before c) →
  find_shard id (Shards sg) = Some found →
  Shards sg !! found = Some s →
  located id (plug c sg data) = Some s.
Proof.
  intros Hbefore Hfound Hlook. unfold located, shards_of.
  rewrite groups_of_plug, bind_app, bind_cons, !filter_app.
  rewrite (filter_id_clear _ _ Hbefore). simpl.
  apply find_shard_Some in Hfound as (s' & Hlook' & Hid & Hpre).
  rewrite Hlook in Hlook'. injection Hlook' as <-.
  rewrite <- (take_drop_middle _ _ _ Hlook), filter_app.
  replace (filter _ (take found (Shards sg))) with (@nil ShardInfo).
  2:{ symmetry. by apply filter_nil_not. }
  simpl. rewrite filter_cons. by destruct (decide (si_ID s = id)).
Qed.

Lemma located_clear id data :
  Forall (λ g, ¬ holds id g) (groups_of data) → located id data = None.
Proof.
  intros Hall. unfold located, shards_of. by rewrite filter_id_clear.
Qed.

(** The shard the loops stop at is the located one. *)
Lemma located_spec id data :
  match located id data with
  | None => Forall (λ g, ¬ holds id g) (groups_of data)
  | Some s =>
      ∃ c sg found,
        data = plug c sg data
        ∧ Forall (λ g, ¬ holds id g) (groups_before c)
        ∧ find_shard id (Shards sg) = Some found
        ∧ Shards sg !! found = Some s
  end.
Proof.
  destruct (first_update (DropShard_db 0 id) (Databases data)) as [dbs'|] eqn:Hdbs.
  - apply first_update_Some in Hdbs
      as (dbs1 & db & db' & dbs2 & Hd & Hdbs1 & Hdb & _).
    unfold DropShard_db in Hdb. apply fmap_Some in Hdb as (rps' & Hrps & _).
    apply first_update_Some in Hrps
      as (rps1 & rp & rp' & rps2 & Hr & Hrps1 & Hrp & _).
    unfold DropShard_rp in Hrp. apply fmap_Some in Hrp as (sgs' & Hsgs & _).
    apply first_update_Some in Hsgs
      as (sgs1 & sg & sg' & sgs2 & Hs & Hsgs1 & Hsg & _).
    unfold DropShard_group in Hsg.
    destruct (find_shard id (Shards sg)) as [found|] eqn:Hfound; [|done].
    destruct (find_shard_Some _ _ _ Hfound) as (s & Hlook & Hid & Hpre).
    set (c := mkPlace dbs1 db dbs2 rps1 rp rps2 sgs1 sgs2).
    assert (data = plug c sg data) as Hplug.
    { unfold plug. simpl. rewrite <- Hs, set_ShardGroups_eta, <- Hr.
      by rewrite set_RetentionPolicies_eta, <- Hd, set_Databases_eta. }
    assert (Forall (λ g, ¬ holds id g) (groups_before c)) as Hbefore.
    { unfold groups_before. simpl. rewrite !Forall_app. split; [|split].
      - rewrite Forall_bind. eapply Forall_impl; [exact Hdbs1|].
        intros x Hx. by apply DropShard_db_None in Hx.
      - rewrite Forall_bind. eapply Forall_impl; [exact Hrps1|].
        intros x Hx. by apply DropShard_rp_None in Hx.
      - eapply Forall_impl; [exact Hsgs1|].
        intros x Hx. by apply DropShard_group_None in Hx. }
    rewrite Hplug, (located_plug id c sg data found s Hbefore Hfound Hlook).
    exists c, sg, found. by rewrite <- Hplug.
  - apply DropShard_dbs_None in Hdbs. fold (groups_of data) in Hdbs.
    by rewrite (located_clear _ _ Hdbs).
Qed.


Lemma find_shard_ids id (l l' : list ShardInfo) :
  si_ID <$> l = si_ID <$> l' → find_shard id l = find_shard id l'.
Proof.
  revert l'. induction l as [|x l IH]; intros [|y l']; simpl; try done.
  intros [= Hh Ht]. by rewrite Hh, (IH _ Ht).
Qed.

Lemma insert_owners_ids found s owners (l : list ShardInfo) :
  l !! found = Some s →
  si_ID <$> <[found := set_Owners owners s]> l = si_ID <$> l.
Proof.
  intros Hl. rewrite list_fmap_insert. simpl. apply list_insert_id.
  by rewrite list_lookup_fmap, Hl.
Qed.

Lemma remove_at_insert {A} (i : nat) (x : A) (l : list A) :
  remove_at i (<[i := x]> l) = remove_at i l.
Proof.
  unfold remove_at. rewrite take_insert_ge by lia.
  by rewrite drop_insert_lt by lia.
Qed.

Lemma remove_at_insert_at {A} (k : nat) (x : A) (l : list A) :
  (k ≤ length l)%nat → remove_at k (insert_at k x l) = l.
Proof.
  intros Hk. unfold remove_at, insert_at.
  rewrite take_app_length' by (rewrite length_take; lia).
  replace (S k) with (k + 1)%nat by lia.
  rewrite drop_app_add' by (rewrite length_take; lia).
  simpl. rewrite drop_0. apply take_drop.
Qed.

Lemma find_owner_None n owners :
  find_owner n owners = None ↔ Forall (λ o, NodeID o ≠ n) owners.
Proof.
  induction owners as [|o rest IH]; simpl.
  - split; [constructor | done].
  - destruct (Z.eqb_spec (NodeID o) n) as [He|Hne].
    + split; [done|]. inversion 1; subst. contradiction.
    + rewrite fmap_None, IH. split; [by constructor|]. by inversion 1.
Qed.

Lemma find_owner_at n l1 l2 :
  Forall (λ o, NodeID o ≠ n) l1 →
  find_owner n (l1 ++ mkShardOwner n :: l2) = Some (length l1).
Proof.
  induction 1 as [|o l1 Ho _ IH]; simpl.
  - by rewrite Z.eqb_refl.
  - destruct (Z.eqb_spec (NodeID o) n); [done|]. by rewrite IH.
Qed.

Lemma find_owner_Some n owners k :
  find_owner n owners = Some k →
  ∃ l1 l2, owners = l1 ++ mkShardOwner n :: l2 ∧ k = length l1
           ∧ Forall (λ o, NodeID o ≠ n) l1.
Proof.
  revert k. induction owners as [|o rest IH]; simpl; intros k; [done|].
  destruct (Z.eqb_spec (NodeID o) n) as [He|Hne].
  - intros [= <-]. exists [], rest. destruct o; simpl in *. by subst.
  - destruct (find_owner n rest) as [j|]; simpl; [|done].
    intros [= <-]. destruct (IH j eq_refl) as (l1 & l2 & -> & -> & Hall).
    exists (o :: l1), l2. split; [done|]. split; [done|]. by constructor.
Qed.

Lemma owner_elem n (owners : list ShardOwner) :
  mkShardOwner n ∈ owners ↔ Exists (λ o, NodeID o = n) owners.
Proof.
  rewrite Exists_exists. split.
  - intros Hin. by exists (mkShardOwner n).
  - intros ([m'] & Hin & Hn). simpl in Hn. by subst.
Qed.

Lemma owner_not_elem n (owners : list ShardOwner) :
  mkShardOwner n ∉ owners ↔ Forall (λ o, NodeID o ≠ n) owners.
Proof.
  rewrite owner_elem, Forall_forall, Exists_exists. split.
  - intros Hn o Hin He. apply Hn. by exists o.
  - intros Hall (o & Hin & He). by apply (Hall o).
Qed.

Lemma owner_dec n (owners : list ShardOwner) :
  mkShardOwner n ∈ owners ∨ mkShardOwner n ∉ owners.
Proof.
  destruct (decide (Exists (λ o, NodeID o = n) owners)) as [He|He].
  - left. by apply owner_elem.
  - right. by rewrite owner_elem.
Qed.

(** What the loop of [CopyShardOwner] finds. *)
Lemma copy_scan_spec n owners i idx :
  match copy_scan n i owners idx with
  | None => Exists (λ o, NodeID o = n) owners
  | Some r =>
      Forall (λ o, NodeID o ≠ n) owners
      ∧ match idx with
        | Some _ => r = idx
        | None =>
            match r with
            | None => Forall (λ o, NodeID o < n) owners
            | Some j =>
                ∃ k o, j = (i + k)%nat ∧ owners !! k = Some o ∧ n < NodeID o
                       ∧ Forall (λ o', NodeID o' < n) (take k owners)
            end
        end
  end.
Proof.
  revert i idx. induction owners as [|o rest IH]; intros i idx; simpl.
  - split; [constructor|]. destruct idx; [done|constructor].
  - destruct (Z.eqb_spec (NodeID o) n) as [He|Hne]; [by left|].
    destruct idx as [j|].
    + specialize (IH (S i) (Some j)).
      destruct (copy_scan n (S i) rest (Some j)); [|by right].
      destruct IH as [Hall ->]. split; [by constructor|done].
    + destruct (Z.ltb_spec n (NodeID o)) as [Hlt|Hge].
      * specialize (IH (S i) (Some i)).
        destruct (copy_scan n (S i) rest (Some i)); [|by right].
        destruct IH as [Hall ->]. split; [by constructor|].
        exists 0%nat, o. split; [lia|]. split; [done|]. split; [done|constructor].
      * specialize (IH (S i) None).
        destruct (copy_scan n (S i) rest None) as [r|]; [|by right].
        destruct IH as [Hall Hr]. split; [by constructor|].
        destruct r as [j|].
        -- destruct Hr as (k & o' & -> & Hl & Hlt & Hpre).
           exists (S k), o'. split; [lia|]. split; [done|]. split; [done|].
           simpl. constructor; [lia|done].
        -- constructor; [lia|done].
Qed.

(** The body of [CopyShardOwner] on the group that holds the shard. *)
Lemma CopyShardOwner_group_at id n sg found s :
  find_shard id (Shards sg) = Some found →
  Shards sg !! found = Some s →
  ∃ owners,
    CopyShardOwner_group id n sg
    = Some (set_Shards (<[found := set_Owners owners s]> (Shards sg)) sg)
    ∧ (mkShardOwner n ∈ Owners s → owners = Owners s)
    ∧ (mkShardOwner n ∉ Owners s →
       ∃ k, (k ≤ length (Owners s))%nat
            ∧ owners = insert_at k (mkShardOwner n) (Owners s)
            ∧ Forall (λ o, NodeID o < n) (take k (Owners s))
            ∧ Forall (λ o, n < NodeID o) (take 1 (drop k (Owners s)))).
Proof.
  intros Hfound Hlook. unfold CopyShardOwner_group. rewrite Hfound, Hlook.
  pose proof (copy_scan_spec n (Owners s) 0 None) as Hscan.
  destruct (copy_scan n 0 (Owners s) None) as [r|].
  - destruct Hscan as [Hall Hr]. apply owner_not_elem in Hall.
    destruct r as [j|].
    + destruct Hr as (k & o & -> & Hl & Hlt & Hpre). simpl.
      eexists. split; [done|]. split; [done|]. intros _.
      exists k. split; [apply lookup_lt_Some in Hl; lia|]. split; [done|].
      split; [done|]. rewrite (drop_S _ _ _ Hl). simpl.
      rewrite take_0. by constructor.
    + eexists. split; [done|]. split; [done|]. intros _.
      exists (length (Owners s)). split; [lia|]. unfold insert_at.
      rewrite firstn_all, drop_all. split; [done|]. split; [done|]. constructor.
  - exists (Owners s). rewrite set_Owners_eta, list_insert_id by done.
    rewrite set_Shards_eta. split; [done|]. split; [done|].
    intros Hn. apply owner_elem in Hscan. done.
Qed.

Lemma clear_CopyShardOwner id n g :
  ¬ holds id g → CopyShardOwner_group id n g = None.
Proof.
  intros Hg. apply DropShard_group_None with (now := 0) in Hg.
  unfold DropShard_group in Hg. unfold CopyShardOwner_group.
  by destruct (find_shard id (Shards g)).
Qed.

Lemma clear_RemoveShardOwner now id n g :
  ¬ holds id g → RemoveShardOwner_group now id n g = None.
Proof.
  intros Hg. apply DropShard_group_None with (now := 0) in Hg.
  unfold DropShard_group in Hg. unfold RemoveShardOwner_group.
  by destruct (find_shard id (Shards g)).
Qed.

Lemma clear_DropShard now id g :
  ¬ holds id g → DropShard_group now id g = None.
Proof. apply DropShard_group_None. Qed.

Lemma pairwise_insert_at n k (owners : list ShardOwner) :
  pairwise (λ a b, NodeID a < NodeID b) owners →
  Forall (λ o, NodeID o < n) (take k owners) →
  Forall (λ o, n < NodeID o) (take 1 (drop k owners)) →
  pairwise (λ a b, NodeID a < NodeID b) (insert_at k (mkShardOwner n) owners).
Proof.
  unfold insert_at. revert k. induction owners as [|o rest IH]; intros k Hs Hlo Hhi.
  - rewrite take_nil, drop_nil. simpl. split; [constructor|done].
  - destruct Hs as [Ho Hrest]. destruct k as [|k]; simpl in *.
    + apply Forall_cons in Hhi as [Hn _]. split; [|split; [done|done]].
      constructor; [done|]. eapply Forall_impl; [exact Ho|]. simpl. intros; lia.
    + apply Forall_cons in Hlo as [Hon Hlo]. split.
      * rewrite <- (take_drop k rest) in Ho. apply Forall_app in Ho as [Ho1 Ho2].
        apply Forall_app. split; [done|]. constructor; [done|done].
      * by apply IH.
Qed.

(** What [CopyShardOwner] makes of the located shard. *)
Lemma CopyShardOwner_located id n data s :
  located id data = Some s →
  ∃ owners,
    located id (CopyShardOwner id n data) = Some (set_Owners owners s)
    ∧ mkShardOwner n ∈ owners
    ∧ (mkShardOwner n ∈ Owners s →
       owners = Owners s ∧ CopyShardOwner id n data = data)
    ∧ (mkShardOwner n ∉ Owners s →
       ∃ l1 l2, Owners s = l1 ++ l2
                ∧ owners = l1 ++ mkShardOwner n :: l2
                ∧ Forall (λ o, NodeID o < n) l1
                ∧ ∀ o, head l2 = Some o → n < NodeID o)
    ∧ (mkShardOwner n ∉ Owners s → owners ≡ₚ mkShardOwner n :: Owners s)
    ∧ (owners_ascending (Owners s) → owners_ascending owners).
Proof.
  intros Hloc. pose proof (located_spec id data) as Hspec.
  rewrite Hloc in Hspec. destruct Hspec as (c & sg & found & Hplug & Hbefore & Hfound & Hlook).
  destruct (CopyShardOwner_group_at id n sg found s Hfound Hlook)
    as (owners & Hcopy & Hold & Hnew).
  assert (CopyShardOwner id n data
          = plug c (set_Shards (<[found := set_Owners owners s]> (Shards sg)) sg) data)
    as Hdata.
  { rewrite Hplug at 1. unfold CopyShardOwner.
    apply (first_group_plug _ id); [apply clear_CopyShardOwner|done|done]. }
  exists owners. split; [|split; [|split; [|split; [|split]]]].
  - rewrite Hdata. apply (located_plug id _ _ _ found); [done| |].
    + erewrite find_shard_ids; [exact Hfound|]. simpl.
      by apply insert_owners_ids.
    + simpl. apply list_lookup_insert_eq. by eapply lookup_lt_Some.
  - destruct (owner_dec n (Owners s)) as [Hin|Hnin].
    + by rewrite (Hold Hin).
    + destruct (Hnew Hnin) as (k & _ & -> & _). unfold insert_at.
      apply elem_of_app. right. by left.
  - intros Hin. specialize (Hold Hin). subst owners. split; [done|].
    rewrite Hdata, set_Owners_eta, list_insert_id, set_Shards_eta by done.
    by rewrite <- Hplug.
  - intros Hnin. destruct (Hnew Hnin) as (k & _ & -> & Hlo & Hhi).
    exists (take k (Owners s)), (drop k (Owners s)).
    split; [by rewrite take_drop|]. split; [done|]. split; [done|].
    intros o Ho. destruct (drop k (Owners s)) as [|o' rest]; [done|].
    injection Ho as ->. simpl in Hhi. rewrite take_0 in Hhi.
    by apply Forall_cons in Hhi as [? _].
  - intros Hnin. destruct (Hnew Hnin) as (k & _ & -> & _). unfold insert_at.
    rewrite <- Permutation_middle. by rewrite take_drop.
  - intros Hasc. destruct (owner_dec n (Owners s)) as [Hin|Hnin].
    + by rewrite (Hold Hin).
    + destruct (Hnew Hnin) as (k & _ & -> & Hlo & Hhi).
      by apply pairwise_insert_at.
Qed.

(** [CopyShardOwner] works on the first shard with the ID, in the order
    databases, policies, groups, shards. Afterwards the node is an owner
    of that shard. When it was one already the store is left as it is.
    Otherwise the node is put in before the first owner with a larger
    node id, after the owners with smaller ids that precede it, or at
    the end when no owner has a larger id; the other owners stay in
    their order. Owners in ascending order of node id stay so. *)
Theorem CopyShardOwner_owners (id n : Z) (data : Data) (s : ShardInfo) :
  located id data = Some s →
  ∃ owners,
    located id (CopyShardOwner id n data) = Some (set_Owners owners s)
    ∧ mkShardOwner n ∈ owners
    ∧ (mkShardOwner n ∈ Owners s →
       owners = Owners s ∧ CopyShardOwner id n data = data)
    ∧ (mkShardOwner n ∉ Owners s →
       ∃ l1 l2, Owners s = l1 ++ l2
                ∧ owners = l1 ++ mkShardOwner n :: l2
                ∧ Forall (λ o, NodeID o < n) l1
                ∧ ∀ o, head l2 = Some o → n < NodeID o)
    ∧ (mkShardOwner n ∉ Owners s → owners ≡ₚ mkShardOwner n :: Owners s)
    ∧ (owners_ascending (Owners s) → owners_ascending owners).
Proof. apply CopyShardOwner_located. Qed.

(** The theorem at node 2 copied to a shard owned by nodes 1 and 3. *)
Lemma CopyShardOwner_owners_witness :
  let s := mkShardInfo 7 [mkShardOwner 3; mkShardOwner 1] in
  let data :=
    MetaExamples.cluster []
      (MetaExamples.autogen 1 0 [mkShardGroupInfo 1 10 20 0 [s] 0]) in
  located 7 data = Some s
  ∧ ∃ owners,
      located 7 (CopyShardOwner 7 2 data) = Some (set_Owners owners s)
      ∧ owners = [mkShardOwner 2; mkShardOwner 3; mkShardOwner 1].
Proof.
  intros s data.
  assert (located 7 data = Some s) as Hloc by reflexivity.
  split; [exact Hloc|].
  destruct (CopyShardOwner_owners 7 2 data s Hloc)
    as (owners & Hafter & _ & _ & Hplace & _).
  exists owners. split; [exact Hafter|].
  destruct Hplace as (l1 & l2 & Hs & -> & Hl1 & _).
  { intros Hin. apply elem_of_cons in Hin as [Hin|Hin]; [done|].
    apply elem_of_cons in Hin as [Hin|Hin]; [done|]. by apply elem_of_nil in Hin. }
  unfold s in Hs. simpl in Hs.
  destruct l1 as [|o l1]; [simpl in *; by rewrite <- Hs|].
  exfalso. injection Hs as <- _. apply Forall_cons in Hl1 as [Hlt _].
  simpl in Hlt. lia.
Defined.

(** [CopyShardOwner] is idempotent, and it leaves the store as it is when
    no shard has the ID. *)
Theorem CopyShardOwner_idempotent (id n : Z) (data : Data) :
  CopyShardOwner id n (CopyShardOwner id n data) = CopyShardOwner id n data
  ∧ (located id data = None → CopyShardOwner id n data = data).
Proof.
  pose proof (located_spec id data) as Hspec.
  destruct (located id data) as [s|] eqn:Hloc.
  - split; [|done].
    destruct (CopyShardOwner_located id n data s Hloc)
      as (owners & Hloc1 & Hin & _).
    destruct (CopyShardOwner_located id n _ _ Hloc1) as (owners1 & _ & _ & Hold & _).
    apply Hold. by simpl.
  - assert (CopyShardOwner id n data = data) as Hid.
    { apply (first_group_clear _ id); [apply clear_CopyShardOwner|done]. }
    split; [by rewrite !Hid|done].
Qed.

(** [RemoveShardOwner] undoes [CopyShardOwner]: when the shard has owners
    and the node is none of them, copying the shard to the node and then
    removing the node gives the store back, whatever the clock says. *)
Theorem RemoveShardOwner_CopyShardOwner (now : Time) (id n : Z) (data : Data)
    (s : ShardInfo) :
  located id data = Some s →
  Owners s ≠ [] →
  mkShardOwner n ∉ Owners s →
  RemoveShardOwner now id n (CopyShardOwner id n data) = data.
Proof.
  intros Hloc Hne Hnin. pose proof (located_spec id data) as Hspec.
  rewrite Hloc in Hspec.
  destruct Hspec as (c & sg & found & Hplug & Hbefore & Hfound & Hlook).
  destruct (CopyShardOwner_group_at id n sg found s Hfound Hlook)
    as (owners & Hcopy & _ & Hnew).
  destruct (Hnew Hnin) as (k & Hk & -> & _).
  set (sg1 := set_Shards _ sg) in Hcopy.
  assert (CopyShardOwner id n data = plug c sg1 data) as ->.
  { rewrite Hplug at 1. unfold CopyShardOwner.
    apply (first_group_plug _ id); [apply clear_CopyShardOwner|done|done]. }
  rewrite Hplug at 2. unfold RemoveShardOwner.
  apply (first_group_plug _ id); [apply clear_RemoveShardOwner|done|].
  unfold RemoveShardOwner_group.
  assert (find_shard id (Shards sg1) = Some found) as ->.
  { erewrite find_shard_ids; [exact Hfound|]. simpl. by apply insert_owners_ids. }
  assert (Shards sg1 !! found
          = Some (set_Owners (insert_at k (mkShardOwner n) (Owners s)) s)) as ->.
  { simpl. apply list_lookup_insert_eq. by eapply lookup_lt_Some. }
  cbn [Owners set_Owners]. unfold insert_at at 1.
  apply owner_not_elem in Hnin.
  rewrite find_owner_at.
  2:{ rewrite <- (take_drop k (Owners s)) in Hnin.
      by apply Forall_app in Hnin as [? _]. }
  rewrite length_take, Nat.min_l by lia.
  rewrite remove_at_insert_at by done.
  destruct (Nat.eqb_spec (length (Owners s)) 0) as [Hz|_].
  { by destruct (Owners s). }
  f_equal. subst sg1. unfold set_Shards. simpl.
  rewrite list_insert_insert_eq. unfold set_Owners at 1. simpl.
  fold (set_Owners (Owners s) s). rewrite set_Owners_eta.
  rewrite list_insert_id by done. by destruct sg.
Qed.

(** The theorem at node 2 and a shard owned by nodes 1 and 3. *)
Lemma RemoveShardOwner_CopyShardOwner_witness :
  let s := mkShardInfo 7 [mkShardOwner 1; mkShardOwner 3] in
  let data :=
    MetaExamples.cluster []
      (MetaExamples.autogen 1 0 [mkShardGroupInfo 1 10 20 0 [s] 0]) in
  located 7 data = Some s ∧ Owners s ≠ [] ∧ (mkShardOwner 2 ∉ Owners s)
  ∧ RemoveShardOwner 99 7 2 (CopyShardOwner 7 2 data) = data.
Proof.
  intros s data.
  assert (located 7 data = Some s) as Hloc by reflexivity.
  assert (Owners s ≠ []) as Hne by done.
  assert (mkShardOwner 2 ∉ Owners s) as Hnin.
  { intros Hin. apply elem_of_cons in Hin as [Hin|Hin]; [done|].
    apply elem_of_cons in Hin as [Hin|Hin]; [done|]. by apply elem_of_nil in Hin. }
  split; [exact Hloc|]. split; [exact Hne|]. split; [exact Hnin|].
  exact (RemoveShardOwner_CopyShardOwner 99 7 2 data s Hloc Hne Hnin).
Defined.

(** [RemoveShardOwner] takes the first owner entry of the node out of the
    located shard. When that leaves the shard without owners (the node
    was its only owner, or it had none) the call does what [DropShard]
    does; otherwise the shard stays with the owners left. *)
Theorem RemoveShardOwner_owners (now : Time) (id n : Z) (data : Data)
    (s : ShardInfo) :
  located id data = Some s →
  ∃ owners,
    ((mkShardOwner n ∉ Owners s) ∧ owners = Owners s
     ∨ ∃ l1 l2, Owners s = l1 ++ mkShardOwner n :: l2
                ∧ (mkShardOwner n ∉ l1) ∧ owners = l1 ++ l2)
    ∧ (owners = [] → RemoveShardOwner now id n data = DropShard now id data)
    ∧ (owners ≠ [] →
       located id (RemoveShardOwner now id n data) = Some (set_Owners owners s)).
Proof.
  intros Hloc. pose proof (located_spec id data) as Hspec.
  rewrite Hloc in Hspec.
  destruct Hspec as (c & sg & found & Hplug & Hbefore & Hfound & Hlook).
  set (owners := match find_owner n (Owners s) with
                 | Some nodeIdx => remove_at nodeIdx (Owners s)
                 | None => Owners s
                 end).
  set (sg1 := set_Shards (<[found := set_Owners owners s]> (Shards sg)) sg).
  assert (RemoveShardOwner_group now id n sg
          = Some (if (length owners =? 0)%nat
                  then let sg2 := set_Shards (remove_at found (Shards sg1)) sg1 in
                       if (length (Shards sg1) =? 1)%nat
                       then set_DeletedAt now sg2 else sg2
                  else sg1)) as Hgroup.
  { unfold RemoveShardOwner_group. rewrite Hfound, Hlook. subst sg1 owners.
    destruct (find_owner n (Owners s)) as [nodeIdx|].
    - by destruct (length (remove_at nodeIdx (Owners s)) =? 0)%nat.
    - rewrite set_Owners_eta, list_insert_id, set_Shards_eta by done.
      by destruct (length (Owners s) =? 0)%nat. }
  assert (∀ sg', RemoveShardOwner_group now id n sg = Some sg' →
                 RemoveShardOwner now id n data = plug c sg' data) as Hdata.
  { intros sg' Hsg'. rewrite Hplug at 1. unfold RemoveShardOwner.
    apply (first_group_plug _ id); [apply clear_RemoveShardOwner|done|done]. }
  exists owners. split; [|split].
  - subst owners. destruct (find_owner n (Owners s)) as [k|] eqn:Hk.
    + right. apply find_owner_Some in Hk as (l1 & l2 & Hs & -> & Hl1).
      exists l1, l2. split; [done|]. split; [by apply owner_not_elem|].
      rewrite Hs. unfold remove_at. rewrite take_app_length.
      replace (S (length l1)) with (length l1 + 1)%nat by lia.
      by rewrite drop_app_add'.
    + left. apply find_owner_None in Hk. split; [by apply owner_not_elem|done].
  - intros Hnil. rewrite (Hdata _ Hgroup), Hnil. simpl.
    assert (DropShard now id data
            = first_group (DropShard_group now id) data) as -> by done.
    rewrite Hplug at 2. symmetry.
    apply (first_group_plug _ id); [apply clear_DropShard|done|].
    unfold DropShard_group. rewrite Hfound. f_equal.
    rewrite length_insert, remove_at_insert.
    by destruct (length (Shards sg) =? 1)%nat.
  - intros Hne. rewrite (Hdata _ Hgroup).
    destruct (Nat.eqb_spec (length owners) 0) as [Hz|_].
    { by destruct owners. }
    apply (located_plug id _ _ _ found); [done| |].
    + erewrite find_shard_ids; [exact Hfound|]. simpl.
      by apply insert_owners_ids.
    + simpl. apply list_lookup_insert_eq. by eapply lookup_lt_Some.
Qed.

(** The theorem at the only owner of a shard. *)
Lemma RemoveShardOwner_owners_witness :
  let s := mkShardInfo 7 [mkShardOwner 1] in
  let data :=
    MetaExamples.cluster []
      (MetaExamples.autogen 1 0 [mkShardGroupInfo 1 10 20 0 [s] 0]) in
  located 7 data = Some s
  ∧ RemoveShardOwner 99 7 1 data = DropShard 99 7 data.
Proof.
  intros s data.
  assert (located 7 data = Some s) as Hloc by reflexivity.
  split; [exact Hloc|].
  destruct (RemoveShardOwner_owners 99 7 1 data s Hloc)
    as (owners & Hshape & Hdrop & _).
  apply Hdrop. destruct Hshape as [[Hnin _]|(l1 & l2 & Hs & Hl1 & ->)].
  - exfalso. apply Hnin. by left.
  - destruct l1 as [|o l1].
    + by injection Hs as <-.
    + injection Hs as <- Hs. exfalso. apply Hl1. by left.
Defined.

(** ** TruncateShardGroups, PruneShardGroups, DeleteShardGroup *)

Lemma policies_of_each_policy f data :
  policies_of (each_policy f data)
  = (λ rp, set_ShardGroups (f (ShardGroups rp)) rp) <$> policies_of data.
Proof.
  unfold policies_of, each_policy. simpl.
  induction (Databases data) as [|db dbs IH]; [done|].
  rewrite fmap_cons, !bind_cons, fmap_app, IH. done.
Qed.

Lemma Forall2_fmap_same {A} (R : A → A → Prop) (f : A → A) l :
  Forall (λ x, R x (f x)) l → Forall2 R l (f <$> l).
Proof. induction 1; constructor; done. Qed.

Lemma find_fmap {A B} (p : B → bool) (f : A → B) l :
  List.find p (f <$> l) = f <$> List.find (λ x, p (f x)) l.
Proof.
  induction l as [|x l IH]; [done|]. simpl. by destruct (p (f x)).
Qed.

Lemma find_ext {A} (p q : A → bool) l :
  Forall (λ x, p x = q x) l → List.find p l = List.find q l.
Proof. induction 1 as [|x l Hx _ IH]; [done|]. simpl. by rewrite Hx, IH. Qed.

Lemma find_none_all {A} (p : A → bool) l :
  Forall (λ x, p x = false) l → List.find p l = None.
Proof. induction 1 as [|x l Hx _ IH]; [done|]. simpl. by rewrite Hx. Qed.

(** A truncated group takes the timestamps it took before that lie
    before the truncation time. *)
Lemma truncate_group_accepts t g ts :
  t ≠ 0 → StartTime g ≠ 0 →
  accepts ts (truncate_group t g) = accepts ts g && Before ts t.
Proof.
  intros Ht Hs. unfold truncate_group, accepts, Contains, Deleted, Truncated,
    IsZero, Before, After.
  destruct (Z.ltb_spec t (EndTime g)), (Z.eqb_spec (DeletedAt g) 0),
    (Z.eqb_spec (TruncatedAt g) 0), (Z.ltb_spec (TruncatedAt g) t),
    (Z.ltb_spec (StartTime g) t); simpl;
    repeat match goal with
           | |- context [(?a <? ?b)] => destruct (Z.ltb_spec a b)
           | |- context [(?a =? ?b)] => destruct (Z.eqb_spec a b)
           end; simpl; first [done|lia].
Qed.

(** After [TruncateShardGroups(t)], with [t] and the start times of the
    groups other than the zero time: no policy has a group for a timestamp
    at or after [t], and a timestamp before [t] is served by the group
    that served it before. *)
Theorem TruncateShardGroups_lookup (t : Time) (data : Data) :
  t ≠ 0 →
  Forall (λ g, StartTime g ≠ 0) (groups_of data) →
  Forall2
    (λ rp rp1,
       rp1 = set_ShardGroups (truncate_group t <$> ShardGroups rp) rp
       ∧ ∀ ts,
           (t ≤ ts → ShardGroupByTimestamp rp1 ts = None)
           ∧ (ts < t → ShardGroupByTimestamp rp1 ts
                       = truncate_group t <$> ShardGroupByTimestamp rp ts))
    (policies_of data) (policies_of (TruncateShardGroups t data)).
Proof.
  intros Ht Hstart. unfold TruncateShardGroups.
  rewrite policies_of_each_policy. apply Forall2_fmap_same.
  apply Forall_forall. intros rp Hrp. split; [done|]. intros ts.
  assert (Forall (λ g, StartTime g ≠ 0) (ShardGroups rp)) as Hrps.
  { rewrite Forall_forall in Hstart. apply Forall_forall. intros g Hg.
    apply Hstart. unfold policies_of in Hrp.
    apply list_elem_of_bind in Hrp as (db & Hrp & Hdb).
    unfold groups_of. apply list_elem_of_bind. exists db. split; [|done].
    unfold groups_of_db. apply list_elem_of_bind. by exists rp. }
  unfold ShardGroupByTimestamp. simpl. rewrite find_fmap. split.
  - intros Hts. rewrite find_none_all; [done|].
    eapply Forall_impl; [exact Hrps|]. intros g Hg. simpl.
    rewrite truncate_group_accepts by done. unfold Before.
    destruct (Z.ltb_spec ts t); [lia|]. by rewrite andb_false_r.
  - intros Hts. f_equal. apply find_ext.
    eapply Forall_impl; [exact Hrps|]. intros g Hg. simpl.
    rewrite truncate_group_accepts by done. unfold Before.
    destruct (Z.ltb_spec ts t); [|lia]. by rewrite andb_true_r.
Qed.

(** The theorem at one hourly group truncated in its middle. *)
Lemma TruncateShardGroups_lookup_witness :
  let g := mkShardGroupInfo 1 100 200 0 [] 0 in
  let data := MetaExamples.cluster [] (MetaExamples.autogen 1 0 [g]) in
  150 ≠ 0 ∧ Forall (λ g, StartTime g ≠ 0) (groups_of data)
  ∧ Forall2
      (λ rp rp1, ∀ ts, 150 ≤ ts → ShardGroupByTimestamp rp1 ts = None)
      (policies_of data) (policies_of (TruncateShardGroups 150 data)).
Proof.
  intros g data.
  assert (150 ≠ 0) as Ht by done.
  assert (Forall (λ g, StartTime g ≠ 0) (groups_of data)) as Hs.
  { constructor; [done|constructor]. }
  split; [exact Ht|]. split; [exact Hs|].
  eapply Forall2_impl; [exact (TruncateShardGroups_lookup 150 data Ht Hs)|].
  simpl. intros rp rp1 [_ H] ts. apply H.
Defined.


Lemma truncate_group_Deleted t g : Deleted (truncate_group t g) = Deleted g.
Proof.
  unfold truncate_group.
  destruct (_ || _); [done|]. by destruct (negb _).
Qed.

Lemma truncate_group_covers t g ts :
  t ≠ 0 → StartTime g ≠ 0 →
  covers (truncate_group t g) ts → covers g ts.
Proof.
  intros Ht Hs. unfold covers, effective_end, truncate_group, Deleted, Truncated,
    IsZero, Before, After.
  destruct (Z.ltb_spec t (EndTime g)), (Z.eqb_spec (DeletedAt g) 0),
    (Z.eqb_spec (TruncatedAt g) 0), (Z.ltb_spec (TruncatedAt g) t),
    (Z.ltb_spec (StartTime g) t); simpl;
    repeat match goal with
           | |- context [(?a =? ?b)] => destruct (Z.eqb_spec a b)
           end; simpl; lia.
Qed.

Lemma truncate_group_inside t g :
  StartTime g ≤ EndTime g →
  (Deleted g = false → Truncated g = true → TruncatedAt g ≤ EndTime g) →
  Deleted (truncate_group t g) = false →
  Truncated (truncate_group t g) = true →
  TruncatedAt (truncate_group t g) ≤ EndTime (truncate_group t g).
Proof.
  intros Hse. unfold truncate_group, Deleted, Truncated, IsZero, Before, After.
  destruct (Z.ltb_spec t (EndTime g)), (Z.eqb_spec (DeletedAt g) 0),
    (Z.eqb_spec (TruncatedAt g) 0), (Z.ltb_spec (TruncatedAt g) t),
    (Z.ltb_spec (StartTime g) t); simpl; intros Hin;
    repeat match goal with
           | |- context [(?a =? ?b)] => destruct (Z.eqb_spec a b)
           end; simpl; intros; first [lia|done|by apply Hin].
Qed.

Lemma pairwise_fmap {A} (P : A → Prop) (R : A → A → Prop) (f : A → A) l :
  (∀ a b, P a → P b → R a b → R (f a) (f b)) →
  Forall P l → pairwise R l → pairwise R (f <$> l).
Proof.
  intros Hf. induction 1 as [|x l Hx Hl IH]; [done|].
  simpl. intros [Hhead Htail]. split; [|by apply IH].
  apply Forall_fmap, Forall_forall. intros y Hy. simpl.
  rewrite Forall_forall in Hhead, Hl. apply Hf; [done|by apply Hl|by apply Hhead].
Qed.

Lemma groups_of_policy (P : ShardGroupInfo → Prop) data rp :
  Forall P (groups_of data) → rp ∈ policies_of data → Forall P (ShardGroups rp).
Proof.
  intros Hall Hrp. rewrite Forall_forall in Hall. apply Forall_forall.
  intros g Hg. apply Hall. unfold policies_of in Hrp.
  apply list_elem_of_bind in Hrp as (db & Hrp & Hdb).
  unfold groups_of. apply list_elem_of_bind. exists db. split; [|done].
  unfold groups_of_db. apply list_elem_of_bind. by exists rp.
Qed.

(** [TruncateShardGroups] keeps what [CreateShardGroup] relies on: if in
    every policy no time lies in the effective intervals of two groups
    that are not deleted and every truncated group is truncated at or
    before its end, the same holds afterwards. The time [t] and the start
    times are not the zero time, and no group ends before it starts. *)
Theorem TruncateShardGroups_invariants (t : Time) (data : Data) :
  t ≠ 0 →
  Forall (λ g, StartTime g ≠ 0 ∧ StartTime g ≤ EndTime g) (groups_of data) →
  (∀ rp, rp ∈ policies_of data →
         truncation_inside (ShardGroups rp) ∧ disjoint_effective (ShardGroups rp)) →
  ∀ rp, rp ∈ policies_of (TruncateShardGroups t data) →
        truncation_inside (ShardGroups rp) ∧ disjoint_effective (ShardGroups rp).
Proof.
  intros Ht Hshape Hinv rp1 Hrp1. unfold TruncateShardGroups in Hrp1.
  rewrite policies_of_each_policy in Hrp1.
  apply list_elem_of_fmap in Hrp1 as (rp & -> & Hrp). simpl.
  destruct (Hinv rp Hrp) as [Hinside Hdisj].
  pose proof (groups_of_policy _ _ _ Hshape Hrp) as Hrps.
  split.
  - unfold truncation_inside in *. apply Forall_fmap, Forall_forall.
    intros g Hg. simpl. rewrite Forall_forall in Hinside, Hrps.
    destruct (Hrps g Hg) as [_ Hse]. apply truncate_group_inside; [done|].
    by apply Hinside.
  - unfold disjoint_effective in *.
    apply (pairwise_fmap (λ g, StartTime g ≠ 0 ∧ StartTime g ≤ EndTime g));
      [|done|done].
    intros a b [Ha _] [Hb _] Hsep. unfold separate in *.
    rewrite !truncate_group_Deleted. intros Hda Hdb ts [Hca Hcb].
    apply (Hsep Hda Hdb ts).
    split; [by apply (truncate_group_covers t a ts)
           |by apply (truncate_group_covers t b ts)].
Qed.

(** The theorem at two adjacent groups truncated inside the second. *)
Lemma TruncateShardGroups_invariants_witness :
  let data :=
    MetaExamples.cluster []
      (MetaExamples.autogen 1 0
         [mkShardGroupInfo 1 100 200 0 [] 0; mkShardGroupInfo 2 200 300 0 [] 0]) in
  250 ≠ 0
  ∧ Forall (λ g, StartTime g ≠ 0 ∧ StartTime g ≤ EndTime g) (groups_of data)
  ∧ (∀ rp, rp ∈ policies_of data →
           truncation_inside (ShardGroups rp) ∧ disjoint_effective (ShardGroups rp))
  ∧ (∀ rp, rp ∈ policies_of (TruncateShardGroups 250 data) →
           truncation_inside (ShardGroups rp) ∧ disjoint_effective (ShardGroups rp)).
Proof.
  intros data.
  assert (250 ≠ 0) as Ht by done.
  assert (Forall (λ g, StartTime g ≠ 0 ∧ StartTime g ≤ EndTime g)
            (groups_of data)) as Hs.
  { constructor; [simpl; lia|]. constructor; [simpl; lia|constructor]. }
  assert (∀ rp, rp ∈ policies_of data →
                truncation_inside (ShardGroups rp)
                ∧ disjoint_effective (ShardGroups rp)) as Hinv.
  { intros rp Hrp. apply list_elem_of_singleton in Hrp as ->. split.
    - constructor; [done|]. constructor; [done|constructor].
    - unfold disjoint_effective. simpl. split; [|split; [constructor|exact I]].
      constructor; [|constructor]. intros _ _ ts [Ha Hb].
      unfold covers, effective_end in *. simpl in *. lia. }
  split; [exact Ht|]. split; [exact Hs|]. split; [exact Hinv|].
  exact (TruncateShardGroups_invariants 250 data Ht Hs Hinv).
Defined.

Lemma filter_sublist_bool {A} (p : A → bool) l : sublist (List.filter p l) l.
Proof.
  induction l as [|x l IH]; simpl; [constructor|].
  destruct (p x); by constructor.
Qed.

Lemma find_filter {A} (p q : A → bool) l :
  (∀ x, p x = true → q x = true) →
  List.find p (List.filter q l) = List.find p l.
Proof.
  intros Hpq. induction l as [|x l IH]; [done|]. simpl.
  destruct (q x) eqn:Hq; simpl.
  - by rewrite IH.
  - destruct (p x) eqn:Hp; [|done]. apply Hpq in Hp. congruence.
Qed.

(** [PruneShardGroups] only takes groups marked as deleted out of the
    policies, keeps the order of the others, and changes no answer of
    [ShardGroupByTimestamp], whatever the clock and the expiration. *)
Theorem PruneShardGroups_lookup (expiry : GoTime.Duration) (now : Time)
    (data : Data) :
  Forall2
    (λ rp rp1,
       rp1 = set_ShardGroups (ShardGroups rp1) rp
       ∧ sublist (ShardGroups rp1) (ShardGroups rp)
       ∧ (∀ g, g ∈ ShardGroups rp →
               (g ∈ ShardGroups rp1
                ↔ Deleted g = false ∨ now + expiry ≤ DeletedAt g))
       ∧ ∀ ts, ShardGroupByTimestamp rp1 ts = ShardGroupByTimestamp rp ts)
    (policies_of data) (policies_of (PruneShardGroups expiry now data)).
Proof.
  unfold PruneShardGroups. rewrite policies_of_each_policy.
  apply Forall2_fmap_same, Forall_forall. intros rp _. simpl.
  split; [done|]. split; [apply filter_sublist_bool|]. split.
  - intros g Hg. rewrite list_elem_of_In, filter_In, <- list_elem_of_In.
    unfold remains, Deleted, IsZero, After, Add.
    destruct (Z.eqb_spec (DeletedAt g) 0); simpl; [split; [by left|done]|].
    destruct (Z.ltb_spec (DeletedAt g) (now + expiry)); simpl.
    + split; [intros [_ ?]; done|]. intros [?|?]; [done|lia].
    + split; [by right|done].
  - intros ts. unfold ShardGroupByTimestamp. simpl. apply find_filter.
    intros g. unfold accepts, remains, Deleted.
    destruct (IsZero (DeletedAt g)); [done|]. simpl.
    by rewrite andb_false_r.
Qed.

(** ** DeleteShardGroup *)

Lemma find_app {A} (p : A → bool) l1 l2 :
  List.find p (l1 ++ l2)
  = match List.find p l1 with Some x => Some x | None => List.find p l2 end.
Proof. induction l1 as [|x l1 IH]; [done|]. simpl. by destruct (p x). Qed.

(** [DeleteShardGroup] fails without touching the store when the database
    or the policy is unknown or the policy has no group with the ID. When
    it succeeds the policy keeps its groups and their IDs, and, the clock
    not being at the zero time and the group IDs of the policy being
    unique, [ShardGroupByTimestamp] answers afterwards as if the group
    were not there. *)
Theorem DeleteShardGroup_lookup (now : Time) (database policy : string)
    (id : Z) (data : Data) :
  match DeleteShardGroup now database policy id data with
  | (data1, Some e) =>
      data1 = data
      ∧ (e = inr ErrShardGroupNotFound
         ↔ ∃ i j rpi,
             RetentionPolicy_at data database policy = inr (Some (i, j, rpi))
             ∧ id ∉ sgi_ID <$> ShardGroups rpi)
  | (data1, None) =>
      ∃ i j rpi rpi1,
        RetentionPolicy_at data database policy = inr (Some (i, j, rpi))
        ∧ RetentionPolicy_at data1 database policy = inr (Some (i, j, rpi1))
        ∧ id ∈ sgi_ID <$> ShardGroups rpi
        ∧ sgi_ID <$> ShardGroups rpi1 = sgi_ID <$> ShardGroups rpi
        ∧ (now ≠ 0 → NoDup (sgi_ID <$> ShardGroups rpi) →
           ∀ ts, ShardGroupByTimestamp rpi1 ts
                 = List.find (λ g, accepts ts g && negb (sgi_ID g =? id))
                     (ShardGroups rpi))
  end.
Proof.
  unfold DeleteShardGroup.
  destruct (RetentionPolicy_at data database policy) as [err|[[[i j] rpi]|]] eqn:Hat.
  - split; [done|]. split; [done|]. by intros (? & ? & ? & ? & _).
  - destruct (list_find _ (ShardGroups rpi)) as [[k g]|] eqn:Hfind.
    + apply list_find_Some in Hfind as (Hk & Hid & Hfirst).
      eexists i, j, rpi, _. split; [done|]. split; [|split; [|split]].
      * by apply (RetentionPolicy_at_put data _ _ _ _ rpi).
      * apply list_elem_of_fmap. exists g. split; [done|].
        by eapply list_elem_of_lookup_2.
      * simpl. rewrite list_fmap_insert. simpl. apply list_insert_id.
        by rewrite list_lookup_fmap, Hk.
      * intros Hnow Hnd ts. unfold ShardGroupByTimestamp. simpl.
        rewrite <- (take_drop_middle _ _ _ Hk) in Hnd |- *.
        rewrite insert_app_r_alt by (rewrite length_take; lia).
        rewrite length_take, Nat.min_l by (apply lookup_lt_Some in Hk; lia).
        rewrite Nat.sub_diag. simpl.
        rewrite fmap_app, fmap_cons in Hnd.
        apply NoDup_app in Hnd as (_ & Hpre & Hnd).
        apply NoDup_cons in Hnd as [Hpost _].
        assert (∀ l, Forall (λ x, sgi_ID x ≠ id) l →
                     List.find (accepts ts) l
                     = List.find (λ g, accepts ts g && negb (sgi_ID g =? id)) l)
          as Hsame.
        { intros l Hl. apply find_ext. eapply Forall_impl; [exact Hl|].
          intros x Hx. simpl. destruct (Z.eqb_spec (sgi_ID x) id); [done|].
          by rewrite andb_true_r. }
        rewrite !find_app. simpl.
        rewrite <- Hsame.
        2:{ apply Forall_forall. intros x Hx Hxid. apply (Hpre (sgi_ID x)).
            - apply list_elem_of_fmap. eauto.
            - rewrite Hxid, <- Hid. left. }
        destruct (List.find (accepts ts) (take k (ShardGroups rpi))); [done|].
        rewrite Hid, Z.eqb_refl, andb_false_r.
        assert (accepts ts (set_DeletedAt now g) = false) as ->.
        { unfold accepts, Deleted, IsZero. simpl.
          destruct (Z.eqb_spec now 0); [done|]. simpl. by rewrite andb_false_r. }
        apply Hsame. apply Forall_forall. intros x Hx Hxid. apply Hpost.
        rewrite Hid, <- Hxid. apply list_elem_of_fmap. eauto.
    + apply list_find_None in Hfind. split; [done|]. split; [|done].
      intros _. exists i, j, rpi. split; [done|].
      intros Hin. apply list_elem_of_fmap in Hin as (g & Hg & Hin).
      rewrite Forall_forall in Hfind. by apply (Hfind g).
  - split; [done|]. split; [done|]. by intros (? & ? & ? & ? & _).
Qed.

(** ** Retention policies *)

Lemma shardGroupDuration_range d :
  Hour ≤ shardGroupDuration d ∧ (Hour ≤ d → shardGroupDuration d ≤ d).
Proof.
  unfold shardGroupDuration, Hour.
  destruct (Z.geb_spec d (180 * 24 * (3600 * 1000000000))); simpl; [lia|].
  destruct (Z.eqb_spec d 0); simpl; [lia|].
  destruct (Z.geb_spec d (2 * 24 * (3600 * 1000000000))); lia.
Qed.

(** The normalised shard group duration is at least an hour; it is the
    duration given when that is at least an hour. *)
Lemma normalisedShardDuration_range sgd d :
  Hour ≤ normalisedShardDuration sgd d
  ∧ (Hour ≤ sgd → normalisedShardDuration sgd d = sgd)
  ∧ (Hour ≤ d → sgd ≤ d → normalisedShardDuration sgd d ≤ d).
Proof.
  unfold normalisedShardDuration, MinRetentionPolicyDuration.
  pose proof (shardGroupDuration_range d) as [Hd1 Hd2].
  pose proof (shardGroupDuration_range Hour) as [Hh1 Hh2].
  assert (0 < Hour) by (unfold Hour; lia).
  destruct (Z.eqb_spec sgd 0) as [->|Hnz]; [split; [done|split; [lia|auto]]|].
  destruct (Z.ltb_spec sgd Hour); [|split; [lia|split; [done|lia]]].
  split; [done|]. split; [lia|]. intros. specialize (Hh2 ltac:(lia)). lia.
Qed.

Lemma policies_of_insert i di1 data rp :
  rp ∈ policies_of (set_Databases (<[i := di1]> (Databases data)) data) →
  rp ∈ RetentionPolicies di1 ∨ rp ∈ policies_of data.
Proof.
  unfold policies_of. simpl. rewrite !list_elem_of_bind.
  intros (db & Hrp & Hdb). apply list_elem_of_lookup in Hdb as [k Hk].
  destruct (decide (k = i)) as [->|Hne].
  - destruct (decide (i < length (Databases data))%nat).
    + rewrite list_lookup_insert_eq in Hk by done. injection Hk as <-. by left.
    + rewrite list_insert_ge in Hk by lia. right. exists db.
      split; [done|by eapply list_elem_of_lookup_2].
  - rewrite list_lookup_insert_ne in Hk by done. right. exists db.
    split; [done|by eapply list_elem_of_lookup_2].
Qed.

Lemma Database_at_elem data name i di :
  Database_at data name = Some (i, di) →
  Databases data !! i = Some di ∧ di_Name di = name.
Proof.
  unfold Database_at. intros Hf. by apply list_find_Some in Hf as (? & ? & _).
Qed.

Lemma di_RetentionPolicy_elem di name j rp :
  di_RetentionPolicy di name = Some (j, rp) → RetentionPolicies di !! j = Some rp.
Proof.
  unfold di_RetentionPolicy. repeat case_bool_decide; try done;
    intros Hf; by apply list_find_Some in Hf as (? & _).
Qed.

Lemma policy_of_database data i di rp :
  Databases data !! i = Some di → rp ∈ RetentionPolicies di → rp ∈ policies_of data.
Proof.
  intros Hdi Hrp. unfold policies_of. apply list_elem_of_bind. exists di.
  split; [done|by eapply list_elem_of_lookup_2].
Qed.

(** [CreateRetentionPolicy] leaves the store alone when it returns an
    error. A policy that a successful call adds has a name of one to 255
    bytes, a replication factor of at least one, and durations that fit.
    Repeating a successful call succeeds again and changes nothing. *)
Theorem CreateRetentionPolicy_sound (database : string)
    (rpi : option RetentionPolicyInfo) (makeDefault : bool) (data : Data) :
  match CreateRetentionPolicy database rpi makeDefault data with
  | (data1, Some e) => data1 = data
  | (data1, None) =>
      (∀ rp, rp ∈ policies_of data1 →
             rp ∈ policies_of data
             ∨ (rpi_Name rp ≠ "" ∧ (String.length (rpi_Name rp) ≤ 255)%nat
                ∧ 1 ≤ ReplicaN rp ∧ durations_fit rp))
      ∧ CreateRetentionPolicy database rpi makeDefault data1 = (data1, None)
  end.
Proof.
  unfold CreateRetentionPolicy. destruct rpi as [p|]; [|done].
  case_bool_decide as Hname; [done|].
  destruct (Nat.ltb_spec MaxNameLen (String.length (rpi_Name p))) as [|Hlen]; [done|].
  destruct (Z.ltb_spec (ReplicaN p) 1) as [|Hrep]; [done|].
  set (stored := set_ShardGroupDuration _ p).
  destruct ((Duration stored >? 0) && (Duration stored <? ShardGroupDuration stored))
    eqn:Hdur; [done|].
  assert (durations_fit stored) as Hfit.
  { unfold durations_fit. subst stored. simpl in *.
    pose proof (normalisedShardDuration_range (ShardGroupDuration p) (Duration p))
      as [Hh _]. split; [done|].
    apply andb_false_iff in Hdur as [Hd|Hd].
    - left. rewrite Z.gtb_ltb in Hd. by apply Z.ltb_ge in Hd.
    - right. by apply Z.ltb_ge in Hd. }
  destruct (Database_at data database) as [[i di]|] eqn:Hdb; [|done].
  destruct (di_RetentionPolicy di (rpi_Name stored)) as [[j rp]|] eqn:Hrp.
  - destruct (_ || _) eqn:Hsame; [done|].
    destruct (makeDefault && _) eqn:Hdef; [done|].
    split; [by left|]. by rewrite Hdb, Hrp, Hsame, Hdef.
  - pose proof (Database_at_elem _ _ _ _ Hdb) as [Hi Hdn].
    split.
    + intros rp Hin. apply policies_of_insert in Hin as [Hin|Hin]; [|by left].
      simpl in Hin. apply elem_of_app in Hin as [Hin|Hin].
      * left. by eapply policy_of_database.
      * apply list_elem_of_singleton in Hin as ->. right.
        split; [done|]. split; [unfold MaxNameLen in Hlen; done|]. done.
    + set (di1 := mkDatabaseInfo _ _ _ _).
      assert (Database_at (set_Databases (<[i := di1]> (Databases data)) data) database
              = Some (i, di1)) as ->.
      { unfold Database_at in *. apply list_find_Some in Hdb as (_ & _ & Hfirst).
        apply list_find_Some. simpl. split; [|split; [done|]].
        - apply list_lookup_insert_eq. by eapply lookup_lt_Some.
        - intros k y Hk Hlt. rewrite list_lookup_insert_ne in Hk by lia.
          by apply (Hfirst k). }
      assert (di_RetentionPolicy di1 (rpi_Name stored)
              = Some (length (RetentionPolicies di), stored)) as ->.
      { unfold di_RetentionPolicy in *. simpl in *.
        rewrite bool_decide_eq_false_2 in Hrp |- * by done.
        apply list_find_None in Hrp. apply list_find_Some.
        split; [by rewrite lookup_app_r, Nat.sub_diag|]. split; [done|].
        intros k y Hk Hlt. rewrite lookup_app_l in Hk by done.
        rewrite Forall_forall in Hrp. apply Hrp. by eapply list_elem_of_lookup_2. }
      rewrite !Z.eqb_refl. simpl.
      destruct makeDefault; simpl; [|done].
      by rewrite bool_decide_eq_true_2.
Qed.

(** [UpdateRetentionPolicy] leaves the store alone when it returns an
    error. When the durations of every policy fit, they still do after a
    successful call. The replication factor plays no part in the checks:
    a call that succeeds succeeds with any other factor in its place, and
    the policy then has that factor. *)
Theorem UpdateRetentionPolicy_sound (database name : string)
    (rpu : RetentionPolicyUpdate) (makeDefault : bool) (data : Data) :
  match UpdateRetentionPolicy database name rpu makeDefault data with
  | (data1, Some e) => data1 = data
  | (data1, None) =>
      ((∀ rp, rp ∈ policies_of data → durations_fit rp) →
       ∀ rp, rp ∈ policies_of data1 → durations_fit rp)
      ∧ ∀ r : Z,
          ∃ data2 i j di di2 rpi rpi2,
            UpdateRetentionPolicy database name
              (mkRetentionPolicyUpdate (rpu_Name rpu) (rpu_Duration rpu) (Some r)
                 (rpu_ShardGroupDuration rpu)) makeDefault data = (data2, None)
            ∧ Database_at data database = Some (i, di)
            ∧ di_RetentionPolicy di name = Some (j, rpi)
            ∧ Databases data2 !! i = Some di2
            ∧ RetentionPolicies di2 !! j = Some rpi2
            ∧ ReplicaN rpi2 = r
  end.
Proof.
  destruct (UpdateRetentionPolicy database name rpu makeDefault data)
    as [data1 e] eqn:Hcall.
  unfold UpdateRetentionPolicy in Hcall.
  destruct (Database_at data database) as [[i di]|] eqn:Hdb;
    [|by injection Hcall as <- <-].
  destruct (di_RetentionPolicy di name) as [[j rpi]|] eqn:Hrp;
    [|by injection Hcall as <- <-].
  destruct (match rpu_Name rpu with
            | Some n =>
                negb (bool_decide (n = name))
                && bool_decide (is_Some (di_RetentionPolicy di n))
            | None => false
            end) eqn:Hname; [by injection Hcall as <- <-|].
  destruct (match rpu_Duration rpu with
            | Some d => (d <? MinRetentionPolicyDuration) && negb (d =? 0)
            | None => false
            end) eqn:Hlow; [by injection Hcall as <- <-|].
  destruct (match rpu_Duration rpu with
            | Some d =>
                (d >? 0)
                && match rpu_ShardGroupDuration rpu with
                   | Some sgd => d <? sgd
                   | None => d <? ShardGroupDuration rpi
                   end
            | None =>
                (Duration rpi >? 0)
                && match rpu_ShardGroupDuration rpu with
                   | Some sgd => Duration rpi <? sgd
                   | None => false
                   end
            end) eqn:Hfit; [by injection Hcall as <- <-|].
  cbn zeta in Hcall. injection Hcall as <- <-.
  pose proof (Database_at_elem _ _ _ _ Hdb) as [Hi Hdn].
  pose proof (di_RetentionPolicy_elem _ _ _ _ Hrp) as Hj.
  split.
  - intros Hinv rp Hin. apply policies_of_insert in Hin as [Hin|Hin]; [|by apply Hinv].
    simpl in Hin. apply list_elem_of_lookup in Hin as [k Hk].
    destruct (decide (k = j)) as [->|Hne].
    2:{ rewrite list_lookup_insert_ne in Hk by done. apply Hinv.
        eapply policy_of_database; [done|]. by eapply list_elem_of_lookup_2. }
    rewrite list_lookup_insert_eq in Hk by (by eapply lookup_lt_Some).
    injection Hk as <-.
    destruct (Hinv rpi) as [Hh Hd].
    { eapply policy_of_database; [done|]. by eapply list_elem_of_lookup_2. }
    unfold durations_fit. simpl.
    assert (0 < Hour) as Hpos by (unfold Hour; lia).
    unfold MinRetentionPolicyDuration in Hlow.
    destruct (rpu_Duration rpu) as [d|]; simpl in *.
    + assert (d = 0 ∨ Hour ≤ d) as Hdd.
      { apply andb_false_iff in Hlow as [Hl|Hl].
        - right. by apply Z.ltb_ge in Hl.
        - left. apply negb_false_iff in Hl. by apply Z.eqb_eq in Hl. }
      destruct (rpu_ShardGroupDuration rpu) as [s|]; simpl in *.
      * pose proof (normalisedShardDuration_range s d) as (Hn1 & _ & Hn3).
        split; [done|]. destruct Hdd as [->|Hdd]; [left; lia|]. right.
        apply andb_false_iff in Hfit as [Hf|Hf]; [rewrite Z.gtb_ltb in Hf;
          apply Z.ltb_ge in Hf; lia|].
        apply Z.ltb_ge in Hf. by apply Hn3.
      * split; [done|]. destruct Hdd as [->|Hdd]; [left; lia|]. right.
        apply andb_false_iff in Hfit as [Hf|Hf]; [rewrite Z.gtb_ltb in Hf;
          apply Z.ltb_ge in Hf; lia|].
        by apply Z.ltb_ge in Hf.
    + destruct (rpu_ShardGroupDuration rpu) as [s|]; simpl in *; [|done].
      pose proof (normalisedShardDuration_range s (Duration rpi)) as (Hn1 & _ & Hn3).
      split; [done|].
      apply andb_false_iff in Hfit as [Hf|Hf].
      * left. rewrite Z.gtb_ltb in Hf. by apply Z.ltb_ge in Hf.
      * apply Z.ltb_ge in Hf. destruct Hd as [Hd|Hd]; [by left|].
        right. apply Hn3; lia.
  - intros r. eexists _, i, j, di, _, rpi, _.
    split.
    { unfold UpdateRetentionPolicy. rewrite Hdb, Hrp. simpl.
      rewrite Hname, Hlow, Hfit. reflexivity. }
    split; [done|]. split; [done|]. simpl.
    split; [apply list_lookup_insert_eq; by eapply lookup_lt_Some|].
    simpl. split; [apply list_lookup_insert_eq; by eapply lookup_lt_Some|done].
Qed.

(** A replication factor below zero can be stored: the policy of the
    store with four data nodes is given the factor -2. *)
Lemma UpdateRetentionPolicy_negative_factor :
  UpdateRetentionPolicy "db" "autogen"
    (mkRetentionPolicyUpdate None None (Some (-2)) None) false
    (MetaExamples.cluster MetaExamples.four_nodes (MetaExamples.autogen 2 0 []))
  = (MetaExamples.cluster MetaExamples.four_nodes (MetaExamples.autogen (-2) 0 []),
     None).
Proof. reflexivity. Qed.

End MetaFacts.

(** ** writeToShard: the consistency tally *)

Section TallyFacts.
Import GoTime Coordinator WriteSpec.
Variable foreign : error → string.

Lemma count_ok_nonneg rs : 0 ≤ count_ok rs.
Proof. induction rs as [|r rest IH]; simpl; [lia|]. destruct (Err r); lia. Qed.

(** The loop from any state, when every [select] left receives a result. *)
Lemma collect_in_order events required rs i wrote writeError stats :
  (∀ j r, rs !! j = Some r → events (i + j)%nat = EvResult r) →
  (collect foreign events required (length rs) i wrote writeError stats).1 =
    if (0 <? count_ok rs) && (required <=? wrote + count_ok rs) then None
    else if 0 <? wrote + count_ok rs then Some ErrPartialWrite
    else
      match (if writeError is Some e then Some e else first_saved foreign rs) with
      | Some e => Some (ErrorfWriteFailed e)
      | None => Some ErrWriteFailed
      end.
Proof.
  revert i wrote writeError stats.
  induction rs as [|r rest IH]; intros i wrote writeError stats Hev.
  - simpl. unfold after_owners. rewrite Z.add_0_r.
    replace (wrote >? 0) with (0 <? wrote) by (rewrite Z.gtb_ltb; done).
    destruct (0 <? wrote); [done|]. by destruct writeError.
  - pose proof (count_ok_nonneg rest) as Hnn.
    assert (events i = EvResult r) as Hi.
    { rewrite <- (Nat.add_0_r i). by apply Hev. }
    assert (∀ j r', rest !! j = Some r' → events (S i + j)%nat = EvResult r') as Hrest.
    { intros j r' Hj. replace (S i + j)%nat with (i + S j)%nat by lia. by apply Hev. }
    cbn [length collect count_ok first_saved]. rewrite Hi.
    destruct (Err r) as [e|] eqn:He.
    + destruct (is_queue_blocked foreign e) eqn:Hqb.
      * rewrite IH by done. rewrite Z.add_0_l. done.
      * rewrite IH by done. rewrite Z.add_0_l.
        destruct writeError; done.
    + rewrite Z.geb_leb.
      destruct (Z.leb_spec required (wrote + 1)) as [Hreq|Hreq].
      * simpl. destruct (Z.ltb_spec 0 (1 + count_ok rest)); [|lia].
        destruct (Z.leb_spec required (wrote + (1 + count_ok rest))); [done|lia].
      * rewrite IH by done.
        replace (wrote + 1 + count_ok rest) with (wrote + (1 + count_ok rest)) by lia.
        destruct (Z.ltb_spec 0 (1 + count_ok rest)); [|lia].
        destruct (Z.ltb_spec 0 (count_ok rest)); simpl; [done|].
        assert (count_ok rest = 0) as -> by lia.
        destruct (Z.leb_spec required (wrote + (1 + 0))); [lia|].
        destruct (Z.ltb_spec 0 (wrote + 1 + 0)); destruct (Z.ltb_spec 0 (wrote + (1 + 0)));
          try lia; done.
Qed.

(** The loop returns nil at the success that reaches [required], whatever
    the later [select]s would receive. *)
Lemma collect_returns_early events required n pre r i wrote writeError stats :
  (∀ j r', pre !! j = Some r' → events (i + j)%nat = EvResult r') →
  events (i + length pre)%nat = EvResult r →
  Err r = None →
  required ≤ wrote + count_ok pre + 1 →
  (length pre < n)%nat →
  (collect foreign events required n i wrote writeError stats).1 = None.
Proof.
  revert n i wrote writeError stats.
  induction pre as [|p rest IH]; intros n i wrote writeError stats Hev Hr Hok Hreq Hn.
  - destruct n as [|n]; [simpl in Hn; lia|]. simpl in *.
    rewrite Nat.add_0_r in Hr. rewrite Hr, Hok.
    rewrite Z.geb_leb. destruct (Z.leb_spec required (wrote + 1)); [done|lia].
  - destruct n as [|n]; [simpl in Hn; lia|].
    assert (events i = EvResult p) as Hi.
    { rewrite <- (Nat.add_0_r i). by apply Hev. }
    assert (∀ j r', rest !! j = Some r' → events (S i + j)%nat = EvResult r') as Hrest.
    { intros j r' Hj. replace (S i + j)%nat with (i + S j)%nat by lia. by apply Hev. }
    assert (events (S i + length rest)%nat = EvResult r) as Hr'.
    { rewrite <- Hr. f_equal. simpl. lia. }
    simpl in Hn. cbn [collect]. rewrite Hi. simpl in Hreq.
    destruct (Err p) as [e|] eqn:He.
    + destruct (is_queue_blocked foreign e).
      * apply (IH n); try done; lia.
      * apply (IH n); try done; lia.
    + rewrite Z.geb_leb. destruct (Z.leb_spec required (wrote + 1)); [done|].
      apply (IH n); try done; lia.
Qed.

(** Every owner goroutine sends one result, for its owner. *)
Lemma owner_write_Owner {W} (c : Collaborators W) allow database retentionPolicy
    consistency shardID owner points st :
  Owner (owner_write c allow database retentionPolicy consistency shardID owner
           points st).1 = owner.
Proof.
  unfold owner_write. destruct st as [stats w].
  destruct (mc_NodeID c w =? Meta.NodeID owner).
  - destruct (tsdb_WriteToShard c shardID points w) as [[e|] w1]; [|done].
    destruct e; try done.
    destruct (tsdb_CreateShard c database retentionPolicy shardID true w1)
      as [[e|] w2]; [done|].
    by destruct (tsdb_WriteToShard c shardID points w2).
  - destruct (negb allow && negb (hh_Empty c shardID (Meta.NodeID owner) w)).
    + by destruct (hh_WriteShard c shardID (Meta.NodeID owner) points w) as [[e|] w1].
    + destruct (sw_WriteShard c shardID (Meta.NodeID owner) points w) as [[e|] w1];
        [|done].
      destruct (hh_IsRetryable c e); [|done].
      destruct (hh_WriteShard c shardID (Meta.NodeID owner) points w1) as [[he|] w2];
        [done|]. by destruct consistency.
Qed.

Lemma run_owners_Owner {W} (c : Collaborators W) allow database retentionPolicy
    consistency shardID owners points st :
  Owner <$> (run_owners c allow database retentionPolicy consistency shardID
               owners points st).1 = owners.
Proof.
  revert st. induction owners as [|owner rest IH]; intros st; [done|].
  cbn [run_owners].
  pose proof (owner_write_Owner c allow database retentionPolicy consistency
                shardID owner points st) as Ho.
  destruct (owner_write c allow database retentionPolicy consistency shardID owner
              points st) as [r st1].
  specialize (IH st1).
  destruct (run_owners c allow database retentionPolicy consistency shardID rest
              points st1) as [rs st2].
  cbn [fst] in *. rewrite fmap_cons. by f_equal.
Qed.

(** The error [writeToShardWithContext] returns is the one the loop
    leaves, run on the results of the owner goroutines. *)
Lemma writeToShardWithContext_error {W} (c : Collaborators W) allow sched shard
    database retentionPolicy consistency points st :
  let run :=
    run_owners c allow database retentionPolicy consistency (Meta.si_ID shard)
      (Meta.Owners shard) points st in
  (writeToShardWithContext c foreign allow sched shard database retentionPolicy
     consistency points st).1
  = (collect foreign (sched run.1)
       (required_acks consistency (length (Meta.Owners shard)))
       (length (Meta.Owners shard)) 0 0 None run.2.1).1.
Proof.
  cbn zeta. unfold writeToShardWithContext.
  destruct (run_owners c allow database retentionPolicy consistency
              (Meta.si_ID shard) (Meta.Owners shard) points st)
    as [results [stats w]].
  simpl. by destruct (collect _ _ _ _ _ _ _ _).
Qed.

Lemma collect_ext events events' required n i wrote writeError stats :
  (∀ j, events j = events' j) →
  collect foreign events required n i wrote writeError stats
  = collect foreign events' required n i wrote writeError stats.
Proof.
  intros Hev. revert i wrote writeError stats.
  induction n as [|n IH]; intros i wrote writeError stats; [done|].
  cbn [collect]. rewrite <- Hev. destruct (events i) as [| |r]; try done.
  destruct (Err r) as [e|].
  - destruct (is_queue_blocked foreign e); apply IH.
  - destruct (_ >=? _); [done|apply IH].
Qed.

(** C2. [writeToShardWithContext] starts one goroutine per owner of the
    shard and each sends one result, for its owner. The acknowledgments
    required are 1 for Any and One, half the owners rounded down plus one
    for Quorum, and all the owners for All. The call returns nil at the
    success that brings the number of successful owner writes to the
    required count, without looking at later results. When every owner
    has reported without that, it returns the partial write error if some
    write succeeded; if none did, the first error received that is not
    the queue-blocked sentinel wrapped as a write failure, or the plain
    write-failed error when there is no such error. *)
Theorem writeToShard_tally {W : Type} (c : Collaborators W)
    (AllowOutOfOrderWrites : bool)
    (sched : list AsyncWriteResult → nat → select_event AsyncWriteResult)
    (shard : Meta.ShardInfo) (database retentionPolicy : string)
    (consistency : ConsistencyLevel) (points : list Point)
    (st : WriteStatistics * W) :
  let owners := length (Meta.Owners shard) in
  let required := required_acks consistency owners in
  let results :=
    (run_owners c AllowOutOfOrderWrites database retentionPolicy consistency
       (Meta.si_ID shard) (Meta.Owners shard) points st).1 in
  let returned :=
    (writeToShardWithContext c foreign AllowOutOfOrderWrites sched shard
       database retentionPolicy consistency points st).1 in
  required =
    match consistency with
    | ConsistencyLevelAny | ConsistencyLevelOne => 1
    | ConsistencyLevelQuorum => Z.of_nat owners / 2 + 1
    | ConsistencyLevelAll => Z.of_nat owners
    end
  ∧ Owner <$> results = Meta.Owners shard
  ∧ (∀ pre r,
       (∀ j r', pre !! j = Some r' → sched results j = EvResult r') →
       sched results (length pre) = EvResult r →
       Err r = None →
       required ≤ count_ok pre + 1 →
       (length pre < owners)%nat →
       returned = None)
  ∧ (∀ rs,
       rs ≡ₚ results →
       (∀ j, sched results j = in_order rs j) →
       returned =
         if (0 <? count_ok rs) && (required <=? count_ok rs) then None
         else if 0 <? count_ok rs then Some ErrPartialWrite
         else
           match first_saved foreign rs with
           | Some e => Some (ErrorfWriteFailed e)
           | None => Some ErrWriteFailed
           end).
Proof.
  intros owners required results returned.
  assert (Owner <$> results = Meta.Owners shard) as Hres
    by apply run_owners_Owner.
  split; [|split; [done|split]].
  - subst required. destruct consistency; simpl; try done.
    rewrite Z.quot_div_nonneg by lia. done.
  - intros pre r Hev Hr Hok Hreq Hlen. subst returned.
    rewrite writeToShardWithContext_error. cbn zeta.
    apply (collect_returns_early _ required owners pre r 0 0 None);
      [intros j r' Hj; by apply Hev|exact Hr|done|lia|done].
  - intros rs Hperm Hev. subst returned.
    rewrite writeToShardWithContext_error. cbn zeta.
    rewrite (collect_ext _ (in_order rs)) by (intros j; apply Hev).
    change (required_acks consistency (length (Meta.Owners shard))) with required.
    assert (length (Meta.Owners shard) = length rs) as ->.
    { by rewrite <- Hres, length_fmap, Hperm. }
    rewrite collect_in_order.
    + by rewrite !Z.add_0_l.
    + intros j r Hj. unfold in_order. simpl. by rewrite Hj.
Qed.

End TallyFacts.

(** The theorem at a shard owned by the writer's node and two remote
    nodes with a backlog, under Quorum: the local write is the only
    success, one short of the two required. *)
Lemma writeToShard_tally_witness :
  let shard :=
    Meta.mkShardInfo 7
      [Meta.mkShardOwner 1; Meta.mkShardOwner 2; Meta.mkShardOwner 3] in
  (Coordinator.writeToShardWithContext Examples.backlog Examples.foreign_texts
     false WriteSpec.in_order shard "db" "rp" Coordinator.ConsistencyLevelQuorum
     [Examples.a_point] (Examples.zero_stats, 0%nat)).1
  = Some Coordinator.ErrPartialWrite.
Proof.
  intros shard.
  destruct (writeToShard_tally Examples.foreign_texts Examples.backlog false
              WriteSpec.in_order shard "db" "rp" Coordinator.ConsistencyLevelQuorum
              [Examples.a_point] (Examples.zero_stats, 0%nat))
    as (_ & _ & _ & Hall).
  cbn zeta in Hall. rewrite (Hall _ (reflexivity _) (λ _, eq_refl)).
  reflexivity.
Defined.

(** ** WritePoints: waiting for the shards *)

Section AwaitFacts.
Import GoTime Coordinator WriteSpec.

Lemma send_to_subscribers_counts subPoints ok dropped :
  send_to_subscribers subPoints ok dropped =
    (ok + count_ready subPoints, dropped + count_not_ready subPoints).
Proof.
  unfold count_ready, count_not_ready.
  revert ok dropped. induction subPoints as [|ch rest IH]; intros ok dropped.
  - simpl. f_equal; lia.
  - destruct ch; cbn [send_to_subscribers]; rewrite IH; simpl; f_equal; lia.
Qed.

(** The subscriber sends change the two subscriber counters only. *)
Lemma publish_counters subPoints stats :
  publish subPoints stats =
    mkWriteStatistics (WriteReq stats) (PointWriteReq stats)
      (PointWriteReqLocal stats) (PointWriteReqRemote stats)
      (PointWriteReqHH stats) (WriteOK stats) (WritePartial stats)
      (WriteDropped stats) (WriteTimeout stats) (WriteErr stats)
      (SubWriteOK stats + count_ready subPoints)
      (SubWriteDrop stats + count_not_ready subPoints).
Proof.
  unfold publish. rewrite send_to_subscribers_counts, !Z.add_0_l.
  assert (0 ≤ count_ready subPoints) by (unfold count_ready; lia).
  assert (0 ≤ count_not_ready subPoints) by (unfold count_not_ready; lia).
  rewrite !Z.gtb_ltb.
  generalize dependent (count_ready subPoints). intros r Hr0.
  generalize dependent (count_not_ready subPoints). intros d Hd0.
  destruct (Z.ltb_spec 0 r) as [Hr|Hr]; destruct (Z.ltb_spec 0 d) as [Hd|Hd];
    destruct stats; unfold add_SubWriteOK, add_SubWriteDrop; cbn; f_equal; lia.
Qed.

(** The wait returns the first error it receives. *)
Lemma await_shards_fail_fast events n k e i err stats :
  (∀ j, (j < k)%nat → events (i + j)%nat = EvResult None) →
  events (i + k)%nat = EvResult (Some e) →
  (k < n)%nat →
  await_shards events n i err stats = (Some e, stats).
Proof.
  revert n i. induction k as [|k IH]; intros n i Hev He Hn.
  - destruct n as [|n]; [lia|]. simpl.
    rewrite Nat.add_0_r in He. by rewrite He.
  - destruct n as [|n]; [lia|]. cbn [await_shards].
    rewrite <- (Nat.add_0_r i) at 1. rewrite Hev by lia.
    apply IH; [| |lia].
    + intros j Hj. replace (S i + j)%nat with (i + S j)%nat by lia.
      apply Hev. lia.
    + rewrite <- He. f_equal. lia.
Qed.

Lemma await_shards_in_order (rs : list (option error)) i err stats events :
  (∀ j r, rs !! j = Some r → events (i + j)%nat = EvResult r) →
  await_shards events (length rs) i err stats =
    (if first_error rs is Some e then Some e else err, stats).
Proof.
  revert i. induction rs as [|r rest IH]; intros i Hev; [done|].
  cbn [length await_shards first_error].
  rewrite <- (Nat.add_0_r i) at 1. rewrite (Hev 0%nat r) by done.
  destruct r as [e|]; [done|]. apply IH.
  intros j r Hj. replace (S i + j)%nat with (i + S j)%nat by lia. by apply Hev.
Qed.

(** [MapShards] gives every shard it maps points to an entry in [Shards]. *)
Lemma map_points_keys points list mapping stats mapping1 stats1 :
  (∀ k, is_Some (sm_Points mapping !! k) → is_Some (sm_Shards mapping !! k)) →
  map_points points list mapping stats = (Returns mapping1, stats1) →
  ∀ k, is_Some (sm_Points mapping1 !! k) → is_Some (sm_Shards mapping1 !! k).
Proof.
  revert list mapping stats. induction points as [|p rest IH];
    intros list mapping stats Hinv Hmap.
  - injection Hmap as <- _. done.
  - cbn [map_points] in Hmap.
    destruct (ShardGroupAt list (p_Time p)) as [[sg|] list1].
    + destruct (ShardFor sg p) as [sh|]; [|done].
      eapply IH; [|exact Hmap]. intros k. unfold MapPoint. simpl.
      destruct (decide (k = Meta.si_ID sh)) as [->|Hne].
      * rewrite !lookup_insert_eq. done.
      * rewrite !lookup_insert_ne by done. apply Hinv.
    + eapply IH; [|exact Hmap]. done.
Qed.

Lemma MapShards_keys {W} (c : Collaborators W) MinNanoTime now wp st mapping st1 :
  MapShards c MinNanoTime now wp st = (Returns mapping, st1) →
  ∀ k, is_Some (sm_Points mapping !! k) → is_Some (sm_Shards mapping !! k).
Proof.
  unfold MapShards. destruct st as [stats w].
  destruct (mc_RetentionPolicy c (wp_Database wp) (wp_RetentionPolicy wp) w)
    as [err|[rp|]]; [done| |done].
  destruct (create_groups c _ _ _ _ _ w) as [[list|err|] w1]; [|done|done].
  destruct (map_points (wp_Points wp) list _ stats) as [r stats1] eqn:Hmap.
  intros [= -> <-]. eapply map_points_keys; [|exact Hmap].
  intros k. simpl. rewrite lookup_empty. by intros [? ?].
Qed.

(** With an entry in [Shards] for each of them, every shard goroutine
    sends one result. *)
Lemma run_shards_returns {W} (c : Collaborators W) foreign allow sched database
    retentionPolicy consistency mapping shards st :
  Forall (λ kp, is_Some (sm_Shards mapping !! kp.1)) shards →
  ∃ results st2,
    run_shards c foreign allow sched database retentionPolicy consistency mapping
      shards st = (Returns results, st2)
    ∧ length results = length shards.
Proof.
  intros Hall. revert st. induction Hall as [|[k pts] rest [shard Hk] _ IH];
    intros st.
  - by exists [], st.
  - cbn [run_shards]. simpl in Hk. rewrite Hk.
    destruct (shard_write c foreign allow sched shard database retentionPolicy
                consistency pts st) as [r st1].
    destruct (IH st1) as (rs & st2 & -> & Hlen).
    exists (r :: rs), st2. split; [done|]. simpl. by rewrite Hlen.
Qed.

Lemma await_shards_ext events events' n i err stats :
  (∀ j, events j = events' j) →
  await_shards events n i err stats = await_shards events' n i err stats.
Proof.
  intros Hev. revert i. induction n as [|n IH]; intros i; [done|].
  cbn [await_shards]. rewrite <- Hev.
  destruct (events i) as [| |[e|]]; auto.
Qed.

(** C8. Take a call whose policy is found and whose points [MapShards]
    maps. A goroutine is started for every mapped shard and each sends
    one result. When these results all arrive, the call returns the first
    shard error it receives; the error prepared for dropped points is
    returned only if no shard result is an error, and nil if there is
    none either. The call stops waiting at the first error it receives,
    whatever the later results. The subscriber channels play no part in
    the error: a channel that does not take the send adds one to the drop
    counter, one that takes it adds one to the ok counter, and no other
    counter moves. *)
Theorem WritePoints_error {W : Type} (c : Collaborators W)
    (foreign : error → string) (MinNanoTime : Z) (AllowOutOfOrderWrites : bool)
    (now : Time) (order : gmap Z (list Point) → list (Z * list Point))
    (sched : list AsyncWriteResult → nat → select_event AsyncWriteResult)
    (sched_shards : list (option error) → nat → select_event (option error))
    (subPoints : list chan_state)
    (database retentionPolicy policy : string)
    (consistencyLevel : ConsistencyLevel) (points : list Point)
    (stats : WriteStatistics) (w : W)
    (mapping : ShardMapping) (stats1 : WriteStatistics) (w1 : W) :
  (retentionPolicy ≠ "" ∧ policy = retentionPolicy
   ∨ retentionPolicy = ""
     ∧ ∃ db, mc_Database c database w = Some db
             ∧ policy = Meta.DefaultRetentionPolicy db) →
  MapShards c MinNanoTime now (mkWritePointsRequest database policy points)
    (add_PointWriteReq (Z.of_nat (length points)) (add_WriteReq 1 stats), w)
  = (Returns mapping, (stats1, w1)) →
  order (sm_Points mapping) ≡ₚ map_to_list (sm_Points mapping) →
  let call subs :=
    WritePointsPrivilegedWithContext c foreign MinNanoTime AllowOutOfOrderWrites
      now order sched sched_shards subs database retentionPolicy
      consistencyLevel points (stats, w) in
  ∃ results stats2 w2,
    run_shards c foreign AllowOutOfOrderWrites sched database policy
      consistencyLevel mapping (order (sm_Points mapping)) (stats1, w1)
    = (Returns results, (stats2, w2))
    ∧ length results = size (sm_Points mapping)
    ∧ (∀ rs,
         rs ≡ₚ results →
         (∀ j, sched_shards results j = in_order rs j) →
         call subPoints =
           (match first_error rs with
            | Some e => Fails e
            | None =>
                match dropped_error mapping with
                | Some e => Fails e
                | None => Returns ()
                end
            end,
            (publish subPoints stats2, w2)))
    ∧ (∀ k e,
         (∀ j, (j < k)%nat → sched_shards results j = EvResult None) →
         sched_shards results k = EvResult (Some e) →
         (k < length results)%nat →
         (call subPoints).1 = Fails e)
    ∧ (∀ subs, (call subs).1 = (call subPoints).1)
    ∧ publish subPoints stats2 =
        mkWriteStatistics (WriteReq stats2) (PointWriteReq stats2)
          (PointWriteReqLocal stats2) (PointWriteReqRemote stats2)
          (PointWriteReqHH stats2) (WriteOK stats2) (WritePartial stats2)
          (WriteDropped stats2) (WriteTimeout stats2) (WriteErr stats2)
          (SubWriteOK stats2 + count_ready subPoints)
          (SubWriteDrop stats2 + count_not_ready subPoints).
Proof.
  intros Hpolicy Hmap Horder call.
  destruct (run_shards_returns c foreign AllowOutOfOrderWrites sched database
              policy consistencyLevel mapping (order (sm_Points mapping))
              (stats1, w1)) as (results & [stats2 w2] & Hrun & Hlen).
  { rewrite Horder. apply Forall_forall. intros [k pts] Hin.
    apply elem_of_map_to_list in Hin. simpl.
    apply (MapShards_keys _ _ _ _ _ _ _ Hmap). by exists pts. }
  rewrite Horder, length_map_to_list in Hlen.
  assert (∀ subs,
            call subs =
              let '(err, stats3) :=
                finish_write subs (sched_shards results) mapping stats2 in
              (match err with Some e => Fails e | None => Returns () end,
               (stats3, w2))) as Hcall.
  { intros subs. unfold call, WritePointsPrivilegedWithContext.
    destruct Hpolicy as [[Hne ->]|(-> & db & Hdb & ->)].
    - rewrite bool_decide_eq_false_2 by done. by rewrite Hmap, Hrun.
    - rewrite bool_decide_eq_true_2 by done. by rewrite Hdb, Hmap, Hrun. }
  exists results, stats2, w2. split; [done|]. split; [done|].
  split; [|split; [|split]].
  - intros rs Hperm Hev. rewrite Hcall. unfold finish_write.
    rewrite (await_shards_ext _ (in_order rs)) by done.
    rewrite <- Hlen, <- Hperm, await_shards_in_order.
    + unfold dropped_error. destruct (first_error rs); [done|].
      by destruct (sm_Dropped mapping).
    + intros j r Hj. unfold in_order. simpl. by rewrite Hj.
  - intros k e Hev He Hk. rewrite Hcall. unfold finish_write.
    rewrite <- Hlen.
    by rewrite (await_shards_fail_fast _ (length results) k e 0).
  - intros subs. rewrite !Hcall. unfold finish_write.
    assert (∀ events n i err sa sb,
              (await_shards events n i err sa).1
              = (await_shards events n i err sb).1) as Hstats.
    { intros events n. induction n as [|n IH]; intros i err sa sb; [done|].
      cbn [await_shards]. destruct (events i) as [| |[e|]]; auto. }
    specialize (Hstats (sched_shards results) (size (sm_Points mapping)) 0%nat
                  (if (0 <? length (sm_Dropped mapping))%nat
                   then Some (PartialWriteError ReasonBeyondRetentionPolicy
                                (length (sm_Dropped mapping)))
                   else None)
                  (publish subs stats2) (publish subPoints stats2)).
    destruct (await_shards _ _ _ _ (publish subs stats2)) as [ea sa].
    destruct (await_shards _ _ _ _ (publish subPoints stats2)) as [eb sb].
    simpl in *. by subst.
  - apply publish_counters.
Qed.

(** The theorem at a request of two points, one of them before the
    lowest time of the policy: the recent point is written to shard 7 on
    the writer's node, and the error for the dropped point is returned
    after that write has succeeded. Two of the three subscriber channels
    do not take the send. *)
Lemma WritePoints_error_witness :
  let points := [Examples.recent_point; Examples.a_point] in
  let call :=
    WritePointsPrivilegedWithContext Examples.serving Examples.foreign_texts
      Examples.MinNanoTime false 0 map_to_list in_order in_order
      [ChanFull; ChanReady; ChanNil] "db" "" ConsistencyLevelOne points
      (Examples.zero_stats, 0%nat) in
  MapShards Examples.serving Examples.MinNanoTime 0
    (mkWritePointsRequest "db" "autogen" points)
    (add_PointWriteReq 2 (add_WriteReq 1 Examples.zero_stats), 0%nat)
  = (Returns Examples.one_shard, (mkWriteStatistics 1 2 0 0 0 0 0 1 0 0 0 0, 0%nat))
  ∧ call =
      (Fails (PartialWriteError ReasonBeyondRetentionPolicy 1),
       (mkWriteStatistics 1 2 1 0 0 1 0 1 0 0 1 2, 1%nat)).
Proof.
  intros points call.
  assert (MapShards Examples.serving Examples.MinNanoTime 0
            (mkWritePointsRequest "db" "autogen" points)
            (add_PointWriteReq (Z.of_nat (length points))
               (add_WriteReq 1 Examples.zero_stats), 0%nat)
          = (Returns Examples.one_shard,
             (mkWriteStatistics 1 2 0 0 0 0 0 1 0 0 0 0, 0%nat))) as Hmap.
  { reflexivity. }
  split; [exact Hmap|].
  destruct (WritePoints_error Examples.serving Examples.foreign_texts
              Examples.MinNanoTime false 0 map_to_list in_order in_order
              [ChanFull; ChanReady; ChanNil] "db" "" "autogen"
              ConsistencyLevelOne points Examples.zero_stats 0%nat
              Examples.one_shard _ _
              (or_intror (conj eq_refl (ex_intro _ _ (conj eq_refl eq_refl))))
              Hmap (reflexivity _))
    as (results & stats2 & w2 & Hrun & _ & Hall & _).
  vm_compute in Hrun. injection Hrun as <- <- <-.
  exact (Hall _ (reflexivity _) (λ _, eq_refl)).
Defined.

End AwaitFacts.

(** ** writeToShard: an owner with a hinted-handoff backlog *)

Section HandoffFacts.
Import GoTime Coordinator WriteSpec.

(** C7, as the code has it. With out-of-order writes off, a remote owner
    whose hinted-handoff queue is not empty gets no direct write: the only
    collaborator call is the enqueue, and the handoff counter grows by the
    number of points. When the enqueue succeeds the owner's result carries
    the queue-not-empty error. That result does not end the shard write and
    does not count as an acknowledgment. It is skipped without being saved
    only if its text is the text of the queue-blocked error, the one the
    loop compares with; otherwise it is saved as the first error when no
    error is saved yet. *)
Theorem handoff_bypass {W : Type} (c : Collaborators W)
    (foreign : error → string) (database retentionPolicy : string)
    (consistency : ConsistencyLevel) (shardID : Z) (owner : Meta.ShardOwner)
    (points : list Point) (stats : WriteStatistics) (w : W) :
  mc_NodeID c w ≠ Meta.NodeID owner →
  hh_Empty c shardID (Meta.NodeID owner) w = false →
  owner_write c false database retentionPolicy consistency shardID owner
    points (stats, w) =
    (mkAsyncWriteResult owner
       (Some (default ErrHintedHandoffQueueNotEmpty
                (hh_WriteShard c shardID (Meta.NodeID owner) points w).1)),
     (add_PointWriteReqHH (Z.of_nat (length points)) stats,
      (hh_WriteShard c shardID (Meta.NodeID owner) points w).2))
  ∧ (∀ events required n i wrote writeError stats1,
       events i =
         EvResult (mkAsyncWriteResult owner (Some ErrHintedHandoffQueueNotEmpty)) →
       collect foreign events required (S n) i wrote writeError stats1 =
         collect foreign events required n (S i) wrote
           (if is_queue_blocked foreign ErrHintedHandoffQueueNotEmpty
            then writeError
            else Some (default ErrHintedHandoffQueueNotEmpty writeError))
           (add_WriteErr 1 stats1)).
Proof.
  intros Hself Hempty. split.
  - unfold owner_write. destruct (Z.eqb_spec (mc_NodeID c w) (Meta.NodeID owner));
      [done|].
    rewrite Hempty. simpl.
    destruct (hh_WriteShard c shardID (Meta.NodeID owner) points w) as [[e|] w1];
      done.
  - intros events required n i wrote writeError stats1 Hev.
    cbn [collect]. rewrite Hev. cbn [Err].
    destruct (is_queue_blocked foreign ErrHintedHandoffQueueNotEmpty); [done|].
    by destruct writeError.
Qed.

(** The theorem at shard 7 owned by node 2, written from node 1. *)
Lemma handoff_bypass_witness :
  mc_NodeID Examples.backlog 0%nat ≠ 2
  ∧ hh_Empty Examples.backlog 7 2 0%nat = false
  ∧ owner_write Examples.backlog false "db" "rp" ConsistencyLevelOne 7
      (Meta.mkShardOwner 2) [Examples.a_point] (Examples.zero_stats, 0%nat) =
    (mkAsyncWriteResult (Meta.mkShardOwner 2) (Some ErrHintedHandoffQueueNotEmpty),
     (mkWriteStatistics 0 0 0 0 1 0 0 0 0 0 0 0, 0%nat)).
Proof.
  split; [vm_compute; discriminate|]. split; [reflexivity|].
  exact (proj1 (handoff_bypass Examples.backlog Examples.foreign_texts "db" "rp"
                  ConsistencyLevelOne 7 (Meta.mkShardOwner 2) [Examples.a_point]
                  Examples.zero_stats 0%nat ltac:(vm_compute; discriminate) eq_refl)).
Defined.

(** The claim as written fails when the two sentinels have different
    texts: the shard write below has one remote owner with a backlog; the
    enqueue succeeds, no remote write is made (the state still counts
    none), and the queue-not-empty error is the error saved and returned
    inside the write failure. *)
Lemma queue_not_empty_is_saved :
  writeToShardWithContext Examples.backlog Examples.foreign_texts false
    in_order Examples.remote_shard "db" "rp" ConsistencyLevelOne
    [Examples.a_point] (Examples.zero_stats, 0%nat) =
  (Some (ErrorfWriteFailed ErrHintedHandoffQueueNotEmpty),
   (mkWriteStatistics 0 0 0 0 1 0 0 0 0 1 0 0, 0%nat)).
Proof. vm_compute. reflexivity. Qed.

End HandoffFacts.

(** ** sgList *)

Section ListFacts.
Import GoTime Coordinator WriteSpec.

(** The binary search ends on an index between its bounds; the closure
    holds at it if it is not the upper bound, and fails just before it if
    it is not the lower bound. *)
Lemma Search_loop_spec f i j :
  (i ≤ j)%nat →
  (i ≤ Search_loop f i j ≤ j)%nat
  ∧ ((Search_loop f i j < j)%nat → f (Search_loop f i j) = true)
  ∧ ((i < Search_loop f i j)%nat → f (pred (Search_loop f i j)) = false).
Proof.
  funelim (Search_loop f i j); intros Hij.
  - clear Heqcall. pose proof (mid_bounds i j l) as Hmid.
    destruct (f (Nat.div2 (i + j))) eqn:Hf.
    + destruct (H ltac:(lia)) as (Hr & Ht & Hfalse).
      split; [lia|]. split; [|done]. intros _.
      destruct (decide (Search_loop f i (Nat.div2 (i + j)) = Nat.div2 (i + j)))
        as [->|Hne]; [done|apply Ht; lia].
    + destruct (H0 ltac:(lia)) as (Hr & Ht & Hfalse).
      split; [lia|]. split; [done|]. intros _.
      destruct (decide (Search_loop f (S (Nat.div2 (i + j))) j = S (Nat.div2 (i + j))))
        as [->|Hne]; [done|apply Hfalse; lia].
  - split; [lia|]. split; intros; lia.
Qed.

Lemma sorted_items_perm l : sorted_items l ≡ₚ items l.
Proof. unfold sorted_items. destruct (needsSort l); [apply sort_Sort_perm|done]. Qed.

Lemma linear_search_Some its t g :
  linear_search its t = Some g → g ∈ its ∧ Meta.Contains g t = true.
Proof.
  unfold linear_search. intros Hf. apply find_some in Hf as [Hin Hc].
  split; [by apply list_elem_of_In|done].
Qed.

Lemma fallback_Some l its t g :
  fallback l its t = Some g → g ∈ its ∧ Meta.Contains g t = true.
Proof.
  unfold fallback. destruct (_ || _); [done|]. apply linear_search_Some.
Qed.

(** A group [ShardGroupAt] returns is a group of the list that contains
    the time; the call leaves the caller a permutation of its groups and
    the same flag and bounds. *)
Theorem ShardGroupAt_sound (l : sgList) (t : Time) (g : Meta.ShardGroupInfo)
    (l1 : sgList) :
  ShardGroupAt l t = (Some g, l1) →
  g ∈ items l ∧ Meta.Contains g t = true
  ∧ items l1 ≡ₚ items l ∧ needsSort l1 = needsSort l
  ∧ earliest l1 = earliest l ∧ latest l1 = latest l.
Proof.
  unfold ShardGroupAt. destruct (length (items l) =? 0)%nat; [done|].
  set (its := sorted_items l).
  assert (its ≡ₚ items l) as Hperm by apply sorted_items_perm.
  destruct (Search_loop_spec (end_after its t) 0 (length its) ltac:(lia))
    as (Hr & Ht & _).
  fold (Search (length its) (end_after its t)) in Hr, Ht.
  set (idx := Search (length its) (end_after its t)) in *.
  destruct (its !! idx) as [g1|] eqn:Hlook.
  - destruct (Before t (Meta.StartTime g1)) eqn:Hb.
    + intros [= Hf <-]. apply fallback_Some in Hf as [Hin Hc]. simpl.
      rewrite <- Hperm. done.
    + intros [= <- <-]. simpl. split; [|split; [|done]].
      * rewrite <- Hperm. by eapply list_elem_of_lookup_2.
      * specialize (Ht (lookup_lt_Some _ _ _ Hlook)).
        unfold end_after in Ht. rewrite Hlook in Ht.
        unfold Meta.Contains. rewrite Hb. unfold After, Before in *. by rewrite Ht.
  - intros [= Hf <-]. apply fallback_Some in Hf as [Hin Hc]. simpl.
    rewrite <- Hperm. done.
Qed.

(** The theorem at a list of one group. *)
Lemma ShardGroupAt_sound_witness :
  let g := Meta.mkShardGroupInfo 1 10 20 0 [] 0 in
  let l := mksgList [g] true 10 20 in
  ShardGroupAt l 15 = (Some g, l)
  ∧ g ∈ items l ∧ Meta.Contains g 15 = true.
Proof.
  cbn zeta. split; [reflexivity|].
  destruct (ShardGroupAt_sound
              (mksgList [Meta.mkShardGroupInfo 1 10 20 0 [] 0] true 10 20) 15
              (Meta.mkShardGroupInfo 1 10 20 0 [] 0)
              (mksgList [Meta.mkShardGroupInfo 1 10 20 0 [] 0] true 10 20)
              eq_refl) as (Hin & Hc & _).
  split; [exact Hin|exact Hc].
Defined.

(** The bounds of a list built with [Add]. *)
Lemma built_bounds gs l :
  Forall (λ g, Meta.StartTime g ≠ 0 ∧ Meta.EndTime g ≠ 0) gs →
  (items l = [] ∧ earliest l = 0 ∧ latest l = 0
   ∨ earliest l ≠ 0 ∧ latest l ≠ 0
     ∧ Forall (λ g, earliest l ≤ Meta.StartTime g ∧ Meta.EndTime g ≤ latest l)
         (items l)) →
  let l1 := fold_left Add_group gs l in
  items l1 = items l ++ gs
  ∧ (items l1 = [] ∧ earliest l1 = 0 ∧ latest l1 = 0
     ∨ earliest l1 ≠ 0 ∧ latest l1 ≠ 0
       ∧ Forall (λ g, earliest l1 ≤ Meta.StartTime g ∧ Meta.EndTime g ≤ latest l1)
           (items l1)).
Proof.
  intros Hnz. revert l. induction Hnz as [|g gs [Hs He] Hgs IH]; intros l Hl.
  - simpl. by rewrite app_nil_r.
  - cbn [fold_left]. cbn zeta in IH.
    destruct (IH (Add_group l g)) as [Hitems Hinv].
    + right. unfold Add_group, IsZero, After, Before. simpl.
      destruct Hl as [(Hnil & He0 & Hl0)|(He0 & Hl0 & Hall)].
      * rewrite He0, Hl0, Hnil. simpl. repeat split; try done.
        constructor; [lia|constructor].
      * destruct (Z.eqb_spec (earliest l) 0); [done|].
        destruct (Z.eqb_spec (latest l) 0); [done|]. simpl.
        destruct (Z.ltb_spec (Meta.StartTime g) (earliest l));
          destruct (Z.ltb_spec (latest l) (Meta.EndTime g));
          (split; [done|]); (split; [done|]);
          (apply Forall_app; split;
           [eapply Forall_impl; [exact Hall|]; simpl; intros; lia
           |constructor; [lia|constructor]]).
    + cbn zeta. split; [|exact Hinv].
      rewrite Hitems. simpl. by rewrite <- app_assoc.
Qed.

(** For a list built with [Add] from groups whose start and end are not
    the zero time, [Covers] is exact: it reports a time as covered if and
    only if some group of the list contains it, whatever the order of the
    groups and whether or not they overlap. *)
Theorem Covers_built (gs : list Meta.ShardGroupInfo) (t : Time) :
  Forall (λ g, Meta.StartTime g ≠ 0 ∧ Meta.EndTime g ≠ 0) gs →
  (Covers (built gs) t).1 = true
  ↔ Exists (λ g, Meta.Contains g t = true) gs.
Proof.
  intros Hnz.
  destruct (built_bounds gs (mksgList [] false 0 0) Hnz ltac:(by left))
    as [Hitems Hinv]. fold (built gs) in Hitems, Hinv. simpl in Hitems.
  unfold Covers. split.
  - destruct (length (items (built gs)) =? 0)%nat; [done|].
    destruct (ShardGroupAt (built gs) t) as [[g|] l1] eqn:Hat; simpl.
    + intros _. apply ShardGroupAt_sound in Hat as (Hin & Hc & _).
      apply Exists_exists. exists g. by rewrite <- Hitems.
    + intros Hd. first [done|by apply bool_decide_eq_true in Hd].
  - intros Hex. apply Exists_exists in Hex as (g & Hin & Hc).
    rewrite <- Hitems in Hin.
    destruct (Nat.eqb_spec (length (items (built gs))) 0) as [Hz|Hz].
    { destruct (items (built gs)); [by apply elem_of_nil in Hin|done]. }
    destruct (ShardGroupAt (built gs) t) as [[g1|] l1] eqn:Hat; simpl.
    + first [done|by apply bool_decide_eq_true].
    + exfalso. revert Hat. unfold ShardGroupAt.
      destruct (Nat.eqb_spec (length (items (built gs))) 0); [done|].
      assert (fallback (built gs) (sorted_items (built gs)) t ≠ None) as Hfb.
      { unfold fallback.
        destruct Hinv as [(Hnil & _)|(_ & _ & Hall)];
          [rewrite Hnil in Hin; by apply elem_of_nil in Hin|].
        rewrite Forall_forall in Hall. destruct (Hall g Hin) as [Hlo Hhi].
        unfold Meta.Contains, Before, After in *.
        apply andb_true_iff in Hc as [Hc1 Hc2].
        apply negb_true_iff, Z.ltb_ge in Hc1. apply Z.ltb_lt in Hc2.
        destruct (Z.ltb_spec t (earliest (built gs))); [lia|].
        destruct (Z.ltb_spec (latest (built gs)) t); [lia|]. simpl.
        unfold linear_search. intros Hnone.
        assert (Meta.Contains g t = false) as Hcf.
        { apply (find_none _ _ Hnone g).
          apply list_elem_of_In. by rewrite sorted_items_perm. }
        revert Hcf. unfold Meta.Contains, Before.
        destruct (Z.ltb_spec t (Meta.StartTime g)); [lia|].
        destruct (Z.ltb_spec t (Meta.EndTime g)); [done|lia]. }
      destruct (_ !! _) as [g1|]; [destruct (Before _ _)|]; intros [= Hf _]; done.
Qed.

(** The theorem at two overlapping groups. *)
Lemma Covers_built_witness :
  let gs := [Meta.mkShardGroupInfo 1 10 20 0 [] 15;
             Meta.mkShardGroupInfo 2 15 20 0 [] 0] in
  Forall (λ g, Meta.StartTime g ≠ 0 ∧ Meta.EndTime g ≠ 0) gs
  ∧ ((Covers (built gs) 17).1 = true
     ↔ Exists (λ g, Meta.Contains g 17 = true) gs).
Proof.
  cbn zeta.
  assert (Forall (λ g, Meta.StartTime g ≠ 0 ∧ Meta.EndTime g ≠ 0)
            [Meta.mkShardGroupInfo 1 10 20 0 [] 15;
             Meta.mkShardGroupInfo 2 15 20 0 [] 0]) as Hnz.
  { repeat constructor; simpl; lia. }
  split; [exact Hnz|]. exact (Covers_built _ 17 Hnz).
Defined.

Lemma Less_false a b : Meta.Less a b = false ↔ by_end_then_start b a.
Proof.
  unfold Meta.Less, by_end_then_start, Equal, Before.
  destruct (Z.eqb_spec (Meta.effective_end a) (Meta.effective_end b)) as [He|Hne].
  - rewrite Z.ltb_ge. split; [intros; right; split; [done|lia]|].
    intros [Hlt|[_ Hle]]; lia.
  - rewrite Z.ltb_ge. split; [intros; left; lia|]. intros [Hlt|[He _]]; [lia|done].
Qed.

Lemma Less_true a b : Meta.Less a b = true → by_end_then_start a b.
Proof.
  unfold Meta.Less, by_end_then_start, Equal, Before.
  destruct (Z.eqb_spec (Meta.effective_end a) (Meta.effective_end b)) as [He|Hne];
    rewrite Z.ltb_lt; intros; [right; split; [done|lia]|left; lia].
Qed.

Lemma by_end_then_start_trans a b c :
  by_end_then_start a b → by_end_then_start b c → by_end_then_start a c.
Proof. unfold by_end_then_start. intros [?|[? ?]] [?|[? ?]]; [left|left|left|right]; lia. Qed.

Lemma insert_group_ordered g l : ordered l → ordered (Meta.insert_group g l).
Proof.
  unfold ordered. induction l as [|h rest IH]; simpl; [by split|].
  intros [Hh Hrest]. destruct (Meta.Less h g) eqn:Hless.
  - simpl. split; [|by apply IH].
    apply Forall_forall. intros x Hx.
    rewrite insert_group_perm in Hx. apply elem_of_cons in Hx as [->|Hx].
    + by apply Less_true.
    + rewrite Forall_forall in Hh. by apply Hh.
  - apply Less_false in Hless. simpl. split; [|by split].
    constructor; [done|]. eapply Forall_impl; [exact Hh|].
    intros x Hx. simpl. by eapply by_end_then_start_trans.
Qed.

(** [sort.Sort] leaves the slice in the order of [Less]. *)
Lemma sort_Sort_ordered l : ordered (Meta.sort_Sort l).
Proof.
  unfold Meta.sort_Sort. induction l as [|g l IH]; simpl; [done|].
  by apply insert_group_ordered.
Qed.

Lemma pairwise_lookup {A} (R : A → A → Prop) l i j a b :
  MetaSpec.pairwise R l → (i < j)%nat → l !! i = Some a → l !! j = Some b → R a b.
Proof.
  revert i j. induction l as [|x l IH]; intros i j Hp Hij Hi Hj; [done|].
  destruct Hp as [Hx Hl]. destruct j as [|j]; [lia|]. simpl in Hj.
  destruct i as [|i].
  - injection Hi as ->. rewrite Forall_forall in Hx. apply Hx.
    by eapply list_elem_of_lookup_2.
  - simpl in Hi. apply (IH i j); [done|lia|done|done].
Qed.

(** On a predicate that stays true once it is true, the binary search
    returns the least index at which it holds. *)
Lemma Search_least n f :
  (∀ i j, (i ≤ j < n)%nat → f i = true → f j = true) →
  (Search n f ≤ n)%nat
  ∧ ((Search n f < n)%nat → f (Search n f) = true)
  ∧ ∀ i, (i < Search n f)%nat → f i = false.
Proof.
  intros Hmono. unfold Search.
  destruct (Search_loop_spec f 0 n ltac:(lia)) as (Hr & Ht & Hf).
  split; [lia|]. split; [done|]. intros i Hi.
  destruct (f i) eqn:Hfi; [|done].
  rewrite <- (Hf ltac:(lia)). symmetry. apply (Hmono i); [lia|done].
Qed.

(** On a list that is not empty and holds no truncated group,
    [ShardGroupAt] works on the groups sorted, when the list is dirty, by
    end time and then by start time, the caller's slice being left in that
    order; it returns the first group of that order whose end time is after
    [t], unless there is none or that group starts after [t]: then it
    returns the first group containing [t] when [t] lies between
    [earliest] and [latest], and nil otherwise. *)
Theorem ShardGroupAt_search (l : sgList) (t : Time) :
  items l ≠ [] →
  Forall (λ g, Meta.Truncated g = false) (items l) →
  needsSort l = true ∨ ordered (items l) →
  ∃ its,
    its ≡ₚ items l
    ∧ ordered its
    ∧ (needsSort l = false → its = items l)
    ∧ ShardGroupAt l t =
        (first_ending_after Meta.EndTime l its t,
         mksgList its (needsSort l) (earliest l) (latest l)).
Proof.
  intros Hne Htrunc Hsorted. exists (sorted_items l).
  assert (ordered (sorted_items l)) as Hord.
  { unfold sorted_items. destruct (needsSort l); [apply sort_Sort_ordered|].
    by destruct Hsorted. }
  split; [apply sorted_items_perm|]. split; [done|].
  split; [unfold sorted_items; by intros ->|].
  unfold ShardGroupAt. destruct (Nat.eqb_spec (length (items l)) 0) as [Hz|_].
  { by destruct (items l). }
  set (its := sorted_items l) in *.
  assert (Forall (λ g, Meta.Truncated g = false) its) as Htr.
  { unfold its. by rewrite sorted_items_perm. }
  assert (∀ i j, (i ≤ j < length its)%nat →
                 end_after its t i = true → end_after its t j = true) as Hmono.
  { intros i j [Hij Hj]. unfold end_after.
    destruct (its !! i) as [gi|] eqn:Hi; [|done].
    destruct (lookup_lt_is_Some_2 its j Hj) as [gj Hgj]. rewrite Hgj.
    destruct (decide (i = j)) as [->|Hneq]; [congruence|].
    pose proof (pairwise_lookup _ _ i j gi gj Hord ltac:(lia) Hi Hgj) as Hle.
    rewrite Forall_forall in Htr.
    pose proof (Htr gi (list_elem_of_lookup_2 _ _ _ Hi)) as Hti.
    pose proof (Htr gj (list_elem_of_lookup_2 _ _ _ Hgj)) as Htj.
    unfold by_end_then_start, Meta.effective_end in Hle. rewrite Hti, Htj in Hle.
    unfold After. rewrite !Z.ltb_lt. lia. }
  destruct (Search_least (length its) (end_after its t) Hmono)
    as (Hle & Htrue & Hfalse).
  set (idx := Search (length its) (end_after its t)) in *.
  unfold first_ending_after.
  destruct (its !! idx) as [g|] eqn:Hidx.
  - assert (list_find (λ g, t < Meta.EndTime g) its = Some (idx, g)) as ->.
    { apply list_find_Some. split; [done|]. split.
      - specialize (Htrue (lookup_lt_Some _ _ _ Hidx)).
        unfold end_after in Htrue. rewrite Hidx in Htrue.
        by apply Z.ltb_lt in Htrue.
      - intros j y Hj Hlt Hy. specialize (Hfalse j Hlt).
        unfold end_after in Hfalse. rewrite Hj in Hfalse.
        apply Z.ltb_ge in Hfalse. lia. }
    by destruct (Before t (Meta.StartTime g)).
  - assert (list_find (λ g, t < Meta.EndTime g) its = None) as ->; [|done].
    apply list_find_None, Forall_forall. intros y Hy Hlt.
    apply list_elem_of_lookup in Hy as [j Hj].
    apply lookup_ge_None in Hidx.
    specialize (Hfalse j ltac:(apply lookup_lt_Some in Hj; lia)).
    unfold end_after in Hfalse. rewrite Hj in Hfalse.
    apply Z.ltb_ge in Hfalse. lia.
Qed.

(** The theorem at the two halves of an hour, added in reverse order. *)
Lemma ShardGroupAt_search_witness :
  let first_half :=
    Meta.mkShardGroupInfo 1 MetaExamples.new_year
      (MetaExamples.new_year + 30 * MetaExamples.minute) 0 [] 0 in
  let l := built [Examples.second_half; first_half] in
  items l ≠ []
  ∧ Forall (λ g, Meta.Truncated g = false) (items l)
  ∧ (needsSort l = true ∨ ordered (items l))
  ∧ ∃ its,
      ordered its
      ∧ ShardGroupAt l (MetaExamples.new_year + 45 * MetaExamples.minute) =
          (first_ending_after Meta.EndTime l its
             (MetaExamples.new_year + 45 * MetaExamples.minute),
           mksgList its (needsSort l) (earliest l) (latest l)).
Proof.
  intros first_half l.
  assert (items l ≠ []) as Hne by done.
  assert (Forall (λ g, Meta.Truncated g = false) (items l)) as Htr.
  { constructor; [done|]. constructor; [done|constructor]. }
  assert (needsSort l = true ∨ ordered (items l)) as Hs by (by left).
  split; [exact Hne|]. split; [exact Htr|]. split; [exact Hs|].
  destruct (ShardGroupAt_search l
              (MetaExamples.new_year + 45 * MetaExamples.minute) Hne Htr Hs)
    as (its & _ & Hord & _ & Hcall).
  exists its. split; [exact Hord|exact Hcall].
Defined.



End ListFacts.
(** ** MapShards *)

Section MapFacts.
Import GoTime Coordinator WriteSpec.

(** C5, at an input where the code does not do what the claim says. The
    policy keeps one hour and the clock stands ninety minutes into the
    year, so the lower bound is thirty minutes into the first hour. The
    point at forty minutes gets the group of the first hour created; the
    point at ten minutes is before the bound and creates nothing, but the
    second loop finds the group of the hour for it: it is mapped to shard
    7 with the other point, nothing is dropped and the drop counter
    stays. *)
Theorem stale_point_is_mapped :
  let now := MetaExamples.new_year + 90 * MetaExamples.minute in
  let rp := MetaExamples.autogen 1 MetaExamples.hour [] in
  let min := retention_min Examples.MinNanoTime now rp in
  min = MetaExamples.new_year + 30 * MetaExamples.minute
  ∧ Before (p_Time Examples.late_point) min = false
  ∧ Before (p_Time Examples.stale_point) min = true
  ∧ ∃ mapping stats w,
      MapShards Examples.short_lived Examples.MinNanoTime now
        (mkWritePointsRequest "db" "autogen"
           [Examples.late_point; Examples.stale_point])
        (Examples.zero_stats, 0%nat)
      = (Returns mapping, (stats, w))
      ∧ sm_Points mapping !! 7 = Some [Examples.late_point; Examples.stale_point]
      ∧ sm_Dropped mapping = []
      ∧ WriteDropped stats = 0.
Proof.
  cbn zeta. split; [reflexivity|]. split; [reflexivity|]. split; [reflexivity|].
  eexists _, _, _. split; [reflexivity|]. split; [reflexivity|].
  split; reflexivity.
Qed.

Lemma add_WriteDropped_0 stats : add_WriteDropped 0 stats = stats.
Proof. destruct stats. unfold add_WriteDropped. simpl. f_equal. lia. Qed.

Lemma add_WriteDropped_add a b stats :
  add_WriteDropped b (add_WriteDropped a stats) = add_WriteDropped (a + b) stats.
Proof. destruct stats. unfold add_WriteDropped. simpl. f_equal. lia. Qed.

Lemma mapped_MapPoint sh p mapping :
  mapped (MapPoint sh p mapping) ≡ₚ p :: mapped mapping.
Proof.
  unfold mapped, MapPoint. simpl.
  destruct (sm_Points mapping !! Meta.si_ID sh) as [pts|] eqn:Hk; simpl.
  - rewrite <- insert_delete_eq.
    rewrite map_to_list_insert by apply lookup_delete_eq.
    rewrite <- (map_to_list_delete _ _ _ Hk). rewrite !bind_cons. simpl.
    rewrite <- app_assoc. simpl. by rewrite <- Permutation_middle.
  - rewrite map_to_list_insert by done. by rewrite bind_cons.
Qed.

(** The second loop of [MapShards]. *)
Lemma map_points_accounts points list mapping stats mapping1 stats1 :
  map_points points list mapping stats = (Returns mapping1, stats1) →
  sm_Dropped mapping1 ++ mapped mapping1
    ≡ₚ points ++ sm_Dropped mapping ++ mapped mapping
  ∧ sm_n mapping1 = sm_n mapping
  ∧ (∃ extra, sm_Dropped mapping1 = sm_Dropped mapping ++ extra
              ∧ stats1 = add_WriteDropped (Z.of_nat (length extra)) stats)
  ∧ ((∀ k s, sm_Shards mapping !! k = Some s → Meta.si_ID s = k) →
     ∀ k s, sm_Shards mapping1 !! k = Some s → Meta.si_ID s = k).
Proof.
  revert list mapping stats. induction points as [|p rest IH];
    intros list mapping stats Hmap.
  - injection Hmap as <- <-. split; [done|]. split; [done|]. split; [|done].
    exists []. by rewrite app_nil_r, add_WriteDropped_0.
  - cbn [map_points] in Hmap.
    destruct (ShardGroupAt list (p_Time p)) as [[sg|] list1].
    + destruct (ShardFor sg p) as [sh|]; [|done].
      apply IH in Hmap as (Hperm & Hn & Hdrop & Hids).
      split; [|split; [done|split; [done|]]].
      * rewrite Hperm, mapped_MapPoint. simpl.
        rewrite !app_assoc. symmetry. apply Permutation_middle.
      * intros Hinv. apply Hids. intros k s. unfold MapPoint. simpl.
        destruct (decide (k = Meta.si_ID sh)) as [->|Hne].
        -- rewrite lookup_insert_eq. by intros [= ->].
        -- rewrite lookup_insert_ne by done. apply Hinv.
    + apply IH in Hmap as (Hperm & Hn & (extra & Hdrop & Hstats) & Hids).
      simpl in *. split; [|split; [exact Hn|split; [|exact Hids]]].
      * rewrite Hperm. unfold mapped. simpl.
        rewrite <- !app_assoc. simpl. rewrite !app_assoc.
        symmetry. apply Permutation_middle.
      * exists (p :: extra). rewrite Hdrop, <- app_assoc. split; [done|].
        rewrite Hstats, add_WriteDropped_add. f_equal. simpl length. lia.
Qed.

(** [MapShards] accounts for every point of the request: a point is
    either dropped or sent to one shard. The mapping it returns was made
    for the number of points of the request, every shard it sends points
    to has its [ShardInfo] under its own ID, and the drop counter grows by
    the number of dropped points, the other counters staying. *)
Theorem MapShards_accounts {W : Type} (c : Collaborators W) (MinNanoTime : Z)
    (now : Time) (wp : WritePointsRequest) (stats : WriteStatistics) (w : W)
    (mapping : ShardMapping) (stats1 : WriteStatistics) (w1 : W) :
  MapShards c MinNanoTime now wp (stats, w) = (Returns mapping, (stats1, w1)) →
  wp_Points wp ≡ₚ sm_Dropped mapping ++ mapped mapping
  ∧ sm_n mapping = length (wp_Points wp)
  ∧ stats1 = add_WriteDropped (Z.of_nat (length (sm_Dropped mapping))) stats
  ∧ (∀ k, is_Some (sm_Points mapping !! k) → is_Some (sm_Shards mapping !! k))
  ∧ (∀ k s, sm_Shards mapping !! k = Some s → Meta.si_ID s = k).
Proof.
  intros Hcall. pose proof (MapShards_keys _ _ _ _ _ _ _ Hcall) as Hkeys.
  revert Hcall. unfold MapShards.
  destruct (mc_RetentionPolicy c (wp_Database wp) (wp_RetentionPolicy wp) w)
    as [err|[rp|]]; [done| |done].
  destruct (create_groups c _ _ _ _ _ w) as [[list|err|] w2]; [|done|done].
  destruct (map_points (wp_Points wp) list _ stats) as [r stats2] eqn:Hmap.
  intros [= -> <- <-].
  apply map_points_accounts in Hmap as (Hperm & Hn & (extra & Hdrop & Hstats) & Hids).
  simpl in *. unfold mapped in Hperm at 2. simpl in Hperm.
  rewrite map_to_list_empty in Hperm. simpl in Hperm.
  rewrite app_nil_r in Hperm. split; [done|]. split; [done|].
  split; [by rewrite Hdrop|]. split; [done|]. apply Hids.
  intros k s. by rewrite lookup_empty.
Qed.

(** The theorem at the request of [Examples.one_shard]. *)
Lemma MapShards_accounts_witness :
  let wp := mkWritePointsRequest "db" "autogen" [Examples.recent_point; Examples.a_point] in
  MapShards Examples.serving Examples.MinNanoTime 0 wp (Examples.zero_stats, 0%nat)
  = (Returns Examples.one_shard, (mkWriteStatistics 0 0 0 0 0 0 0 1 0 0 0 0, 0%nat))
  ∧ wp_Points wp ≡ₚ sm_Dropped Examples.one_shard ++ mapped Examples.one_shard.
Proof.
  intros wp.
  assert (MapShards Examples.serving Examples.MinNanoTime 0 wp (Examples.zero_stats, 0%nat)
          = (Returns Examples.one_shard,
             (mkWriteStatistics 0 0 0 0 0 0 0 1 0 0 0 0, 0%nat))) as Hcall
    by reflexivity.
  split; [exact Hcall|].
  exact (proj1 (MapShards_accounts _ _ _ _ _ _ _ _ _ Hcall)).
Defined.

Lemma create_groups_stale {W} (c : Collaborators W) database retentionPolicy min
    points list w :
  Forall (λ p, Before (p_Time p) min = true) points →
  create_groups c database retentionPolicy min points list w = (Returns list, w).
Proof.
  induction 1 as [|p rest Hp _ IH]; [done|]. cbn [create_groups]. by rewrite Hp.
Qed.

Lemma map_points_empty points list mapping stats :
  items list = [] →
  map_points points list mapping stats
  = (Returns (mkShardMapping (sm_n mapping) (sm_Points mapping) (sm_Shards mapping)
                (sm_Dropped mapping ++ points)),
     add_WriteDropped (Z.of_nat (length points)) stats).
Proof.
  intros Hnil. revert mapping stats.
  induction points as [|p rest IH]; intros mapping stats.
  - simpl. rewrite app_nil_r, add_WriteDropped_0. by destruct mapping.
  - cbn [map_points]. unfold ShardGroupAt. rewrite Hnil. simpl.
    rewrite IH. simpl. rewrite <- app_assoc, add_WriteDropped_add. simpl.
    do 2 f_equal. lia.
Qed.

(** When every point of the request is before the lower bound of the
    retention period, [MapShards] asks the meta client for no shard group
    and leaves its state alone, maps no point to a shard and drops them
    all, in their order. *)
Theorem MapShards_all_stale {W : Type} (c : Collaborators W) (MinNanoTime : Z)
    (now : Time) (wp : WritePointsRequest) (stats : WriteStatistics) (w : W)
    (rp : Meta.RetentionPolicyInfo) :
  mc_RetentionPolicy c (wp_Database wp) (wp_RetentionPolicy wp) w = inr (Some rp) →
  Forall (λ p, Before (p_Time p) (retention_min MinNanoTime now rp) = true)
    (wp_Points wp) →
  MapShards c MinNanoTime now wp (stats, w)
  = (Returns (mkShardMapping (length (wp_Points wp)) ∅ ∅ (wp_Points wp)),
     (add_WriteDropped (Z.of_nat (length (wp_Points wp))) stats, w)).
Proof.
  intros Hrp Hstale. unfold MapShards. rewrite Hrp.
  rewrite create_groups_stale by done. by rewrite map_points_empty.
Qed.

(** The theorem at two points of the year 1 under a policy that keeps
    data for ever. *)
Lemma MapShards_all_stale_witness :
  let wp := mkWritePointsRequest "db" "autogen" [Examples.a_point; Examples.a_point] in
  mc_RetentionPolicy Examples.serving "db" "autogen" 0%nat
  = inr (Some (MetaExamples.autogen 1 0 []))
  ∧ Forall (λ p, Before (p_Time p)
                   (retention_min Examples.MinNanoTime 0 (MetaExamples.autogen 1 0 []))
                 = true) (wp_Points wp)
  ∧ MapShards Examples.serving Examples.MinNanoTime 0 wp (Examples.zero_stats, 0%nat)
    = (Returns (mkShardMapping 2 ∅ ∅ [Examples.a_point; Examples.a_point]),
       (mkWriteStatistics 0 0 0 0 0 0 0 2 0 0 0 0, 0%nat)).
Proof.
  intros wp.
  assert (Forall (λ p, Before (p_Time p)
                         (retention_min Examples.MinNanoTime 0
                            (MetaExamples.autogen 1 0 [])) = true)
            (wp_Points wp)) as Hstale.
  { constructor; [reflexivity|]. constructor; [reflexivity|constructor]. }
  split; [reflexivity|]. split; [exact Hstale|].
  exact (MapShards_all_stale Examples.serving Examples.MinNanoTime 0 wp
           Examples.zero_stats 0%nat (MetaExamples.autogen 1 0 []) eq_refl Hstale).
Defined.


End MapFacts.
